(** * Ukkonen.py: suffix ranks through a suffix tree

    A shallow embedding of [Ukkonen.py].  Python objects live in an arena
    of nodes addressed by index, the builder's attributes and the arena form
    the store threaded through a state-and-exception monad, and every
    exception the interpreter can raise on the paths of the program is a
    value of [exception]. *)

From Stdlib Require Import ZArith Lia String Ascii.
From stdpp Require Import base option list list_numbers gmap sorting.

Local Open Scope Z_scope.

(** ** Python values and exceptions *)

Inductive exception : Set :=
| IndexError
| TypeError
| AttributeError
| KeyError
| RecursionError
| DanglingReference.

Inductive result (A : Type) : Type :=
| Ok (a : A)
| Raise (e : exception).
Arguments Ok {A} a.
Arguments Raise {A} e.

(** [sys.getrecursionlimit()] of CPython. *)
Definition recursion_limit : nat := 1000.

(** A Python [str] is the list of its code points, so [ord] is the
    identity. *)
Definition ord (c : Z) : Z := c.

Definition str (s : string) : list Z :=
  map (λ a, Z.of_N (N_of_ascii a)) (list_ascii_of_string s).

(** Subscripts: an index in [-len, len) is accepted, a negative one counts
    from the end, anything else raises [IndexError]. *)
Definition py_norm (len : nat) (k : Z) : option nat :=
  let n := Z.of_nat len in
  if (0 <=? k) && (k <? n) then Some (Z.to_nat k)
  else if (- n <=? k) && (k <? 0) then Some (Z.to_nat (k + n))
  else None.

Definition py_getitem {A} (l : list A) (k : Z) : result A :=
  match py_norm (length l) k with
  | Some i => match l !! i with Some x => Ok x | None => Raise IndexError end
  | None => Raise IndexError
  end.

Definition py_setitem {A} (l : list A) (k : Z) (x : A) : result (list A) :=
  match py_norm (length l) k with
  | Some i => Ok (<[i:=x]> l)
  | None => Raise IndexError
  end.

(** [a + b] and [a - b] on values that are an [int] or [None]. *)
Definition py_add (a : option Z) (b : Z) : result Z :=
  match a with Some x => Ok (x + b) | None => Raise TypeError end.

(** A subscript has to be an [int]. *)
Definition py_index (a : option Z) : result Z :=
  match a with Some x => Ok x | None => Raise TypeError end.

Definition py_sub (a b : option Z) : result Z :=
  match a, b with
  | Some x, Some y => Ok (x - y)
  | _, _ => Raise TypeError
  end.

(** ** EndMarker *)

Record EndMarker : Set := mkEndMarker { value : Z }.

Definition EndMarker_new : EndMarker := {| value := -1 |}.

Definition increment (m : EndMarker) : EndMarker := {| value := value m + 1 |}.

(** ** TrieNode *)

(** References to nodes are indices into the arena. *)
Abbreviation addr := nat (only parsing).

Record TrieNode : Set := mkTrieNode {
  node_id : Z;
  start_idx : option Z;
  end_idx : option Z;
  is_terminal : bool;
  children : list (option addr);
  suffix_link : option addr
}.

Definition TrieNode_init (node_id : Z) (start_idx end_idx : option Z)
    (is_terminal : bool) : TrieNode :=
  {| node_id := node_id; start_idx := start_idx; end_idx := end_idx;
     is_terminal := is_terminal; children := replicate 91 None;
     suffix_link := None |}.

Definition end_index (n : TrieNode) : option Z :=
  if is_terminal n then Some (value EndMarker_new) else end_idx n.

Definition set_children (cs : list (option addr)) (n : TrieNode) : TrieNode :=
  {| node_id := node_id n; start_idx := start_idx n; end_idx := end_idx n;
     is_terminal := is_terminal n; children := cs;
     suffix_link := suffix_link n |}.

Definition set_start_idx (s : option Z) (n : TrieNode) : TrieNode :=
  {| node_id := node_id n; start_idx := s; end_idx := end_idx n;
     is_terminal := is_terminal n; children := children n;
     suffix_link := suffix_link n |}.

Definition set_suffix_link (l : option addr) (n : TrieNode) : TrieNode :=
  {| node_id := node_id n; start_idx := start_idx n; end_idx := end_idx n;
     is_terminal := is_terminal n; children := children n;
     suffix_link := l |}.

(** ** The store

    [arena] holds every [TrieNode] object; the other fields are the
    attributes of the one [UkkonenSuffixTree] object. *)

Record store : Set := mkStore {
  arena : list TrieNode;
  input_str : list Z;
  root : addr;
  active_length : Z;
  active_edge : option addr;
  active_node : option addr;
  global_end_marker : EndMarker;
  suffix_ids : list Z
}.

(** Program points at which the run records the store. *)
Inductive point : Set :=
| PhaseStart (i : Z)
| ExtensionStart (i j : Z)
| Mutation
| ExtensionEnd (i j : Z).

Record world : Set := mkWorld {
  st : store;
  history : list (point * store)
}.

Definition M (A : Type) : Type := world → result A * world.

Global Instance M_ret : MRet M := λ A a w, (Ok a, w).
Global Instance M_bind : MBind M := λ A B k m w,
  match m w with
  | (Ok a, w') => k a w'
  | (Raise e, w') => (Raise e, w')
  end.

Definition raise {A} (e : exception) : M A := λ w, (Raise e, w).

Definition lift {A} (r : result A) : M A := λ w, (r, w).

Definition gets {A} (f : store → A) : M A := λ w, (Ok (f (st w)), w).

Definition modify (f : store → store) : M unit :=
  λ w, (Ok tt, {| st := f (st w); history := history w |}).

Definition record (p : point) : M unit :=
  λ w, (Ok tt, {| st := st w; history := (p, st w) :: history w |}).

Definition with_arena (h : list TrieNode) (s : store) : store :=
  {| arena := h; input_str := input_str s; root := root s;
     active_length := active_length s; active_edge := active_edge s;
     active_node := active_node s; global_end_marker := global_end_marker s;
     suffix_ids := suffix_ids s |}.

Definition with_active_length (l : Z) (s : store) : store :=
  {| arena := arena s; input_str := input_str s; root := root s;
     active_length := l; active_edge := active_edge s;
     active_node := active_node s; global_end_marker := global_end_marker s;
     suffix_ids := suffix_ids s |}.

Definition with_active_node (n : option addr) (s : store) : store :=
  {| arena := arena s; input_str := input_str s; root := root s;
     active_length := active_length s; active_edge := active_edge s;
     active_node := n; global_end_marker := global_end_marker s;
     suffix_ids := suffix_ids s |}.

Definition with_global_end_marker (m : EndMarker) (s : store) : store :=
  {| arena := arena s; input_str := input_str s; root := root s;
     active_length := active_length s; active_edge := active_edge s;
     active_node := active_node s; global_end_marker := m;
     suffix_ids := suffix_ids s |}.

Definition with_suffix_ids (l : list Z) (s : store) : store :=
  {| arena := arena s; input_str := input_str s; root := root s;
     active_length := active_length s; active_edge := active_edge s;
     active_node := active_node s; global_end_marker := global_end_marker s;
     suffix_ids := l |}.

(** Attribute access on a reference; [None] has no attributes. *)
Definition deref (r : option addr) : M TrieNode := λ w,
  match r with
  | None => (Raise AttributeError, w)
  | Some a =>
      match arena (st w) !! a with
      | Some n => (Ok n, w)
      | None => (Raise DanglingReference, w)
      end
  end.

(** Every write to the arena is followed by a [Mutation] record. *)
Definition update_node (a : addr) (f : TrieNode → TrieNode) : M unit :=
  n ← deref (Some a);
  modify (λ s, with_arena (<[a := f n]> (arena s)) s);;
  record Mutation.

(** [TrieNode(node_id, start_idx, end_idx, is_terminal)] *)
Definition TrieNode_new (node_id : Z) (start_idx end_idx : option Z)
    (is_terminal : bool) : M addr :=
  a ← gets (λ s, length (arena s));
  modify (λ s, with_arena
    (arena s ++ [TrieNode_init node_id start_idx end_idx is_terminal]) s);;
  record Mutation;;
  mret a.

Definition get_child_at (self : option addr) (char_pos : Z)
    : M (option addr) :=
  n ← deref self;
  lift (py_getitem (children n) char_pos).

Definition add_child (self : option addr) (char_pos : Z)
    (new_child : option addr) : M unit :=
  n ← deref self;
  cs ← lift (py_setitem (children n) char_pos new_child);
  match self with
  | Some a => update_node a (set_children cs)
  | None => raise AttributeError
  end.

(** ** UkkonenSuffixTree *)

(** Frames already on the interpreter stack when [build_suffix_tree]
    calls [traverse_path]: the module, [main], [__init__] and
    [build_suffix_tree] itself. *)
Definition traverse_depth : nat := recursion_limit - 4.

(** Frames below the first call of [retrieve_suffix_ids]: the module,
    [main] and [__init__]. *)
Definition retrieve_depth : nat := recursion_limit - 3.

Arguments recursion_limit : simpl never.
Arguments traverse_depth : simpl never.
Arguments retrieve_depth : simpl never.

Fixpoint traverse_path (depth : nat) (current_node : option addr)
    (length : Z) : M (option addr) :=
  match depth with
  | O => raise RecursionError
  | S depth' =>
      n ← deref current_node;
      if is_terminal n || (length =? 0) then mret current_node
      else
        current_node ← gets active_node;
        let active_length := length in
        s ← gets input_str;
        e ← gets (λ s, value (global_end_marker s));
        c ← lift (py_getitem s (e - active_length));
        let char_pos := ord c - 36 in
        edge_node ← get_child_at current_node char_pos;
        match edge_node with
        | None => mret current_node
        | Some _ =>
            en ← deref edge_node;
            edge_len ← lift (py_sub (end_index en) (start_idx en));
            if active_length <? edge_len then mret current_node
            else traverse_path depth' edge_node (active_length - edge_len)
        end
  end.

(** Rule 2.1, lines 78-79. *)
Definition new_leaf_rule (i j char_pos : Z) : M unit :=
  al ← gets active_length;
  e ← gets (λ s, value (global_end_marker s));
  new_leaf ← TrieNode_new j (Some (i - al)) (Some e) true;
  an ← gets active_node;
  add_child an char_pos (Some new_leaf).

(** Rule 2.2, lines 84-98; the result is the new [last_internal_node]. *)
Definition split_rule (i j char_pos : Z) (active_edge : addr)
    (last_internal_node : option addr) : M (option addr) :=
  s ← gets input_str;
  al ← gets active_length;
  x ← lift (py_getitem s (i - 1));
  aen ← deref (Some active_edge);
  k ← lift (py_add (start_idx aen) al);
  new_internal ← TrieNode_new (ord x) (start_idx aen) (Some (k - 1)) false;
  an ← gets active_node;
  add_child an char_pos (Some new_internal);;
  aen ← deref (Some active_edge);
  k ← lift (py_add (start_idx aen) (al - 1));
  update_node active_edge (set_start_idx (Some k));;
  aen ← deref (Some active_edge);
  k ← lift (py_index (start_idx aen));
  c ← lift (py_getitem s k);
  add_child (Some new_internal) (ord c - 36) (Some active_edge);;
  e ← gets (λ s, value (global_end_marker s));
  new_leaf ← TrieNode_new j (Some (i - 1)) (Some e) true;
  x ← lift (py_getitem s (i - 1));
  add_child (Some new_internal) (ord x - 36) (Some new_leaf);;
  r ← gets root;
  update_node new_internal (set_suffix_link (Some r));;
  match last_internal_node with
  | Some l => update_node l (set_suffix_link (Some new_internal))
  | None => mret tt
  end;;
  mret (Some new_internal).

(** Lines 104-106; [j + 1] is the caller's new [j]. *)
Definition advance (i j : Z) : M unit :=
  an ← gets active_node;
  n ← deref an;
  modify (with_active_node (suffix_link n));;
  modify (λ s, with_active_length (active_length s + 1) s);;
  record (ExtensionEnd i (j + 1)).

(** One iteration of the [while j < i] loop, lines 66-106.  [None] is the
    [break] of Rule 3; otherwise the new [last_internal_node] is returned
    and the caller continues with [j + 1]. *)
Definition extension (i j : Z) (last_internal_node : option addr)
    : M (option (option addr)) :=
  an ← gets active_node;
  r ← gets root;
  (if decide (an = Some r) then modify (with_active_length (i - j))
   else mret tt);;
  record (ExtensionStart i j);;
  an ← gets active_node;
  al ← gets active_length;
  next_node ← traverse_path traverse_depth an al;
  s ← gets input_str;
  al ← gets active_length;
  c ← lift (py_getitem s (i - al));
  let char_pos := ord c - 36 in
  an ← gets active_node;
  active_edge ← get_child_at an char_pos;
  applied ←
    match active_edge with
    | None => new_leaf_rule i j char_pos;; mret (Some last_internal_node)
    | Some ae =>
        x ← lift (py_getitem s (i - 1));
        aen ← deref (Some ae);
        k ← lift (py_add (start_idx aen) al);
        y ← lift (py_getitem s (k - 1));
        if decide (x = y) then mret None
        else
          l ← split_rule i j char_pos ae last_internal_node;
          mret (Some l)
    end;
  match applied with
  | None => mret None
  | Some last => advance i j;; mret (Some last)
  end.

(** The [while j < i] loop of one phase; the result is the final [j].
    Every iteration that does not [break] adds one to [j], so [i - j]
    iterations are all the loop can make. *)
Fixpoint extensions (fuel : nat) (i j : Z) (last_internal_node : option addr)
    : M Z :=
  match fuel with
  | O => mret j
  | S fuel' =>
      if j <? i then
        r ← extension i j last_internal_node;
        match r with
        | None => mret j
        | Some last => extensions fuel' i (j + 1) last
        end
      else mret j
  end.

(** The body of the [for i] loop, lines 62-106. *)
Definition phase (i j : Z) : M Z :=
  modify (λ s, with_global_end_marker (increment (global_end_marker s)) s);;
  record (PhaseStart i);;
  extensions (Z.to_nat (i - j)) i j None.

Fixpoint phases (range : list Z) (j : Z) : M Z :=
  match range with
  | [] => mret j
  | i :: range' => j' ← phase i j; phases range' j'
  end.

Definition build_suffix_tree : M unit :=
  s ← gets input_str;
  phases (seqZ 0 (Z.of_nat (length s) + 1)) 0;;
  mret tt.

Fixpoint for_each {A} (body : A → M unit) (l : list A) : M unit :=
  match l with
  | [] => mret tt
  | x :: l' => body x;; for_each body l'
  end.

Fixpoint retrieve_suffix_ids (depth : nat) (node : option addr) : M unit :=
  match depth with
  | O => raise RecursionError
  | S depth' =>
      match node with
      | None => mret tt
      | Some _ =>
          n ← deref node;
          if is_terminal n then
            modify (λ s, with_suffix_ids (suffix_ids s ++ [node_id n]) s)
          else
            for_each
              (λ child : option addr,
                 match child with
                 | Some _ => retrieve_suffix_ids depth' child
                 | None => mret tt
                 end)
              (children n)
      end
  end.

(** [UkkonenSuffixTree(input_str)], run in a process whose arena already
    holds [heap]: the store [__init__] sets up, then [build_suffix_tree]
    and [retrieve_suffix_ids]. *)
Definition init_store (heap : list TrieNode) (input : list Z) : store :=
  let r := length heap in
  {| arena :=
       heap ++ [set_suffix_link (Some r) (TrieNode_init (-1) None None false)];
     input_str := input ++ str "$";
     root := r;
     active_length := 0;
     active_edge := None;
     active_node := Some r;
     global_end_marker := EndMarker_new;
     suffix_ids := [] |}.

Definition init_world (heap : list TrieNode) (input : list Z) : world :=
  {| st := init_store heap input;
     history := [(Mutation, init_store heap input)] |}.

Definition UkkonenSuffixTree_init : M unit :=
  build_suffix_tree;;
  r ← gets root;
  retrieve_suffix_ids retrieve_depth (Some r).

Definition UkkonenSuffixTree (heap : list TrieNode) (input : list Z)
    : result unit * world :=
  UkkonenSuffixTree_init (init_world heap input).

(** ** main *)

(** Lines 171-173. *)
Fixpoint fill_dict (suffix_ids : list Z) (i : Z) (suffix_dict : gmap Z Z)
    : gmap Z Z :=
  match suffix_ids with
  | [] => suffix_dict
  | x :: rest => fill_dict rest (i + 1) (<[x := i + 1]> suffix_dict)
  end.

Definition key_le (a b : Z * Z) : Prop := a.1 ≤ b.1.

Global Instance key_le_dec a b : Decision (key_le a b) := Z_le_dec _ _.

(** [dict(items)]: later items overwrite earlier ones. *)
Definition py_dict (items : list (Z * Z)) : gmap Z Z :=
  foldl (λ d kv, <[kv.1 := kv.2]> d) ∅ items.

(** Line 176. *)
Definition sort_dict (suffix_dict : gmap Z Z) : gmap Z Z :=
  py_dict (merge_sort key_le (map_to_list suffix_dict)).

(** The position-to-rank mapping of a finished tree. *)
Definition rank_mapping (uk : store) : gmap Z Z :=
  sort_dict (fill_dict (suffix_ids uk) 0 ∅).

(** The locals of [main] that the query loop can see. *)
Record frame : Type := mkFrame {
  uk : store;
  sorted_dict : gmap Z Z;
  res : list Z
}.

(** Lines 181-183. *)
Fixpoint lookup_ranks (positions : list Z) (f : frame)
    : result unit * frame :=
  match positions with
  | [] => (Ok tt, f)
  | num :: rest =>
      match sorted_dict f !! (num - 1) with
      | Some ind =>
          lookup_ranks rest
            {| uk := uk f; sorted_dict := sorted_dict f;
               res := res f ++ [ind] |}
      | None => (Raise KeyError, f)
      end
  end.

(** [main] without its file access: the text and the positions come in,
    the ranks that would be written come out. *)
Definition main (input_string : list Z) (positions : list Z)
    : result (list Z) :=
  match UkkonenSuffixTree [] input_string with
  | (Raise e, _) => Raise e
  | (Ok _, w) =>
      let f := {| uk := st w; sorted_dict := rank_mapping (st w); res := [] |} in
      match lookup_ranks positions f with
      | (Ok _, f') => Ok (res f')
      | (Raise e, _) => Raise e
      end
  end.

Definition suffix_ids_of (input : list Z) : result (list Z) :=
  match UkkonenSuffixTree [] input with
  | (Ok _, w) => Ok (suffix_ids (st w))
  | (Raise e, _) => Raise e
  end.

(** ** The walk of the specification, and what the claims speak of *)

(** From the specification, section 4.3: the effective end of a leaf is
    the current value of the end marker, that of any other node its stored
    end. *)
Definition spec_effective_end (n : TrieNode) : M (option Z) :=
  if is_terminal n then
    e ← gets (λ s, value (global_end_marker s)); mret (Some e)
  else mret (end_idx n).

(** From the specification, section 4.4(b): starting at [node], follow
    whole edges while the edge is shorter than what remains, and take the
    edge's length off what remains. *)
Fixpoint spec_skip_count (depth : nat) (node : option addr) (remaining : Z)
    : M (option addr) :=
  match depth with
  | O => raise RecursionError
  | S depth' =>
      if remaining =? 0 then mret node
      else
        s ← gets input_str;
        e ← gets (λ s, value (global_end_marker s));
        c ← lift (py_getitem s (e - remaining));
        child ← get_child_at node (ord c - 36);
        match child with
        | None => mret node
        | Some _ =>
            cn ← deref child;
            eff ← spec_effective_end cn;
            d ← lift (py_sub eff (start_idx cn));
            let edge_length := d + 1 in
            if edge_length <? remaining then
              spec_skip_count depth' child (remaining - edge_length)
            else mret node
        end
  end.

Global Instance point_eq_dec : EqDecision point.
Proof. solve_decision. Defined.

(** The store recorded at program point [p], if the run came by it. *)
Fixpoint find_point (p : point) (hist : list (point * store))
    : option store :=
  match hist with
  | [] => None
  | (q, x) :: rest => if decide (q = p) then Some x else find_point p rest
  end.

Definition snapshot_at (p : point) (w : world) : option store :=
  find_point p (history w).

Definition at_store {A} (m : M A) (x : store) : result A :=
  (m {| st := x; history := [] |}).1.

(** Lexicographic order on texts. *)
Fixpoint lex_lt (a b : list Z) : bool :=
  match a, b with
  | [], [] => false
  | [], _ :: _ => true
  | _ :: _, [] => false
  | x :: a', y :: b' => (x <? y) || ((x =? y) && lex_lt a' b')
  end.

(** [ids] lists the suffix starts of the terminated text [t], each once,
    in the order of the suffixes. *)
Definition is_suffix_array (t : list Z) (ids : list Z) : Prop :=
  ids ≡ₚ seqZ 0 (Z.of_nat (length t)) ∧
  ∀ (a b : nat) (p1 p2 : Z),
    ids !! a = Some p1 → ids !! b = Some p2 →
    ((a < b)%nat ↔ lex_lt (drop (Z.to_nat p1) t) (drop (Z.to_nat p2) t) = true).

(** The first symbol of the edge into [c]. *)
Definition first_symbol (s : list Z) (h : list TrieNode) (c : addr)
    : option Z :=
  n ← h !! c;
  z ← start_idx n;
  match py_getitem s z with Ok ch => Some ch | Raise _ => None end.

Record tree_invariant (s : list Z) (x : store) : Prop := {
  root_exists :
    ∃ rn, arena x !! root x = Some rn ∧ is_terminal rn = false;
  child_in_its_slot : ∀ a n k c,
    arena x !! a = Some n → children n !! k = Some (Some c) →
    ∃ ch, first_symbol s (arena x) c = Some ch ∧
          py_norm 91 (ord ch - 36) = Some k;
  first_symbols_differ : ∀ a n k k' c c',
    arena x !! a = Some n →
    children n !! k = Some (Some c) → children n !! k' = Some (Some c') →
    k ≠ k' → first_symbol s (arena x) c ≠ first_symbol s (arena x) c'
}.

(** The end marker during an extension, read as the claim words it: the
    index of the last symbol taken up so far.  An extension of phase [i]
    inserts [input_str[i - 1]], so that index is [i - 1]. *)
Definition marker_is_last_index (w : world) : Prop :=
  ∀ i j x, snapshot_at (ExtensionStart i j) w = Some x →
    value (global_end_marker x) = i - 1.

(** The symbols the comment on the child table names. *)
Definition supported (c : Z) : Prop := 36 ≤ c ≤ 126.

(** C4 as stated, in its weakest reading: a text with a symbol outside the
    supported range makes the constructor raise. *)
Definition rejects_unsupported (input : list Z) : Prop :=
  (∃ c, c ∈ input ∧ ¬ supported c) →
  ∃ e, (UkkonenSuffixTree [] input).1 = Raise e.

(** ** Weakest preconditions

    [wp m Q E w]: run from [w], [m] either returns [a] in a world with
    [Q a], or raises [e] in a world with [E e]. *)

Definition wp {A} (m : M A) (Q : A → world → Prop)
    (E : exception → world → Prop) (w : world) : Prop :=
  match m w with
  | (Ok a, w') => Q a w'
  | (Raise e, w') => E e w'
  end.

(** The world after a write that left the arena as [h]. *)
Definition push_arena (h : list TrieNode) (w : world) : world :=
  {| st := with_arena h (st w);
     history := (Mutation, with_arena h (st w)) :: history w |}.

Definition pure_op {A} (m : M A) : Prop := ∀ w, (m w).2 = w.

(** ** Invariants of the arena and of the run *)

Section ArenaPredicates.

Variable s : list Z.

(** Child table slot [k] is the one the first symbol of [c]'s edge is
    encoded to. *)
Definition first_slot (h : list TrieNode) (c : addr) (k : nat) : Prop :=
  ∃ cn z ch, h !! c = Some cn ∧ start_idx cn = Some z ∧
    py_getitem s z = Ok ch ∧ py_norm 91 (ord ch - 36) = Some k.

Definition unreferenced (h : list TrieNode) (c : addr) : Prop :=
  ∀ a n k, h !! a = Some n → children n !! k ≠ Some (Some c).

Record arena_ok (r : addr) (h : list TrieNode) : Prop := {
  root_ok : ∃ rn, h !! r = Some rn ∧ is_terminal rn = false ∧
    suffix_link rn = Some r;
  width_ok : ∀ a n, h !! a = Some n → length (children n) = 91%nat;
  slot_ok : ∀ a n k c,
    h !! a = Some n → children n !! k = Some (Some c) → first_slot h c k;
  parent_ok : ∀ a a' n n' k k' c,
    h !! a = Some n → h !! a' = Some n' →
    children n !! k = Some (Some c) → children n' !! k' = Some (Some c) →
    a = a' ∧ k = k';
  leaf_ok : ∀ a n,
    h !! a = Some n → is_terminal n = true →
    0 ≤ node_id n < Z.of_nat (length s);
  end_ok : ∀ a n,
    h !! a = Some n → is_Some (start_idx n) → is_Some (end_idx n)
}.

(** The edges that leave the root start before [j]. *)
Definition starts_below (j : Z) (r : addr) (h : list TrieNode) : Prop :=
  ∀ rn k c, h !! r = Some rn → children rn !! k = Some (Some c) →
    ∃ cn z, h !! c = Some cn ∧ start_idx cn = Some z ∧ 0 ≤ z < j.

End ArenaPredicates.

(** The edge into [c] starts at text position [z]. *)
Definition edge_start (h : list TrieNode) (c : addr) (z : Z) : Prop :=
  ∃ cn, h !! c = Some cn ∧ start_idx cn = Some z.

(** What the steps of an extension maintain of the arena. *)
Definition good (s : list Z) (j : Z) (r : addr) (h : list TrieNode) : Prop :=
  arena_ok s r h ∧ starts_below j r h.

Record store_ok (s : list Z) (x : store) : Prop := {
  text_ok : input_str x = s;
  active_ok : active_node x = Some (root x);
  tree_ok : arena_ok s (root x) (arena x);
  ids_ok : Forall (λ id, 0 ≤ id < Z.of_nat (length s)) (suffix_ids x)
}.

Definition point_ok (p : point) (x : store) : Prop :=
  match p with
  | PhaseStart i => value (global_end_marker x) = i
  | ExtensionStart i j =>
      value (global_end_marker x) = i ∧ active_length x = i - j
  | Mutation => True
  | ExtensionEnd i j => value (global_end_marker x) = i
  end.

(** The phases recorded so far, newest first, each with the value the end
    marker had when its extensions began. *)
Definition phase_starts (hist : list (point * store)) : list (Z * Z) :=
  omap (λ px : point * store,
          match px.1 with
          | PhaseStart i => Some (i, value (global_end_marker px.2))
          | _ => None
          end) hist.

Record world_ok (s : list Z) (w : world) : Prop := {
  st_ok : store_ok s (st w);
  history_ok :
    Forall (λ px : point * store, store_ok s px.2 ∧ point_ok px.1 px.2)
      (history w);
  phases_ok :
    phase_starts (history w) =
    reverse ((λ i, (i, i)) <$> seqZ 0 (value (global_end_marker (st w)) + 1));
  marker_ok : -1 ≤ value (global_end_marker (st w))
}.

(** The exceptions a run can end in: a subscript out of range, or the
    interpreter's recursion limit. *)
Definition expected (e : exception) : Prop :=
  e = IndexError ∨ e = RecursionError.

Definition fails (s : list Z) (e : exception) (w : world) : Prop :=
  expected e ∧ world_ok s w.

(** A symbol the 91-slot child table accepts as [ord c - 36]. *)
Definition encodable (c : Z) : Prop := is_Some (py_norm 91 (ord c - 36)).

Section LoopPredicates.

Variable s : list Z.

Definition validated (i : Z) : Prop :=
  ∀ p c, 0 ≤ p < i → s !! Z.to_nat p = Some c → encodable c.

Record loop_inv (i j : Z) (last : option addr) (w : world) : Prop := {
  li_world : world_ok s w;
  li_starts : starts_below j (root (st w)) (arena (st w));
  li_marker : value (global_end_marker (st w)) = i;
  li_last : ∀ l, last = Some l →
    l ≠ root (st w) ∧ (l < length (arena (st w)))%nat
}.

(** What [retrieve_suffix_ids] keeps: the invariants, the end marker and
    the arena. *)
Definition kept (g : EndMarker) (h : list TrieNode) (w : world) : Prop :=
  world_ok s w ∧ global_end_marker (st w) = g ∧ arena (st w) = h.

End LoopPredicates.

(** ** Two runs that differ by a shift of addresses *)

Section Shift.

Variable heap : list TrieNode.

Definition relocate (a : addr) : addr := (length heap + a)%nat.

Definition relocate_node (n : TrieNode) : TrieNode :=
  {| node_id := node_id n; start_idx := start_idx n; end_idx := end_idx n;
     is_terminal := is_terminal n;
     children := option_map relocate <$> children n;
     suffix_link := option_map relocate (suffix_link n) |}.

Record sim (x1 x2 : store) : Prop := {
  sim_arena : arena x2 = heap ++ (relocate_node <$> arena x1);
  sim_text : input_str x2 = input_str x1;
  sim_root : root x2 = relocate (root x1);
  sim_length : active_length x2 = active_length x1;
  sim_edge : active_edge x2 = relocate <$> active_edge x1;
  sim_node : active_node x2 = relocate <$> active_node x1;
  sim_marker : global_end_marker x2 = global_end_marker x1;
  sim_ids : suffix_ids x2 = suffix_ids x1
}.

(** [m1] in the empty process and [m2] in the other end alike: both
    return, with results related by [R], or both raise the same exception;
    and the stores they leave differ by the shift again. *)
Definition rel {A} (R : A → A → Prop) (m1 m2 : M A) : Prop :=
  ∀ w1 w2, sim (st w1) (st w2) →
    match m1 w1, m2 w2 with
    | (Ok a1, w1'), (Ok a2, w2') => R a1 a2 ∧ sim (st w1') (st w2')
    | (Raise e1, w1'), (Raise e2, w2') => e1 = e2 ∧ sim (st w1') (st w2')
    | _, _ => False
    end.

Definition shifted (a1 a2 : addr) : Prop := a2 = relocate a1.
Definition shifted_ref (r1 r2 : option addr) : Prop := r2 = relocate <$> r1.
Definition shifted_node (n1 n2 : TrieNode) : Prop := n2 = relocate_node n1.

Definition shifted_step (r1 r2 : option (option addr)) : Prop :=
  r2 = option_map (option_map relocate) r1.

End Shift.

(** An operation that leaves [suffix_ids] as it found it. *)
Definition keeps_ids {A} (m : M A) : Prop :=
  ∀ w, suffix_ids (st (m w).2) = suffix_ids (st w).

(** ** The tree an arena holds

    What [retrieve_suffix_ids] walks: below a reference there is nothing
    ([None]), a leaf with its suffix id, or an inner node with one subtree
    per slot of its child table. *)

#[local] Set Warnings "-register-all".

Inductive tree : Set :=
| Empty
| Leaf (id : Z)
| Node (slots : list tree).

Fixpoint leaves (t : tree) : list Z :=
  match t with
  | Empty => []
  | Leaf id => [id]
  | Node ts => concat (map leaves ts)
  end.

(** The frames a walk of the tree stacks up. *)
Fixpoint height (t : tree) : nat :=
  match t with
  | Empty => 0
  | Leaf _ => 1
  | Node ts => S (max_list (map height ts))
  end.

Inductive repr (h : list TrieNode) : option addr → tree → Prop :=
| repr_empty : repr h None Empty
| repr_leaf a n :
    h !! a = Some n → is_terminal n = true → repr h (Some a) (Leaf (node_id n))
| repr_node a n ts :
    h !! a = Some n → is_terminal n = false →
    Forall2 (repr h) (children n) ts →
    repr h (Some a) (Node ts).

(** Two arenas that differ in suffix links at most. *)
Definition unlinked (n : TrieNode) : TrieNode := set_suffix_link None n.

Definition same_but_links (h h' : list TrieNode) : Prop :=
  unlinked <$> h = unlinked <$> h'.

(** No two symbols of the text share a slot of the child table. *)
Definition slots_distinct (s : list Z) : Prop :=
  ∀ c c' k, c ∈ s → c' ∈ s →
    py_norm 91 (ord c - 36) = Some k → py_norm 91 (ord c' - 36) = Some k →
    c = c'.

(** The suffix that starts at [id] begins with a symbol of slot [k]. *)
Definition slot_of (s : list Z) (id : Z) (k : nat) : Prop :=
  ∃ c, s !! Z.to_nat id = Some c ∧ py_norm 91 (ord c - 36) = Some k.

(** The arena after Rule 2.1 hung [leaf] into slot [k] of the root. *)
Definition leaf_arena (h : list TrieNode) (r : addr) (rn : TrieNode)
    (k : nat) (leaf : TrieNode) : list TrieNode :=
  <[r := set_children (<[k := Some (length h)]> (children rn)) rn]>
    (h ++ [leaf]).

(** The arena after Rule 2.2 put [inode] into slot [k] of the root, above
    the former child [ae] (slot [k1]) and the new [leaf] (slot [k2]);
    suffix links apart. *)
Definition split_arena (h : list TrieNode) (r : addr) (rn : TrieNode)
    (k : nat) (ae : addr) (aen : TrieNode) (start : option Z)
    (inode : TrieNode) (k1 k2 : nat) (leaf : TrieNode) : list TrieNode :=
  let m := length h in
  <[m := set_children
           (<[k2 := Some (S m)]> (<[k1 := Some ae]> (children inode))) inode]>
    (<[ae := set_start_idx start aen]>
       (<[r := set_children (<[k := Some m]> (children rn)) rn]>
          (h ++ [inode])) ++ [leaf]).

(** What the tree below the root is after [j] extensions: every suffix
    start below [j] at most once, and all of them when no two symbols
    share a slot; each in the slot of its first symbol. *)
Record shape (s : list Z) (j : Z) (r : addr) (h : list TrieNode) : Prop := {
  sh_root : unreferenced h r;
  sh_size : Z.of_nat (length h) ≤ 1 + 2 * j;
  sh_tree : ∃ ts,
    repr h (Some r) (Node ts) ∧
    leaves (Node ts) ⊆+ seqZ 0 j ∧
    (slots_distinct s → leaves (Node ts) ≡ₚ seqZ 0 j) ∧
    (height (Node ts) ≤ Z.to_nat j + 1)%nat ∧
    (∀ k t id, ts !! k = Some t → id ∈ leaves t → slot_of s id k);
  sh_edges : ∀ rn k c cn,
    h !! r = Some rn → children rn !! k = Some (Some c) →
    h !! c = Some cn → is_terminal cn = false →
    ∃ z e, start_idx cn = Some z ∧ end_idx cn = Some e ∧ 0 ≤ e - z ∧
      (slots_distinct s → 1 ≤ e - z)
}.

(** What an exception of the constructor says of the text: a subscript
    fails only on a symbol the child table cannot take, and the recursion
    limit is reached, when no two symbols share a slot, only by a text
    about as long as the limit. *)
Definition blame (s : list Z) (e : exception) (w : world) : Prop :=
  (Forall encodable s → e = RecursionError) ∧
  (e = RecursionError → slots_distinct s → (traverse_depth ≤ length s)%nat).

(** The phase's last symbol occurred before. *)
Definition repeated (s : list Z) (i : Z) : Prop :=
  ∃ p, 0 ≤ p < i - 1 ∧ s !! Z.to_nat p = s !! Z.to_nat (i - 1).

(** Phase [i] ended with every suffix up to [i] inserted, which takes a
    last symbol not seen before when no two symbols share a slot, or it
    stopped early at a symbol seen before. *)
Definition caught_up (s : list Z) (i j : Z) : Prop :=
  i ≤ 0 ∨ (j = i ∧ (slots_distinct s → ¬ repeated s i)) ∨
  (j < i ∧ repeated s i).

(** * Proofs *)

(** The fuel [phase] gives the loop is enough: more of it changes
    nothing. *)
Lemma extensions_enough_fuel fuel fuel' i j last w :
  (Z.to_nat (i - j) ≤ fuel)%nat → (Z.to_nat (i - j) ≤ fuel')%nat →
  extensions fuel i j last w = extensions fuel' i j last w.
Proof.
  revert fuel' j last w.
  induction fuel as [|fuel IH]; intros fuel' j last w Hf Hf'.
  - destruct fuel' as [|fuel']; [done|]. simpl.
    destruct (Z.ltb_spec j i); [lia|done].
  - simpl. destruct (Z.ltb_spec j i) as [Hlt|Hge].
    + destruct fuel' as [|fuel']; [lia|]. simpl.
      destruct (Z.ltb_spec j i); [|lia].
      unfold mbind, M_bind.
      destruct (extension i j last w) as [[[l|]|e] w']; [|done|done].
      apply IH; lia.
    + destruct fuel' as [|fuel']; [done|]. simpl.
      destruct (Z.ltb_spec j i); [lia|done].
Qed.

(** ** Rules of the weakest precondition *)

Lemma wp_ret {A} (a : A) Q E w : Q a w → wp (mret a) Q E w.
Proof. done. Qed.

Lemma wp_bind {A B} (m : M A) (k : A → M B) Q E w :
  wp m (λ a w', wp (k a) Q E w') E w → wp (m ≫= k) Q E w.
Proof.
  unfold wp, mbind, M_bind. by destruct (m w) as [[a|e] w'].
Qed.

Lemma wp_mono {A} (m : M A) (Q Q' : A → world → Prop)
    (E E' : exception → world → Prop) w :
  wp m Q E w → (∀ a w', Q a w' → Q' a w') → (∀ e w', E e w' → E' e w') →
  wp m Q' E' w.
Proof.
  unfold wp. destruct (m w) as [[a|e] w']; auto.
Qed.

Lemma wp_run {A} (m : M A) Q E w :
  wp m Q E w →
  match (m w).1 with Ok a => Q a (m w).2 | Raise e => E e (m w).2 end.
Proof. unfold wp. by destruct (m w) as [[a|e] w']. Qed.

Lemma wp_raise {A} e (Q : A → world → Prop) (E : exception → world → Prop) w :
  E e w → wp (raise e) Q E w.
Proof. done. Qed.

Lemma wp_lift {A} (r : result A) (Q : A → world → Prop)
    (E : exception → world → Prop) w :
  (∀ a, r = Ok a → Q a w) → (∀ e, r = Raise e → E e w) →
  wp (lift r) Q E w.
Proof. unfold wp, lift. destruct r; auto. Qed.

Lemma wp_gets {A} (f : store → A) (Q : A → world → Prop) E w :
  Q (f (st w)) w → wp (gets f) Q E w.
Proof. done. Qed.

Lemma wp_modify f (Q : unit → world → Prop) E w :
  Q tt {| st := f (st w); history := history w |} → wp (modify f) Q E w.
Proof. done. Qed.

Lemma wp_record p (Q : unit → world → Prop) E w :
  Q tt {| st := st w; history := (p, st w) :: history w |} →
  wp (record p) Q E w.
Proof. done. Qed.

Lemma wp_deref r (Q : TrieNode → world → Prop) E w :
  (∀ a n, r = Some a → arena (st w) !! a = Some n → Q n w) →
  (r = None → E AttributeError w) →
  (∀ a, r = Some a → arena (st w) !! a = None → E DanglingReference w) →
  wp (deref r) Q E w.
Proof.
  intros HQ HN HD. unfold wp, deref. destruct r as [a|]; [|by apply HN].
  destruct (arena (st w) !! a) eqn:Ha; eauto.
Qed.

(** Attribute access on a node that is there. *)
Lemma wp_deref_at a n (Q : TrieNode → world → Prop) E w :
  arena (st w) !! a = Some n → Q n w → wp (deref (Some a)) Q E w.
Proof. intros Ha HQ. unfold wp, deref. by rewrite Ha. Qed.

Lemma wp_update_node a f (Q : unit → world → Prop) E w :
  (∀ n, arena (st w) !! a = Some n →
        Q tt (push_arena (<[a := f n]> (arena (st w))) w)) →
  (arena (st w) !! a = None → E DanglingReference w) →
  wp (update_node a f) Q E w.
Proof.
  intros HQ HE. unfold update_node. apply wp_bind, wp_deref; [|done|].
  - intros a' n [= <-] Hn. apply wp_bind, wp_modify, wp_record. by apply HQ.
  - intros a' [= <-]. done.
Qed.

Lemma wp_TrieNode_new id s e t (Q : addr → world → Prop) E w :
  Q (length (arena (st w)))
    (push_arena (arena (st w) ++ [TrieNode_init id s e t]) w) →
  wp (TrieNode_new id s e t) Q E w.
Proof. done. Qed.

Lemma py_getitem_raises {A} (l : list A) k e :
  py_getitem l k = Raise e → e = IndexError.
Proof.
  unfold py_getitem. destruct (py_norm _ _); [|congruence].
  destruct (l !! _); congruence.
Qed.

Lemma wp_get_child_at a n pos (Q : option addr → world → Prop) E w :
  arena (st w) !! a = Some n →
  (∀ k c, py_norm (length (children n)) pos = Some k →
     children n !! k = Some c → Q c w) →
  E IndexError w →
  wp (get_child_at (Some a) pos) Q E w.
Proof.
  intros Hn HQ HE. unfold get_child_at.
  apply wp_bind, (wp_deref_at a n); [done|].
  apply wp_lift.
  - unfold py_getitem. intros c.
    destruct (py_norm _ _) as [k|] eqn:Hk; [|done].
    destruct (children n !! k) eqn:Hc; [|done]. intros [= <-]. eauto.
  - by intros e ->%py_getitem_raises.
Qed.

Lemma wp_add_child a n pos c (Q : unit → world → Prop) E w :
  arena (st w) !! a = Some n →
  (∀ k, py_norm (length (children n)) pos = Some k →
     Q tt (push_arena
             (<[a := set_children (<[k := c]> (children n)) n]> (arena (st w)))
             w)) →
  E IndexError w →
  wp (add_child (Some a) pos c) Q E w.
Proof.
  intros Hn HQ HE. unfold add_child.
  apply wp_bind, (wp_deref_at a n); [done|].
  apply wp_bind, wp_lift.
  - unfold py_setitem. intros cs.
    destruct (py_norm _ _) as [k|] eqn:Hk; [|done]. intros [= <-].
    apply wp_update_node; [|congruence].
    intros n' Hn'. assert (n' = n) as -> by congruence. by apply HQ.
  - unfold py_setitem. intros e. destruct (py_norm _ _); [done|].
    by intros [= <-].
Qed.

(** ** Invariants of the arena *)

Section Invariant.

Variable s : list Z.

Lemma first_slot_lt h c k : first_slot s h c k → (c < length h)%nat.
Proof. intros (cn & ? & ? & Hc & _). by eapply lookup_lt_Some. Qed.

Lemma first_slot_app h c k node :
  first_slot s h c k → first_slot s (h ++ [node]) c k.
Proof.
  intros (cn & z & ch & Hc & ?). exists cn, z, ch.
  split; [|done]. by apply lookup_app_l_Some.
Qed.

Lemma first_slot_insert h c k a n n' :
  h !! a = Some n → start_idx n' = start_idx n →
  first_slot s h c k → first_slot s (<[a := n']> h) c k.
Proof.
  intros Ha Hs (cn & z & ch & Hc & Hz & ?).
  destruct (decide (a = c)) as [->|Hne].
  - exists n', z, ch. split; [|split; [congruence|done]].
    rewrite list_lookup_insert_eq; [done|by eapply lookup_lt_Some].
  - exists cn, z, ch. by rewrite list_lookup_insert_ne.
Qed.

Lemma lookup_snoc_Some {A} (l : list A) (x y : A) (i : nat) :
  (l ++ [x]) !! i = Some y →
  l !! i = Some y ∨ (i = length l ∧ y = x).
Proof.
  intros H. apply lookup_app_Some in H as [H|[Hi H]]; [by left|right].
  destruct (i - length l)%nat as [|m] eqn:Hm; simpl in H; [|done].
  split; [lia|congruence].
Qed.

Lemma lookup_replicate_None {A} (n i : nat) (x : A) :
  replicate n (@None A) !! i ≠ Some (Some x).
Proof. intros [? _]%lookup_replicate. done. Qed.

Lemma unreferenced_fresh r h : arena_ok s r h → unreferenced h (length h).
Proof.
  intros Hok a n k Ha Hk.
  pose proof (first_slot_lt _ _ _ (slot_ok _ _ _ Hok _ _ _ _ Ha Hk)). lia.
Qed.

Lemma unreferenced_alloc h c node :
  children node = replicate 91 None →
  unreferenced h c → unreferenced (h ++ [node]) c.
Proof.
  intros Hnode Hun a n k Ha Hk.
  apply lookup_snoc_Some in Ha as [Ha|[_ ->]]; [by eapply Hun|].
  rewrite Hnode in Hk. by eapply lookup_replicate_None.
Qed.

Lemma unreferenced_update h c a n n' :
  h !! a = Some n → children n' = children n →
  unreferenced h c → unreferenced (<[a := n']> h) c.
Proof.
  intros Ha Hch Hun a' m k Ha' Hk.
  apply list_lookup_insert_Some in Ha' as [(-> & <- & _)|[_ Ha']].
  - rewrite Hch in Hk. by eapply Hun.
  - by eapply Hun.
Qed.

Lemma unreferenced_set_child h c a n k c' :
  h !! a = Some n → c' ≠ Some c →
  unreferenced h c →
  unreferenced (<[a := set_children (<[k := c']> (children n)) n]> h) c.
Proof.
  intros Ha Hne Hun a' m k' Ha' Hk.
  apply list_lookup_insert_Some in Ha' as [(-> & <- & _)|[_ Ha']].
  - simpl in Hk.
    apply list_lookup_insert_Some in Hk as [(_ & ? & _)|[_ Hk]]; [done|].
    by eapply Hun.
  - by eapply Hun.
Qed.

Lemma unreferenced_overwritten r h c a n k c' :
  arena_ok s r h → h !! a = Some n → children n !! k = Some (Some c) →
  c' ≠ Some c →
  unreferenced (<[a := set_children (<[k := c']> (children n)) n]> h) c.
Proof.
  intros Hok Ha Hk Hne a' m k' Ha' Hk'.
  apply list_lookup_insert_Some in Ha' as [(-> & <- & _)|[Hne' Ha']].
  - simpl in Hk'.
    apply list_lookup_insert_Some in Hk' as [(_ & ? & _)|[Hkk Hk']]; [done|].
    destruct (parent_ok _ _ _ Hok _ _ _ _ _ _ _ Ha Ha Hk Hk'). done.
  - destruct (parent_ok _ _ _ Hok _ _ _ _ _ _ _ Ha Ha' Hk Hk'). done.
Qed.

Lemma arena_ok_alloc r h node :
  arena_ok s r h →
  children node = replicate 91 None →
  (is_terminal node = true → 0 ≤ node_id node < Z.of_nat (length s)) →
  (is_Some (start_idx node) → is_Some (end_idx node)) →
  arena_ok s r (h ++ [node]).
Proof.
  intros Hok Hch Hid Hend. split.
  - destruct (root_ok _ _ _ Hok) as (rn & Hr & ?). exists rn.
    split; [|done]. by apply lookup_app_l_Some.
  - intros a n [Ha|[_ ->]]%lookup_snoc_Some; [by eapply width_ok|].
    rewrite Hch. by rewrite length_replicate.
  - intros a n k c [Ha|[_ ->]]%lookup_snoc_Some Hk.
    + apply first_slot_app. by eapply slot_ok.
    + rewrite Hch in Hk. by apply lookup_replicate_None in Hk.
  - intros a a' n n' k k' c Ha Ha' Hk Hk'.
    apply lookup_snoc_Some in Ha as [Ha|[_ ->]];
      [|rewrite Hch in Hk; by apply lookup_replicate_None in Hk].
    apply lookup_snoc_Some in Ha' as [Ha'|[_ ->]];
      [|rewrite Hch in Hk'; by apply lookup_replicate_None in Hk'].
    by eapply parent_ok.
  - intros a n [Ha|[_ ->]]%lookup_snoc_Some; [by eapply leaf_ok|done].
  - intros a n [Ha|[_ ->]]%lookup_snoc_Some; [by eapply end_ok|done].
Qed.

(** A write to a node that keeps its child table. *)
Lemma arena_ok_update r h a n n' :
  arena_ok s r h → h !! a = Some n →
  children n' = children n →
  is_terminal n' = is_terminal n →
  node_id n' = node_id n →
  end_idx n' = end_idx n →
  (is_Some (start_idx n') → is_Some (start_idx n)) →
  (start_idx n' = start_idx n ∨ unreferenced h a) →
  (suffix_link n' = suffix_link n ∨ a ≠ r) →
  arena_ok s r (<[a := n']> h).
Proof.
  intros Hok Ha Hch Ht Hid Hen Hsome Hst Hsl. split.
  - destruct (root_ok _ _ _ Hok) as (rn & Hr & Hrt & Hrl).
    destruct (decide (a = r)) as [->|Hne].
    + exists n'. assert (rn = n) as -> by congruence.
      split; [|split; [congruence|]].
      * rewrite list_lookup_insert_eq; [done|by eapply lookup_lt_Some].
      * destruct Hsl; congruence.
    + exists rn. by rewrite list_lookup_insert_ne.
  - intros a' m [(-> & <- & _)|[_ Ha']]%list_lookup_insert_Some.
    + rewrite Hch. by eapply width_ok.
    + by eapply width_ok.
  - intros a' m k c Ha' Hk.
    assert (∃ m', h !! a' = Some m' ∧ children m' !! k = Some (Some c))
      as (m' & Hm' & Hk').
    { apply list_lookup_insert_Some in Ha' as [(-> & <- & _)|[_ Ha']].
      - exists n. by rewrite <- Hch.
      - by exists m. }
    pose proof (slot_ok _ _ _ Hok _ _ _ _ Hm' Hk') as Hfs.
    destruct Hst as [Hst|Hun]; [by eapply first_slot_insert|].
    destruct (decide (a = c)) as [->|Hne]; [by destruct (Hun _ _ _ Hm' Hk')|].
    destruct Hfs as (cn & z & ch & Hc & ?). exists cn, z, ch.
    by rewrite list_lookup_insert_ne.
  - intros a1 a2 n1 n2 k1 k2 c Ha1 Ha2 Hk1 Hk2.
    assert (∃ m, h !! a1 = Some m ∧ children m !! k1 = Some (Some c))
      as (m1 & Hm1 & Hc1).
    { apply list_lookup_insert_Some in Ha1 as [(-> & <- & _)|[_ Ha1]].
      - exists n. by rewrite <- Hch.
      - by exists n1. }
    assert (∃ m, h !! a2 = Some m ∧ children m !! k2 = Some (Some c))
      as (m2 & Hm2 & Hc2).
    { apply list_lookup_insert_Some in Ha2 as [(-> & <- & _)|[_ Ha2]].
      - exists n. by rewrite <- Hch.
      - by exists n2. }
    by eapply parent_ok.
  - intros a' m [(-> & <- & _)|[_ Ha']]%list_lookup_insert_Some Hm.
    + rewrite Hid. eapply leaf_ok; [done..|congruence].
    + by eapply leaf_ok.
  - intros a' m [(-> & <- & _)|[_ Ha']]%list_lookup_insert_Some Hm.
    + rewrite Hen. eapply end_ok; [done..|by apply Hsome].
    + by eapply end_ok.
Qed.

(** [add_child]: the new child is referenced from nowhere else and its
    edge starts with a symbol of the slot. *)
Lemma arena_ok_set_child r h a n k c :
  arena_ok s r h → h !! a = Some n →
  unreferenced h c → first_slot s h c k →
  arena_ok s r (<[a := set_children (<[k := Some c]> (children n)) n]> h).
Proof.
  intros Hok Ha Hun Hfs.
  set (n' := set_children (<[k := Some c]> (children n)) n).
  assert (a < length h)%nat as Hlt by by eapply lookup_lt_Some.
  split.
  - destruct (root_ok _ _ _ Hok) as (rn & Hr & Hrt & Hrl).
    destruct (decide (a = r)) as [->|Hne].
    + exists n'. assert (rn = n) as -> by congruence.
      by rewrite list_lookup_insert_eq.
    + exists rn. by rewrite list_lookup_insert_ne.
  - intros a' m [(-> & <- & _)|[_ Ha']]%list_lookup_insert_Some.
    + simpl. rewrite length_insert. by eapply width_ok.
    + by eapply width_ok.
  - intros a' m k' c' Ha' Hk'.
    eapply (first_slot_insert _ _ _ a n n'); [done|done|].
    apply list_lookup_insert_Some in Ha' as [(-> & <- & _)|[_ Ha']].
    + simpl in Hk'.
      apply list_lookup_insert_Some in Hk' as [(-> & [= <-] & _)|[_ Hk']];
        [done|by eapply slot_ok].
    + by eapply slot_ok.
  - intros a1 a2 n1 n2 k1 k2 c' Ha1 Ha2 Hk1 Hk2.
    apply list_lookup_insert_Some in Ha1 as [(-> & <- & _)|[Hne1 Ha1]];
      apply list_lookup_insert_Some in Ha2 as [(-> & <- & _)|[Hne2 Ha2]];
      simpl in *.
    + split; [done|].
      apply list_lookup_insert_Some in Hk1 as [(? & ? & _)|[Hkk1 Hk1]];
        apply list_lookup_insert_Some in Hk2 as [(? & ? & _)|[Hkk2 Hk2]];
        simplify_eq; try done.
      * by destruct (Hun _ _ _ Ha Hk2).
      * by destruct (Hun _ _ _ Ha Hk1).
      * by destruct (parent_ok _ _ _ Hok _ _ _ _ _ _ _ Ha Ha Hk1 Hk2).
    + apply list_lookup_insert_Some in Hk1 as [(-> & [= <-] & _)|[Hkk1 Hk1]].
      * by destruct (Hun _ _ _ Ha2 Hk2).
      * by eapply parent_ok.
    + apply list_lookup_insert_Some in Hk2 as [(-> & [= <-] & _)|[Hkk2 Hk2]].
      * by destruct (Hun _ _ _ Ha1 Hk1).
      * by eapply parent_ok.
    + by eapply parent_ok.
  - intros a' m [(-> & <- & _)|[_ Ha']]%list_lookup_insert_Some Hm.
    + simpl. by eapply leaf_ok.
    + by eapply leaf_ok.
  - intros a' m [(-> & <- & _)|[_ Ha']]%list_lookup_insert_Some Hm.
    + simpl in *. by eapply end_ok.
    + by eapply end_ok.
Qed.

End Invariant.

Lemma starts_below_alloc s j r h node :
  arena_ok s r h → starts_below j r h → starts_below j r (h ++ [node]).
Proof.
  intros Hok Hsb rn k c Hr Hk.
  destruct (root_ok _ _ _ Hok) as (rn' & Hr' & _).
  rewrite (lookup_app_l_Some _ _ _ _ Hr') in Hr. injection Hr as <-.
  destruct (Hsb _ _ _ Hr' Hk) as (cn & z & Hc & ?).
  exists cn, z. split; [|done]. by apply lookup_app_l_Some.
Qed.

Lemma starts_below_mono j j' r h :
  j ≤ j' → starts_below j r h → starts_below j' r h.
Proof.
  intros Hle Hsb rn k c Hr Hk.
  destruct (Hsb _ _ _ Hr Hk) as (cn & z & ? & ? & ?).
  exists cn, z. split; [done|]. split; [done|lia].
Qed.

(** A write to node [a]: an edge start changes only on a node nobody
    refers to, and what the root gains as a child starts below [j]. *)
Lemma starts_below_insert j r h a n n' :
  h !! a = Some n → starts_below j r h →
  (start_idx n' = start_idx n ∨ unreferenced h a) →
  (a = r → ∀ k c, children n' !! k = Some (Some c) →
     (∃ k', children n !! k' = Some (Some c)) ∨
     (∃ cn z, h !! c = Some cn ∧ c ≠ a ∧ start_idx cn = Some z ∧ 0 ≤ z < j)) →
  starts_below j r (<[a := n']> h).
Proof.
  intros Ha Hsb Hst Hroot rn k c Hr Hk.
  assert (a < length h)%nat as Hlt by by eapply lookup_lt_Some.
  assert (∀ cn z, h !! c = Some cn → start_idx cn = Some z → 0 ≤ z < j →
            (∃ rn' k', h !! r = Some rn' ∧ children rn' !! k' = Some (Some c))
            ∨ c ≠ a →
            ∃ cn' z', <[a := n']> h !! c = Some cn' ∧ start_idx cn' = Some z' ∧
              0 ≤ z' < j) as Hkeep.
  { intros cn z Hc Hz Hb Hwhy. destruct (decide (c = a)) as [->|Hne].
    - exists n', z. rewrite list_lookup_insert_eq by done.
      split; [done|]. split; [|done].
      assert (cn = n) as -> by congruence.
      destruct Hst as [->|Hun]; [done|].
      destruct Hwhy as [(rn' & k' & Hr' & Hk')|?]; [|done].
      by destruct (Hun _ _ _ Hr' Hk').
    - exists cn, z. by rewrite list_lookup_insert_ne. }
  destruct (decide (a = r)) as [->|Hne].
  - rewrite list_lookup_insert_eq in Hr by done. injection Hr as <-.
    destruct (Hroot eq_refl _ _ Hk) as [[k' Hk']|(cn & z & Hc & ? & ? & ?)].
    + destruct (Hsb _ _ _ Ha Hk') as (cn & z & Hc & ? & ?).
      eapply Hkeep; eauto 6.
    + eapply Hkeep; eauto.
  - rewrite list_lookup_insert_ne in Hr by done.
    destruct (Hsb _ _ _ Hr Hk) as (cn & z & Hc & ? & ?).
    eapply Hkeep; eauto 6.
Qed.

Lemma edge_start_app h c z node :
  edge_start h c z → edge_start (h ++ [node]) c z.
Proof.
  intros (cn & Hc & ?). exists cn. split; [|done]. by apply lookup_app_l_Some.
Qed.

Lemma edge_start_insert h c z a n n' :
  h !! a = Some n → start_idx n' = start_idx n →
  edge_start h c z → edge_start (<[a := n']> h) c z.
Proof.
  intros Ha Hs (cn & Hc & Hz). destruct (decide (a = c)) as [->|Hne].
  - exists n'. split; [|congruence].
    rewrite list_lookup_insert_eq; [done|by eapply lookup_lt_Some].
  - exists cn. by rewrite list_lookup_insert_ne.
Qed.

Lemma edge_start_fun h c z z' :
  edge_start h c z → edge_start h c z' → z = z'.
Proof. intros (cn & Hc & Hz) (cn' & Hc' & Hz'). congruence. Qed.

Lemma edge_start_lookup h c z n :
  edge_start h c z → h !! c = Some n → start_idx n = Some z.
Proof. intros (cn & Hc & Hz) Hn. congruence. Qed.

Lemma first_slot_edge s h c k :
  first_slot s h c k ↔
  ∃ z ch, edge_start h c z ∧ py_getitem s z = Ok ch ∧
    py_norm 91 (ord ch - 36) = Some k.
Proof.
  split.
  - intros (cn & z & ch & ? & ? & ?). exists z, ch. split; [by exists cn|done].
  - intros (z & ch & (cn & ? & ?) & ?). by exists cn, z, ch.
Qed.

Lemma starts_below_edge j r h rn k c :
  starts_below j r h → h !! r = Some rn → children rn !! k = Some (Some c) →
  ∃ z, edge_start h c z ∧ 0 ≤ z < j.
Proof.
  intros Hsb Hr Hk. destruct (Hsb _ _ _ Hr Hk) as (cn & z & ? & ? & ?).
  exists z. split; [by exists cn|done].
Qed.

Lemma good_alloc s j r h node :
  good s j r h →
  children node = replicate 91 None →
  (is_terminal node = true → 0 ≤ node_id node < Z.of_nat (length s)) →
  (is_Some (start_idx node) → is_Some (end_idx node)) →
  good s j r (h ++ [node]).
Proof.
  intros [Hok Hsb] ? ? ?. split; [by apply arena_ok_alloc|].
  by eapply starts_below_alloc.
Qed.

Lemma good_update s j r h a n n' :
  good s j r h → h !! a = Some n →
  children n' = children n →
  is_terminal n' = is_terminal n →
  node_id n' = node_id n →
  end_idx n' = end_idx n →
  (is_Some (start_idx n') → is_Some (start_idx n)) →
  (start_idx n' = start_idx n ∨ unreferenced h a) →
  (suffix_link n' = suffix_link n ∨ a ≠ r) →
  good s j r (<[a := n']> h).
Proof.
  intros [Hok Hsb] Ha Hch ? ? ? ? Hst ?. split; [by eapply arena_ok_update|].
  eapply starts_below_insert; [done..|].
  intros _ k c Hk. left. exists k. by rewrite <- Hch.
Qed.

Lemma good_set_child s j r h a n k c :
  good s j r h → h !! a = Some n →
  unreferenced h c → first_slot s h c k →
  (a = r → ∃ z, edge_start h c z ∧ 0 ≤ z < j ∧ c ≠ r) →
  good s j r (<[a := set_children (<[k := Some c]> (children n)) n]> h).
Proof.
  intros [Hok Hsb] Ha Hun Hfs Hroot. split; [by apply arena_ok_set_child|].
  eapply starts_below_insert; [done|done|by left|].
  intros -> k0 c0 [(-> & [= <-] & _)|[_ Hk0]]%list_lookup_insert_Some.
  - right. destruct (Hroot eq_refl) as (z & (cn & ? & ?) & ? & ?).
    by exists cn, z.
  - left. by exists k0.
Qed.

Lemma good_mono s j j' r h : j ≤ j' → good s j r h → good s j' r h.
Proof. intros ? [? ?]. split; [done|]. by eapply starts_below_mono. Qed.

(** ** Invariants of the run *)

Lemma phase_starts_cons p x hist :
  phase_starts ((p, x) :: hist) =
  match p with
  | PhaseStart i => (i, value (global_end_marker x)) :: phase_starts hist
  | _ => phase_starts hist
  end.
Proof. by destruct p. Qed.

Lemma world_ok_push s h w :
  world_ok s w → arena_ok s (root (st w)) h → world_ok s (push_arena h w).
Proof.
  intros [[] ? ? ?] Hh.
  assert (store_ok s (with_arena h (st w))) by by split.
  split; simpl; [done| |done|done].
  constructor; [done|done].
Qed.

Lemma world_ok_record s p w :
  world_ok s w → point_ok p (st w) →
  (∀ i, p ≠ PhaseStart i) →
  world_ok s {| st := st w; history := (p, st w) :: history w |}.
Proof.
  intros [? ? Hph ?] Hp Hnot. split; simpl; [done| |  |done].
  - by constructor.
  - rewrite <- Hph. unfold phase_starts. simpl.
    destruct p; [by destruct (Hnot i)|done..].
Qed.

Lemma world_ok_modify s f w :
  world_ok s w →
  input_str (f (st w)) = input_str (st w) →
  active_node (f (st w)) = active_node (st w) →
  root (f (st w)) = root (st w) →
  arena (f (st w)) = arena (st w) →
  suffix_ids (f (st w)) = suffix_ids (st w) →
  global_end_marker (f (st w)) = global_end_marker (st w) →
  world_ok s {| st := f (st w); history := history w |}.
Proof.
  intros [[] ? ? ?] H1 H2 H3 H4 H5 H6.
  split; simpl; [|done|by rewrite H6|by rewrite H6].
  split; congruence.
Qed.

(** ** Operations that leave the world alone *)

Lemma pure_ret {A} (a : A) : pure_op (mret a).
Proof. done. Qed.

Lemma pure_raise {A} e : pure_op (@raise A e).
Proof. done. Qed.

Lemma pure_lift {A} (r : result A) : pure_op (lift r).
Proof. done. Qed.

Lemma pure_gets {A} (f : store → A) : pure_op (gets f).
Proof. done. Qed.

Lemma pure_deref r : pure_op (deref r).
Proof.
  intros w. unfold deref. destruct r; [|done].
  by destruct (arena (st w) !! _).
Qed.

Lemma pure_bind {A B} (m : M A) (k : A → M B) :
  pure_op m → (∀ a, pure_op (k a)) → pure_op (m ≫= k).
Proof.
  intros Hm Hk w. unfold mbind, M_bind. specialize (Hm w).
  destruct (m w) as [[a|e] w']; simpl in *; subst; [apply Hk|done].
Qed.

Lemma pure_get_child_at r pos : pure_op (get_child_at r pos).
Proof.
  apply pure_bind; [apply pure_deref|]. intros n. apply pure_lift.
Qed.

Lemma pure_traverse_path depth node len :
  pure_op (traverse_path depth node len).
Proof.
  revert node len. induction depth as [|depth IH]; intros node len;
    [apply pure_raise|].
  simpl. apply pure_bind; [apply pure_deref|]. intros n.
  destruct (is_terminal n || (len =? 0)); [apply pure_ret|].
  apply pure_bind; [apply pure_gets|]. intros cur.
  apply pure_bind; [apply pure_gets|]. intros t.
  apply pure_bind; [apply pure_gets|]. intros e.
  apply pure_bind; [apply pure_lift|]. intros c.
  apply pure_bind; [apply pure_get_child_at|]. intros [edge|];
    [|apply pure_ret].
  apply pure_bind; [apply pure_deref|]. intros en.
  apply pure_bind; [apply pure_lift|]. intros edge_len.
  destruct (len <? edge_len); [apply pure_ret|apply IH].
Qed.

(** ** The builder keeps the invariants *)

Section Run.

Variable s : list Z.

Lemma py_getitem_lookup {A} (l : list A) (k : Z) (x : A) :
  0 ≤ k → py_getitem l k = Ok x → l !! Z.to_nat k = Some x.
Proof.
  intros Hk. unfold py_getitem, py_norm.
  destruct (Z.leb_spec 0 k); [|lia].
  destruct (Z.ltb_spec k (Z.of_nat (length l))); simpl.
  - destruct (l !! Z.to_nat k); [congruence|done].
  - destruct (Z.leb_spec (- Z.of_nat (length l)) k),
      (Z.ltb_spec k 0); simpl; try done; lia.
Qed.

Lemma fails_IndexError w : world_ok s w → fails s IndexError w.
Proof. intros Hw. split; [by left|done]. Qed.

Lemma fails_getitem {A} (l : list A) k w :
  world_ok s w → ∀ e, py_getitem l k = Raise e → fails s e w.
Proof. intros Hw e ->%py_getitem_raises. by apply fails_IndexError. Qed.

Lemma wp_update_node_at a n f (Q : unit → world → Prop) E w :
  arena (st w) !! a = Some n →
  Q tt (push_arena (<[a := f n]> (arena (st w))) w) →
  wp (update_node a f) Q E w.
Proof.
  intros Hn HQ. apply wp_update_node; [|congruence].
  intros n' Hn'. by assert (n' = n) as -> by congruence.
Qed.

Lemma wp_new_leaf_rule i j pos c k rn last w :
  loop_inv s i j last w → 0 ≤ j < i → i ≤ Z.of_nat (length s) →
  active_length (st w) = i - j →
  py_getitem s j = Ok c → pos = ord c - 36 →
  arena (st w) !! root (st w) = Some rn →
  py_norm (length (children rn)) pos = Some k →
  wp (new_leaf_rule i j pos)
     (λ _ w', loop_inv s i (j + 1) last w' ∧ active_length (st w') = i - j)
     (fails s) w.
Proof.
  intros [Hw Hsb Hm Hl] Hj Hi Hal Hc -> Hr Hk.
  pose proof (st_ok _ _ Hw) as [Htext Hact Htree Hids].
  assert (root (st w) < length (arena (st w)))%nat as Hlt
    by by eapply lookup_lt_Some.
  unfold new_leaf_rule.
  apply wp_bind, wp_gets. apply wp_bind, wp_gets.
  apply wp_bind, wp_TrieNode_new. apply wp_bind, wp_gets. simpl.
  rewrite Hact, Hal. replace (i - (i - j)) with j by lia.
  set (leaf := TrieNode_init j (Some j) _ true).
  set (h1 := arena (st w) ++ [leaf]).
  assert (arena_ok s (root (st w)) h1) as Hok1.
  { apply arena_ok_alloc; [done|done| |by eexists]. simpl. lia. }
  assert (world_ok s (push_arena h1 w)) as Hw1 by by apply world_ok_push.
  assert (h1 !! length (arena (st w)) = Some leaf) as Hleaf
    by by apply list_lookup_middle.
  assert (h1 !! root (st w) = Some rn) as Hr1 by by apply lookup_app_l_Some.
  apply (wp_add_child _ rn); [done| |by apply fails_IndexError].
  simpl. intros k' Hk'. rewrite Hk in Hk'. injection Hk' as <-.
  split; [|done]. split; simpl; [| |done|].
  - apply (world_ok_push _ _ (push_arena h1 w)); [done|]. simpl.
    apply arena_ok_set_child; [done|done| |].
    + apply unreferenced_alloc; [done|]. by eapply unreferenced_fresh.
    + exists leaf, j, c. split; [done|]. split; [done|]. split; [done|].
      by rewrite <- (width_ok _ _ _ Htree _ _ Hr).
  - eapply starts_below_insert; [done| |by left|].
    + eapply starts_below_mono; [|by eapply starts_below_alloc]. lia.
    + intros _ k0 c0 [(-> & [= <-] & _)|[_ Hk0]]%list_lookup_insert_Some.
      * right. exists leaf, j. split; [done|]. split; [lia|].
        split; [done|lia].
      * left. by exists k0.
  - intros l Hlast. destruct (Hl l Hlast) as [? ?]. split; [done|].
    rewrite length_insert. unfold h1. rewrite length_app. simpl. lia.
Qed.

Lemma wp_split_rule i j pos c k rn ae last w :
  loop_inv s i j last w → 0 ≤ j < i → i ≤ Z.of_nat (length s) →
  active_length (st w) = i - j →
  py_getitem s j = Ok c → pos = ord c - 36 →
  arena (st w) !! root (st w) = Some rn →
  py_norm (length (children rn)) pos = Some k →
  children rn !! k = Some (Some ae) →
  wp (split_rule i j pos ae last)
     (λ r w', loop_inv s i (j + 1) r w' ∧ active_length (st w') = i - j ∧
              ∀ x, py_getitem s (i - 1) = Ok x → encodable x)
     (fails s) w.
Proof.
  intros [Hw Hsb Hm Hl] Hj Hi Hal Hc -> Hr Hk Hae.
  pose proof (st_ok _ _ Hw) as [Htext Hact Htree Hids].
  set (r := root (st w)) in *. set (h := arena (st w)) in *.
  assert (r < length h)%nat as Hlt by by eapply lookup_lt_Some.
  assert (good s j r h) as Hg by done.
  destruct (starts_below_edge _ _ _ _ _ _ Hsb Hr Hae) as (z & Hz & Hzj).
  pose proof (slot_ok _ _ _ Htree _ _ _ _ Hr Hae) as Hfs.
  assert (ae < length h)%nat as Haelt by by eapply first_slot_lt.
  pose proof Hz as (aen & Haen & Hzs).
  destruct (end_ok _ _ _ Htree _ _ Haen) as [zend Hzend]; [by eexists|].
  unfold split_rule.
  apply wp_bind, wp_gets. apply wp_bind, wp_gets. fold h r. rewrite Htext, Hal.
  apply wp_bind, wp_lift; [|by apply fails_getitem]. intros x Hx.
  apply wp_bind, (wp_deref_at ae aen); [done|]. rewrite Hzs. simpl.
  apply wp_bind, wp_lift; [|done]. intros ? [= <-].
  apply wp_bind, wp_TrieNode_new. fold h.
  set (inode := TrieNode_init (ord x) (Some z) _ false).
  set (h1 := h ++ [inode]).
  apply wp_bind, wp_gets. simpl. rewrite Hact. fold r.
  assert (good s j r h1) as Hg1 by (apply good_alloc; [done..|by eexists]).
  assert (h1 !! r = Some rn) as Hr1 by by apply lookup_app_l_Some.
  assert (h1 !! length h = Some inode) as Hni1 by by apply list_lookup_middle.
  assert (length h1 = S (length h)) as Hlen1
    by (unfold h1; rewrite length_app; simpl; lia).
  assert (world_ok s (push_arena h1 w)) as Hw1
    by (apply world_ok_push; [done|apply Hg1]).
  assert (length (children rn) = 91%nat) as Hwid by by eapply width_ok.
  (* line 85 *)
  apply wp_bind, (wp_add_child r rn); [done| |by apply fails_IndexError].
  simpl. intros k' Hk'. rewrite Hk in Hk'. injection Hk' as <-.
  set (h2 := <[r := set_children (<[k := Some (length h)]> (children rn)) rn]> h1).
  assert (good s j r h2) as Hg2.
  { apply good_set_child; [done|done| | |].
    - apply unreferenced_alloc; [done|]. by eapply unreferenced_fresh.
    - apply first_slot_edge.
      apply first_slot_edge in Hfs as (z' & ch & Hz' & ? & ?).
      rewrite <- (edge_start_fun _ _ _ _ Hz Hz') in *.
      exists z, ch. split; [by exists inode|done].
    - intros _. exists z. split; [by exists inode|]. split; [done|lia]. }
  assert (unreferenced h2 ae) as Hun2.
  { eapply unreferenced_overwritten; [apply Hg1|done|done|].
    intros [= ?]. lia. }
  assert (edge_start h2 ae z) as Hz2.
  { apply edge_start_insert with rn; [done|done|]. by apply edge_start_app. }
  assert (length h2 = S (length h)) as Hlen2
    by (unfold h2; by rewrite length_insert).
  assert (world_ok s (push_arena h2 (push_arena h1 w))) as Hw2
    by (apply world_ok_push; [done|apply Hg2]).
  (* line 87 *)
  pose proof Hz2 as (aen2 & Haen2 & Hzs2).
  apply wp_bind, (wp_deref_at ae aen2); [done|]. rewrite Hzs2. simpl.
  apply wp_bind, wp_lift; [|done]. intros ? [= <-].
  apply wp_bind, (wp_update_node_at ae aen2); [done|]. simpl. fold h2.
  set (aen3 := set_start_idx (Some (z + (i - j - 1))) aen2).
  set (h3 := <[ae := aen3]> h2).
  assert (good s j r h3) as Hg3.
  { eapply good_update; [done|done|done|done|done|done| |by right|by left].
    intros _. rewrite Hzs2. by eexists. }
  assert (unreferenced h3 ae) as Hun3 by by eapply unreferenced_update.
  assert (h3 !! ae = Some aen3) as Hae3.
  { apply list_lookup_insert_eq. by eapply lookup_lt_Some. }
  assert (length h3 = S (length h)) as Hlen3
    by (unfold h3; by rewrite length_insert).
  assert (world_ok s (push_arena h3 (push_arena h2 (push_arena h1 w)))) as Hw3
    by (apply world_ok_push; [done|apply Hg3]).
  (* line 88 *)
  apply wp_bind, (wp_deref_at ae aen3); [done|]. simpl.
  apply wp_bind, wp_lift; [|done]. intros ? [= <-].
  apply wp_bind, wp_lift; [|by apply fails_getitem]. intros c1 Hc1.
  assert (∃ nin, h3 !! length h = Some nin) as [nin Hnin]
    by (apply lookup_lt_is_Some; lia).
  apply wp_bind, (wp_add_child (length h) nin);
    [done| |by apply fails_IndexError].
  simpl. intros k1 Hk1.
  rewrite (width_ok _ _ _ (proj1 Hg3) _ _ Hnin) in Hk1.
  set (h4 := <[length h := set_children (<[k1 := Some ae]> (children nin)) nin]> h3).
  assert (good s j r h4) as Hg4.
  { apply good_set_child; [done|done|done| |].
    - apply first_slot_edge. exists (z + (i - j - 1)), c1.
      split; [|done]. by exists aen3.
    - intros ?. lia. }
  assert (length h4 = S (length h)) as Hlen4
    by (unfold h4; by rewrite length_insert).
  set (w4 := push_arena h4 (push_arena h3 (push_arena h2 (push_arena h1 w)))).
  assert (world_ok s w4) as Hw4 by (apply world_ok_push; [done|apply Hg4]).
  (* line 91 *)
  apply wp_bind, wp_gets. apply wp_bind, wp_TrieNode_new. simpl.
  fold h2 h3 h4. rewrite Hm.
  set (leaf := TrieNode_init j (Some (i - 1)) (Some i) true).
  set (h5 := h4 ++ [leaf]).
  assert (good s j r h5) as Hg5.
  { apply good_alloc; [done|done| |by eexists]. simpl. lia. }
  assert (h5 !! length h4 = Some leaf) as Hleaf5 by by apply list_lookup_middle.
  assert (length h5 = S (S (length h))) as Hlen5
    by (unfold h5; rewrite length_app, Hlen4; simpl; lia).
  assert (world_ok s (push_arena h5 w4)) as Hw5
    by (apply world_ok_push; [done|apply Hg5]).
  (* line 92 *)
  apply wp_bind, wp_lift; [|by apply fails_getitem]. intros x' Hx'.
  rewrite Hx in Hx'. injection Hx' as <-.
  assert (∃ nin5, h5 !! length h = Some nin5) as [nin5 Hnin5]
    by (apply lookup_lt_is_Some; lia).
  apply wp_bind, (wp_add_child (length h) nin5);
    [done| |by apply fails_IndexError].
  simpl. intros k2 Hk2.
  rewrite (width_ok _ _ _ (proj1 Hg5) _ _ Hnin5) in Hk2.
  set (h6 := <[length h := set_children (<[k2 := Some (length h4)]> (children nin5)) nin5]> h5).
  assert (good s j r h6) as Hg6.
  { apply good_set_child; [done|done| | |].
    - apply unreferenced_alloc; [done|]. eapply unreferenced_fresh, Hg4.
    - apply first_slot_edge. exists (i - 1), x. split; [by exists leaf|done].
    - intros ?. lia. }
  assert (length h6 = S (S (length h))) as Hlen6
    by (unfold h6; by rewrite length_insert).
  assert (world_ok s (push_arena h6 (push_arena h5 w4))) as Hw6
    by (apply world_ok_push; [done|apply Hg6]).
  (* line 95 *)
  apply wp_bind, wp_gets. simpl.
  assert (∃ n6, h6 !! length h = Some n6) as [n6 Hn6]
    by (apply lookup_lt_is_Some; lia).
  apply wp_bind, (wp_update_node_at (length h) n6); [done|]. simpl.
  fold h r h1 h2 h3 h4 h5 h6.
  set (h7 := <[length h := set_suffix_link (Some r) n6]> h6).
  assert (good s j r h7) as Hg7.
  { eapply good_update; [done..|by left|right; lia]. }
  assert (length h7 = S (S (length h))) as Hlen7
    by (unfold h7; by rewrite length_insert).
  set (w7 := push_arena h7 (push_arena h6 (push_arena h5 w4))).
  assert (world_ok s w7) as Hw7 by (apply world_ok_push; [done|apply Hg7]).
  assert (encodable x) as Henc by by exists k2.
  assert (∀ x0, py_getitem s (i - 1) = Ok x0 → encodable x0) as Hencx.
  { intros x0 Hx0. by assert (x0 = x) as -> by congruence. }
  (* lines 96-98 *)
  destruct last as [l|].
  - destruct (Hl l eq_refl) as [Hlr Hllt].
    assert (∃ n7, h7 !! l = Some n7) as [n7 Hn7]
      by (apply lookup_lt_is_Some; lia).
    apply wp_bind, (wp_update_node_at l n7); [done|]. simpl.
    fold h r h1 h2 h3 h4 h5 h6 h7.
    set (h8 := <[l := set_suffix_link (Some (length h)) n7]> h7).
    assert (good s j r h8) as Hg8.
    { eapply good_update; [done..|by left|by right]. }
    apply wp_ret. split; [|by split].
    split; simpl.
    + apply world_ok_push; [done|apply Hg8].
    + eapply starts_below_mono; [|apply Hg8]. lia.
    + done.
    + intros ? [= <-]. fold r. split; [lia|].
      unfold h8. rewrite length_insert, Hlen7. lia.
  - apply wp_bind, wp_ret, wp_ret. split; [|by split].
    split; simpl.
    + done.
    + eapply starts_below_mono; [|apply Hg7]. lia.
    + done.
    + intros ? [= <-]. fold r. split; [lia|]. rewrite Hlen7. lia.
Qed.

Lemma loop_inv_attrs i j last w x :
  loop_inv s i j last w →
  input_str x = input_str (st w) → root x = root (st w) →
  arena x = arena (st w) → suffix_ids x = suffix_ids (st w) →
  global_end_marker x = global_end_marker (st w) →
  active_node x = Some (root x) →
  loop_inv s i j last {| st := x; history := history w |}.
Proof.
  intros [[[] ? Hph ?] Hsb Hm Hl] H1 H2 H3 H4 H5 H6. split; simpl.
  - split; simpl; [|done|by rewrite H5|by rewrite H5].
    split; congruence.
  - by rewrite H2, H3.
  - by rewrite H5.
  - by rewrite H2, H3.
Qed.

Lemma loop_inv_record i j last p w :
  loop_inv s i j last w → point_ok p (st w) → (∀ i', p ≠ PhaseStart i') →
  loop_inv s i j last {| st := st w; history := (p, st w) :: history w |}.
Proof.
  intros [Hw Hsb Hm Hl] Hp Hnot. split; simpl; [|done..].
  by apply world_ok_record.
Qed.

Lemma wp_advance i j j' last w :
  loop_inv s i j' last w →
  wp (advance i j) (λ _ w', loop_inv s i j' last w') (fails s) w.
Proof.
  intros Hli. pose proof (li_world _ _ _ _ _ Hli) as Hw.
  pose proof (st_ok _ _ Hw) as [Htext Hact Htree Hids].
  destruct (root_ok _ _ _ Htree) as (rn & Hr & _ & Hlink).
  unfold advance. apply wp_bind, wp_gets. rewrite Hact.
  apply wp_bind, (wp_deref_at _ rn); [done|]. rewrite Hlink.
  apply wp_bind, wp_modify. apply wp_bind, wp_modify. apply wp_record.
  simpl. set (x := with_active_length _ _).
  apply (loop_inv_record i j' last _ {| st := x; history := history w |});
    [|simpl; apply Hli|done].
  by apply loop_inv_attrs.
Qed.

(** [traverse_path] changes nothing, and from a node of a sound arena it
    can only fail on a subscript or on the recursion limit. *)
Lemma wp_traverse_path depth a len (Q : option addr → world → Prop) w :
  world_ok s w → is_Some (arena (st w) !! a) → (∀ r, Q r w) →
  wp (traverse_path depth (Some a) len) Q (fails s) w.
Proof.
  intros Hw Ha HQ. revert a len Ha.
  pose proof (st_ok _ _ Hw) as [Htext Hact Htree Hids].
  destruct (root_ok _ _ _ Htree) as (rn & Hr & _).
  induction depth as [|depth IH]; intros a len [n Hn].
  { apply wp_raise. split; [by right|done]. }
  simpl. apply wp_bind, (wp_deref_at a n); [done|].
  destruct (is_terminal n || (len =? 0)); [by apply wp_ret|].
  apply wp_bind, wp_gets. rewrite Hact.
  apply wp_bind, wp_gets. apply wp_bind, wp_gets.
  apply wp_bind, wp_lift; [|by apply fails_getitem]. intros c Hc.
  apply wp_bind, (wp_get_child_at _ rn); [done| |by apply fails_IndexError].
  intros k [child|] Hk Hchild; [|by apply wp_ret].
  destruct (slot_ok _ _ _ Htree _ _ _ _ Hr Hchild)
    as (cn & z & ch & Hcn & Hz & _).
  apply wp_bind, (wp_deref_at child cn); [done|].
  destruct (end_ok _ _ _ Htree _ _ Hcn) as [zend Hzend]; [by eexists|].
  assert (∃ d, py_sub (end_index cn) (start_idx cn) = Ok d) as [d Hd].
  { unfold end_index. rewrite Hz, Hzend.
    destruct (is_terminal cn); by eexists. }
  rewrite Hd. apply wp_bind, wp_lift; [|done]. intros ? [= <-].
  destruct (len <? d); [by apply wp_ret|]. apply IH. by exists cn.
Qed.

Lemma validated_step i x :
  1 ≤ i → validated s (i - 1) → py_getitem s (i - 1) = Ok x → encodable x →
  validated s i.
Proof.
  intros Hi Hv Hx Henc p c Hp Hc.
  destruct (decide (p = i - 1)) as [->|Hne]; [|apply (Hv p); [lia|done]].
  apply py_getitem_lookup in Hx; [|lia]. congruence.
Qed.

Lemma wp_extension i j last w :
  loop_inv s i j last w → 0 ≤ j < i → i ≤ Z.of_nat (length s) →
  validated s (i - 1) →
  wp (extension i j last)
     (λ r w',
        match r with
        | Some last' => loop_inv s i (j + 1) last' w' ∧ (j = i - 1 → validated s i)
        | None => loop_inv s i j last w' ∧ validated s i
        end)
     (fails s) w.
Proof.
  intros Hli Hj Hi Hval.
  pose proof (li_world _ _ _ _ _ Hli) as Hw.
  pose proof (st_ok _ _ Hw) as [Htext Hact Htree Hids].
  unfold extension.
  apply wp_bind, wp_gets. apply wp_bind, wp_gets. rewrite Hact.
  destruct (decide _) as [_|]; [|done].
  apply wp_bind, wp_modify. apply wp_bind, wp_record. cbn [st history].
  set (x := with_active_length (i - j) (st w)).
  set (w1 := {| st := x; history := (ExtensionStart i j, x) :: history w |}).
  assert (loop_inv s i j last w1) as Hli1.
  { apply (loop_inv_record i j last _ {| st := x; history := history w |}).
    - by apply loop_inv_attrs.
    - split; [apply Hli|done].
    - done. }
  assert (active_length (st w1) = i - j) as Hal by done.
  clearbody w1. clear dependent w. rename w1 into w.
  pose proof (li_world _ _ _ _ _ Hli1) as Hw.
  pose proof (st_ok _ _ Hw) as [Htext Hact Htree Hids].
  destruct (root_ok _ _ _ Htree) as (rn & Hr & _).
  apply wp_bind, wp_gets. apply wp_bind, wp_gets. rewrite Hact.
  apply wp_bind, wp_traverse_path; [done|by eexists|]. intros _.
  apply wp_bind, wp_gets. apply wp_bind, wp_gets. rewrite Htext, Hal.
  replace (i - (i - j)) with j by lia.
  apply wp_bind, wp_lift; [|by apply fails_getitem]. intros c Hc.
  apply wp_bind, wp_gets. rewrite Hact.
  apply wp_bind, (wp_get_child_at _ rn); [done| |by apply fails_IndexError].
  intros k child Hk Hchild.
  assert (length (children rn) = 91%nat) as Hwid by by eapply width_ok.
  assert (encodable c) as Hencc by (exists k; by rewrite <- Hwid).
  assert (j = i - 1 → validated s i) as Hlastj.
  { intros ->. eapply validated_step; [lia|done|done|done]. }
  destruct child as [ae|].
  - (* the slot is taken *)
    apply wp_bind, wp_bind, wp_lift; [|by apply fails_getitem]. intros x Hx.
    destruct (starts_below_edge _ _ _ _ _ _ (li_starts _ _ _ _ _ Hli1) Hr Hchild)
      as (z & Hz & Hzj).
    pose proof Hz as (aen & Haen & Hzs).
    apply wp_bind, (wp_deref_at ae aen); [done|]. rewrite Hzs. simpl.
    apply wp_bind, wp_lift; [|done]. intros ? [= <-].
    apply wp_bind, wp_lift; [|by apply fails_getitem]. intros y Hy.
    destruct (decide (x = y)) as [<-|Hne].
    + (* Rule 3 *)
      apply wp_ret, wp_ret. split; [done|].
      eapply validated_step; [lia|done|done|].
      apply py_getitem_lookup in Hy; [|lia].
      apply (Hval (z + (i - j) - 1)); [lia|done].
    + (* Rule 2.2 *)
      apply wp_bind.
      eapply wp_mono; [by eapply wp_split_rule| |done].
      intros last' w' (Hli' & Hal' & Henc).
      apply wp_ret, wp_bind.
      eapply wp_mono; [by eapply wp_advance| |done].
      intros [] w'' Hli''. by apply wp_ret.
  - (* Rule 2.1 *)
    apply wp_bind, wp_bind.
    eapply wp_mono; [by eapply wp_new_leaf_rule| |done].
    intros [] w' (Hli' & Hal').
    apply wp_ret, wp_bind.
    eapply wp_mono; [by eapply wp_advance| |done].
    intros [] w'' Hli''. by apply wp_ret.
Qed.

Lemma loop_inv_forget i j last w : loop_inv s i j last w → loop_inv s i j None w.
Proof. intros [? ? ? ?]. by split. Qed.

Lemma wp_extensions fuel i j last w :
  loop_inv s i j last w → 0 ≤ j ≤ i → i ≤ Z.of_nat (length s) →
  validated s (i - 1) → (Z.to_nat (i - j) ≤ fuel)%nat →
  wp (extensions fuel i j last)
     (λ j' w', loop_inv s i j' None w' ∧ j ≤ j' ≤ i ∧ (j < i → validated s i))
     (fails s) w.
Proof.
  revert j last w. induction fuel as [|fuel IH]; intros j last w Hli Hj Hi Hv Hf.
  - apply wp_ret. split; [by eapply loop_inv_forget|]. split; lia.
  - simpl. destruct (Z.ltb_spec j i) as [Hlt|Hge].
    + apply wp_bind.
      eapply wp_mono; [eapply wp_extension; [done|lia|done|done]| |done].
      intros [last'|] w'.
      * intros [Hli' Hlast].
        eapply wp_mono; [eapply IH; [done|lia|done|done|lia]| |done].
        intros j' w'' (? & ? & Hv'). split; [done|]. split; [lia|].
        intros _. destruct (decide (j = i - 1)); [by apply Hlast|].
        apply Hv'. lia.
      * intros [Hli' Hv']. apply wp_ret.
        split; [by eapply loop_inv_forget|]. split; [lia|done].
    + apply wp_ret. split; [by eapply loop_inv_forget|]. split; lia.
Qed.

Lemma wp_phase i j w :
  loop_inv s (i - 1) j None w → 0 ≤ j ≤ i → (1 ≤ i → j < i) →
  i ≤ Z.of_nat (length s) → validated s (i - 1) →
  wp (phase i j)
     (λ j' w', loop_inv s i j' None w' ∧ j ≤ j' ≤ i ∧ validated s i)
     (fails s) w.
Proof.
  intros [Hw Hsb Hm _] Hj Hj1 Hi Hv.
  pose proof Hw as [Hst Hhist Hph Hmk].
  unfold phase. apply wp_bind, wp_modify. apply wp_bind, wp_record.
  cbn [st history].
  set (x := with_global_end_marker _ (st w)).
  assert (value (global_end_marker x) = i) as Hx by (simpl; lia).
  assert (store_ok s x) as Hstx by by destruct Hst.
  eapply wp_mono; [eapply (wp_extensions _ i j None)| |done].
  - split; [|done|done|done]. split; cbn [st history]; [done| | |lia].
    + by constructor.
    + rewrite phase_starts_cons, Hph, Hx, Hm.
      replace (i - 1 + 1) with i by lia.
      rewrite (seqZ_app 0 i 1) by lia.
      rewrite fmap_app, reverse_app. simpl. by rewrite Z.add_0_l.
  - done.
  - done.
  - done.
  - done.
  - intros j' w' (? & ? & Hv'). split; [done|]. split; [done|].
    destruct (decide (1 ≤ i)); [apply Hv'; lia|].
    intros p c Hp. lia.
Qed.

Lemma wp_phases n a j w :
  loop_inv s (a - 1) j None w → 0 ≤ j ≤ a → (1 ≤ a → j < a) →
  a + Z.of_nat n ≤ Z.of_nat (length s) + 1 → validated s (a - 1) →
  wp (phases (seqZ a (Z.of_nat n)) j)
     (λ j' w', loop_inv s (a + Z.of_nat n - 1) j' None w' ∧
               validated s (a + Z.of_nat n - 1))
     (fails s) w.
Proof.
  revert a j w. induction n as [|n IH]; intros a j w Hli Hj Hj1 Hn Hv.
  - simpl. apply wp_ret. by replace (a + Z.of_nat 0 - 1) with (a - 1) by lia.
  - rewrite seqZ_cons by lia. simpl.
    replace (Z.pred (Z.of_nat (S n))) with (Z.of_nat n) by lia.
    apply wp_bind.
    eapply wp_mono; [eapply wp_phase; [done|done|done|lia|done]| |done].
    intros j' w' (Hli' & Hj' & Hv').
    replace (a + Z.of_nat (S n) - 1) with (Z.succ a + Z.of_nat n - 1) by lia.
    apply IH; [|lia|lia|lia|].
    + by replace (Z.succ a - 1) with a by lia.
    + by replace (Z.succ a - 1) with a by lia.
Qed.

Lemma wp_build_suffix_tree w :
  loop_inv s (-1) 0 None w →
  wp build_suffix_tree
     (λ _ w', world_ok s w' ∧
              value (global_end_marker (st w')) = Z.of_nat (length s) ∧
              validated s (Z.of_nat (length s)))
     (fails s) w.
Proof.
  intros Hli. pose proof (li_world _ _ _ _ _ Hli) as Hw.
  unfold build_suffix_tree. apply wp_bind, wp_gets.
  rewrite (text_ok _ _ (st_ok _ _ Hw)).
  apply wp_bind.
  replace (Z.of_nat (length s) + 1) with (Z.of_nat (S (length s))) by lia.
  eapply wp_mono; [eapply (wp_phases _ 0 0); [done|lia|lia|lia|]| |done].
  - intros p c Hp. lia.
  - intros j' w' [Hli' Hv']. apply wp_ret.
    replace (0 + Z.of_nat (S (length s)) - 1) with (Z.of_nat (length s)) in * by lia.
    split; [apply Hli'|]. split; [apply Hli'|done].
Qed.

Lemma wp_for_each {A} (body : A → M unit) (I : world → Prop) E l w :
  I w → (∀ x w, x ∈ l → I w → wp (body x) (λ _ w', I w') E w) →
  wp (for_each body l) (λ _ w', I w') E w.
Proof.
  intros HI Hbody. revert w HI. induction l as [|x l IH]; intros w HI.
  - by apply wp_ret.
  - simpl. apply wp_bind. eapply wp_mono; [apply Hbody; [by left|done]| |done].
    intros [] w' HI'. apply IH; [|done].
    intros y w'' Hy. apply Hbody. by right.
Qed.

Lemma wp_retrieve_suffix_ids depth a g h w :
  kept s g h w → is_Some (h !! a) →
  wp (retrieve_suffix_ids depth (Some a)) (λ _ w', kept s g h w') (fails s) w.
Proof.
  revert a w. induction depth as [|depth IH]; intros a w (Hw & Hg & Hh) [n Hn].
  { apply wp_raise. split; [by right|done]. }
  simpl. apply wp_bind, (wp_deref_at a n); [by rewrite Hh|].
  pose proof (tree_ok _ _ (st_ok _ _ Hw)) as Htree. rewrite Hh in Htree.
  destruct (is_terminal n) eqn:Ht.
  - apply wp_modify. split; [|done].
    destruct Hw as [[Htext Hact _ Hids] ? ? ?].
    split; cbn [st history]; [|done..]. split; simpl; [done|done| |].
    + by rewrite Hh.
    + apply Forall_app. split; [done|]. constructor; [|done].
      by eapply leaf_ok.
  - apply wp_for_each; [done|].
    intros [c|] w' Hc Hkept; [|by apply wp_ret].
    apply IH; [done|].
    apply list_elem_of_lookup in Hc as [k Hk].
    apply lookup_lt_is_Some. eapply first_slot_lt, slot_ok; eauto.
Qed.

End Run.

Lemma init_world_ok input :
  loop_inv (input ++ str "$") (-1) 0 None (init_world [] input).
Proof.
  set (s := input ++ str "$").
  assert (arena_ok s 0 (arena (init_store [] input))) as Hok.
  { split; simpl.
    - eexists. split; [done|]. done.
    - intros [|a] n; [|done]. intros [= <-]. done.
    - intros [|a] n k c; [|done]. intros [= <-]. simpl.
      intros Hk. destruct (lookup_replicate_None 91%nat k c Hk).
    - intros [|a] a' n n' k k' c; [|done]. intros [= <-] _. simpl.
      intros Hk. destruct (lookup_replicate_None 91%nat k c Hk).
    - intros [|a] n; [|done]. by intros [= <-].
    - intros [|a] n; [|done]. intros [= <-] [? ?]. done. }
  assert (store_ok s (init_store [] input)) as Hst by by split.
  split; [|  |done|done].
  - split; [done| |done|done]. constructor; [done|constructor].
  - intros rn k c. simpl. intros [= <-]. simpl.
    intros Hk. destruct (lookup_replicate_None 91%nat k c Hk).
Qed.

(** Every symbol of the text is encodable once the constructor returns;
    if it raises, it raises [IndexError] or [RecursionError]; and either
    way the world it leaves satisfies [world_ok]. *)
Lemma run_ok input :
  let s := input ++ str "$" in
  wp UkkonenSuffixTree_init
     (λ _ w', world_ok s w' ∧
              value (global_end_marker (st w')) = Z.of_nat (length s) ∧
              validated s (Z.of_nat (length s)))
     (fails s) (init_world [] input).
Proof.
  intros s. unfold UkkonenSuffixTree_init. apply wp_bind.
  eapply wp_mono; [apply wp_build_suffix_tree, init_world_ok| |done].
  intros [] w' (Hw' & Hm' & Hv'). apply wp_bind, wp_gets.
  destruct (root_ok _ _ _ (tree_ok _ _ (st_ok _ _ Hw'))) as (rn & Hr & _).
  eapply wp_mono;
    [eapply (wp_retrieve_suffix_ids s _ _ _ (arena (st w'))); [done|by eexists]
    | |done].
  intros [] w'' (Hw'' & Hm'' & _). split; [done|]. split; [|done].
  by rewrite Hm''.
Qed.

(** ** From the invariants to what is claimed *)

Lemma first_slot_symbol s h c k :
  first_slot s h c k →
  ∃ ch, first_symbol s h c = Some ch ∧ py_norm 91 (ord ch - 36) = Some k.
Proof.
  intros (cn & z & ch & Hc & Hz & Hch & Hk). exists ch. split; [|done].
  unfold first_symbol. rewrite Hc. simpl. rewrite Hz. simpl. by rewrite Hch.
Qed.

Lemma store_ok_tree_invariant s x : store_ok s x → tree_invariant s x.
Proof.
  intros [_ _ Hok _]. split.
  - destruct (root_ok _ _ _ Hok) as (rn & ? & ? & _). by exists rn.
  - intros a n k c Ha Hk. eapply first_slot_symbol, slot_ok; eauto.
  - intros a n k k' c c' Ha Hk Hk' Hne Heq.
    destruct (first_slot_symbol _ _ _ _ (slot_ok _ _ _ Hok _ _ _ _ Ha Hk))
      as (ch & Hch & Hn).
    destruct (first_slot_symbol _ _ _ _ (slot_ok _ _ _ Hok _ _ _ _ Ha Hk'))
      as (ch' & Hch' & Hn').
    congruence.
Qed.

Lemma run_world_ok input :
  world_ok (input ++ str "$") (UkkonenSuffixTree [] input).2.
Proof.
  pose proof (wp_run _ _ _ _ (run_ok input)) as H. cbv zeta in H.
  unfold UkkonenSuffixTree.
  destruct (UkkonenSuffixTree_init (init_world [] input)) as [[[]|e] w];
    simpl in *; apply H.
Qed.

Lemma run_returns input :
  (UkkonenSuffixTree [] input).1 = Ok tt →
  let s := input ++ str "$" in
  value (global_end_marker (st (UkkonenSuffixTree [] input).2)) =
    Z.of_nat (length s) ∧
  validated s (Z.of_nat (length s)).
Proof.
  pose proof (wp_run _ _ _ _ (run_ok input)) as H. cbv zeta in H.
  unfold UkkonenSuffixTree.
  destruct (UkkonenSuffixTree_init (init_world [] input)) as [[[]|e] w];
    simpl in *; [|done]. intros _. apply H.
Qed.

(** The constructor raises nothing but [IndexError] and [RecursionError]:
    no attribute of [None] is read, nothing is added to [None], and the
    model never follows a reference to a node that is not there. *)
Lemma run_raises input e :
  (UkkonenSuffixTree [] input).1 = Raise e → expected e.
Proof.
  pose proof (wp_run _ _ _ _ (run_ok input)) as H. cbv zeta in H.
  unfold UkkonenSuffixTree.
  destruct (UkkonenSuffixTree_init (init_world [] input)) as [[[]|e'] w];
    simpl in *; [done|]. intros [= <-]. apply H.
Qed.

(** ** The rank mapping *)

Lemma py_dict_list_to_map items : py_dict items = list_to_map (reverse items).
Proof.
  induction items as [|kv items IH] using rev_ind; [done|].
  unfold py_dict in *. rewrite foldl_snoc, IH, reverse_snoc. by destruct kv.
Qed.

Lemma sort_dict_id (d : gmap Z Z) : sort_dict d = d.
Proof.
  unfold sort_dict. rewrite py_dict_list_to_map.
  rewrite <- (list_to_map_to_list d) at 2.
  assert (reverse (merge_sort key_le (map_to_list d)) ≡ₚ map_to_list d) as Hp.
  { rewrite reverse_Permutation. apply merge_sort_Permutation. }
  apply list_to_map_proper; [|done].
  rewrite Hp. apply NoDup_fst_map_to_list.
Qed.

Lemma fill_dict_lookup ids i (d : gmap Z Z) k v :
  fill_dict ids i d !! k = Some v → k ∈ ids ∨ d !! k = Some v.
Proof.
  revert i d. induction ids as [|x ids IH]; intros i d H; [by right|].
  simpl in H. apply IH in H as [H|H]; [left; by right|].
  apply lookup_insert_Some in H as [[-> _]|[_ H]]; [left; by left|by right].
Qed.

Lemma rank_mapping_key x k v :
  rank_mapping x !! k = Some v → k ∈ suffix_ids x.
Proof.
  unfold rank_mapping. rewrite sort_dict_id.
  intros [H|H]%fill_dict_lookup; [done|]. by rewrite lookup_empty in H.
Qed.

Lemma lookup_ranks_missing positions f num :
  num ∈ positions → sorted_dict f !! (num - 1) = None →
  ∃ f', lookup_ranks positions f = (Raise KeyError, f') ∧
        uk f' = uk f ∧ sorted_dict f' = sorted_dict f.
Proof.
  revert f. induction positions as [|p positions IH]; intros f Hin Hnone;
    [by apply elem_of_nil in Hin|].
  simpl. destruct (sorted_dict f !! (p - 1)) as [ind|] eqn:Hp.
  - apply elem_of_cons in Hin as [->|Hin]; [congruence|].
    destruct (IH {| uk := uk f; sorted_dict := sorted_dict f;
                    res := res f ++ [ind] |} Hin Hnone) as (f' & ? & ? & ?).
    by exists f'.
  - by exists f.
Qed.

(** ** Claims settled by running the program *)

(** C5: for the text "banana", with the terminator the constructor adds,
    the rank computed for the suffix that starts at position 0 is 5 and the
    rank computed for the suffix that starts at position 5 is 2; queried
    through [main] as positions 1 and 6. *)
Theorem C5_banana_ranks :
  (UkkonenSuffixTree [] (str "banana")).1 = Ok tt ∧
  rank_mapping (st (UkkonenSuffixTree [] (str "banana")).2) !! 0 = Some 5 ∧
  rank_mapping (st (UkkonenSuffixTree [] (str "banana")).2) !! 5 = Some 2 ∧
  main (str "banana") [1; 6] = Ok [5; 2].
Proof. vm_compute. by repeat split. Qed.

(** C1, evaluated: the text "mississippi" has no "$" in it, and the
    suffix ids collected from its tree are not in the order of the suffixes:
    position 5 ("ssippi$") comes before position 3 ("sissippi$"). *)
Theorem C1_mississippi_out_of_order :
(36 ∉ str "mississippi") ∧
  suffix_ids_of (str "mississippi") =
    Ok [11; 10; 7; 4; 1; 0; 9; 8; 5; 3; 2; 6] ∧
  ¬ is_suffix_array (str "mississippi" ++ str "$")
      [11; 10; 7; 4; 1; 0; 9; 8; 5; 3; 2; 6].
Proof.
  split; [|split].
  - apply (bool_decide_eq_false_1 (36 ∈ str "mississippi")). by vm_compute.
  - by vm_compute.
  - intros [_ H].
    destruct (H 8%nat 9%nat 5 3 eq_refl eq_refl) as [H1 _].
    specialize (H1 ltac:(lia)). vm_compute in H1. discriminate.
Qed.

(** A second text on which the order is wrong. *)
Example abadac_out_of_order :
  suffix_ids_of (str "abadac") = Ok [6; 0; 2; 4; 1; 5; 3] ∧
  lex_lt (drop 4 (str "abadac$")) (drop 2 (str "abadac$")) = true.
Proof. by vm_compute. Qed.

Lemma end_index_terminal n : is_terminal n = true → end_index n = Some (-1).
Proof. unfold end_index. by intros ->. Qed.

(** C2, evaluated: after the tree of "a" is built its first leaf is at
    address 1, and [end_index] gives -1 for it, the value of a fresh
    [EndMarker], while the builder's end marker stands at 2 and the node
    itself holds the end 1 it was created with. *)
Theorem C2_end_index_reads_a_fresh_marker :
  let w := (UkkonenSuffixTree [] (str "a")).2 in
  ∃ leaf,
    arena (st w) !! 1%nat = Some leaf ∧ is_terminal leaf = true ∧
    end_index leaf = Some (-1) ∧ end_idx leaf = Some 1 ∧
    value (global_end_marker (st w)) = 2.
Proof. eexists. vm_compute. by repeat split. Qed.

(** C3, evaluated at two extensions.  For "aa" in phase 2 the walk of the
    specification stays at the root (address 0) and [traverse_path] returns
    the leaf at address 1.  For "abacab" in phase 6, extension 4, the first
    edge leads to the internal node at address 3; [traverse_path] then
    starts again from the root and returns the root's child at address 2,
    which is not below that internal node, while the walk of the
    specification returns the root. *)
Theorem C3_traverse_path_leaves_the_path :
  (∃ x, snapshot_at (ExtensionStart 2 1) (UkkonenSuffixTree [] (str "aa")).2
          = Some x ∧
        at_store (traverse_path traverse_depth (active_node x)
                    (active_length x)) x = Ok (Some 1%nat) ∧
        at_store (spec_skip_count traverse_depth (active_node x)
                    (active_length x)) x = Ok (Some 0%nat)) ∧
  (∃ x rn, snapshot_at (ExtensionStart 6 4)
             (UkkonenSuffixTree [] (str "abacab")).2 = Some x ∧
        at_store (traverse_path traverse_depth (active_node x)
                    (active_length x)) x = Ok (Some 2%nat) ∧
        at_store (spec_skip_count traverse_depth (active_node x)
                    (active_length x)) x = Ok (Some 0%nat) ∧
        arena x !! 0%nat = Some rn ∧
        children rn !! 61%nat = Some (Some 3%nat) ∧
        children rn !! 62%nat = Some (Some 2%nat)).
Proof.
  split.
  - eexists. split; [by vm_compute|]. split; by vm_compute.
  - eexists. eexists. split; [by vm_compute|].
    split; [by vm_compute|]. split; [by vm_compute|].
    split; [by vm_compute|]. split; by vm_compute.
Qed.

(** ** Claims about every run *)

(** C6, as stated, fails on the text "a": in phase 1, which inserts the
    symbol at index 0, the end marker is 1; and when the run is over the
    marker is 2, the length of "a$", where the last index is 1. *)
Lemma C6_marker_is_one_past_the_last_index :
  ¬ marker_is_last_index (UkkonenSuffixTree [] (str "a")).2 ∧
  value (global_end_marker (st (UkkonenSuffixTree [] (str "a")).2)) = 2 ∧
  length (input_str (st (UkkonenSuffixTree [] (str "a")).2)) = 2%nat.
Proof.
  split; [|by vm_compute].
  intros H.
  assert (∃ x, snapshot_at (ExtensionStart 1 0)
                 (UkkonenSuffixTree [] (str "a")).2 = Some x ∧
               value (global_end_marker x) = 1) as (x & Hx & Hv)
    by (eexists; split; by vm_compute).
  apply H in Hx. lia.
Qed.

(** C6, amended: the end marker starts at -1; the phases recorded in a run
    are 0, 1, 2, ... without a gap, the marker read when the extensions of
    phase [i] are about to begin is [i], one more than at the phase before
    and one more than the index of the symbol phase [i] inserts; it is still
    [i] at the start and the end of every extension of the phase; and a run
    that returns has made the phases 0 to the length of the terminated
    text. *)
Theorem C6_marker_counts_phases input :
  let w := (UkkonenSuffixTree [] input).2 in
  value (global_end_marker (init_store [] input)) = -1 ∧
  phase_starts (history w) =
    reverse ((λ i, (i, i)) <$> seqZ 0 (value (global_end_marker (st w)) + 1)) ∧
  Forall (λ px : point * store, point_ok px.1 px.2) (history w) ∧
  match (UkkonenSuffixTree [] input).1 with
  | Ok _ => value (global_end_marker (st w)) = Z.of_nat (length input) + 1
  | Raise _ => True
  end.
Proof.
  intros w. pose proof (run_world_ok input) as [Hst Hhist Hph Hmk].
  split; [done|]. split; [done|]. split.
  - eapply Forall_impl; [exact Hhist|]. by intros px [_ ?].
  - pose proof (run_returns input) as Hret.
    destruct (UkkonenSuffixTree [] input).1 as [[]|e]; [|done].
    destruct (Hret eq_refl) as [Hv _]. fold w in Hv. rewrite Hv.
    rewrite length_app. simpl. lia.
Qed.

(** C7: in every store recorded after a write to the arena (a node
    created, a child table slot set, an edge start moved, a suffix link
    set), the root exists and is not a leaf, every child sits in the slot
    its edge's first symbol is encoded to, and two children of one node have
    edges with different first symbols. *)
Theorem C7_children_keep_their_slots input :
  Forall (λ px : point * store,
            px.1 = Mutation → tree_invariant (input ++ str "$") px.2)
    (history (UkkonenSuffixTree [] input).2).
Proof.
  pose proof (run_world_ok input) as [_ Hhist _ _].
  eapply Forall_impl; [exact Hhist|].
  intros px [Hok _] _. by apply store_ok_tree_invariant.
Qed.

(** C10: at every recorded point of a run, and when it ends, the active
    node is the root and the root's suffix link is the root; at the start of
    every extension [active_length] is [i - j]. *)
Theorem C10_active_node_is_the_root input :
  let w := (UkkonenSuffixTree [] input).2 in
  let at_root (x : store) :=
    active_node x = Some (root x) ∧
    ∃ rn, arena x !! root x = Some rn ∧ suffix_link rn = Some (root x) in
  Forall (λ px : point * store,
            at_root px.2 ∧
            match px.1 with
            | ExtensionStart i j => active_length px.2 = i - j
            | _ => True
            end)
    (history w) ∧
  at_root (st w).
Proof.
  intros w at_root. pose proof (run_world_ok input) as [Hst Hhist _ _].
  assert (∀ x, store_ok (input ++ str "$") x → at_root x) as Hroot.
  { intros x [_ Hact Htree _]. split; [done|].
    destruct (root_ok _ _ _ Htree) as (rn & ? & _ & ?). by exists rn. }
  split; [|by apply Hroot].
  eapply Forall_impl; [exact Hhist|].
  intros [p x] [Hok Hp]. split; [by apply Hroot|].
  destruct p; [done| |done|done]. apply Hp.
Qed.

(** C8: if the tree was built and a queried position, less one, is below 0,
    above the length of the text, or not a key of the rank mapping, then the
    query loop raises [KeyError], [main] raises it too, and the tree and the
    rank mapping the loop holds are the ones it started with. *)
Theorem C8_bad_position_raises_KeyError input positions num :
  (UkkonenSuffixTree [] input).1 = Ok tt →
  num ∈ positions →
  num - 1 < 0 ∨ Z.of_nat (length input) < num - 1 ∨
    rank_mapping (st (UkkonenSuffixTree [] input).2) !! (num - 1) = None →
  let w := (UkkonenSuffixTree [] input).2 in
  let f := {| uk := st w; sorted_dict := rank_mapping (st w); res := [] |} in
  main input positions = Raise KeyError ∧
  ∃ f', lookup_ranks positions f = (Raise KeyError, f') ∧
        uk f' = uk f ∧ sorted_dict f' = sorted_dict f.
Proof.
  intros Hrun Hin Hbad w f. subst w.
  assert (sorted_dict f !! (num - 1) = None) as Hnone.
  { simpl.
    destruct (rank_mapping (st (UkkonenSuffixTree [] input).2) !! (num - 1))
      as [v|] eqn:Hv; [|done].
    destruct Hbad as [Hlo|[Hhi|?]]; [| |congruence].
    - apply rank_mapping_key in Hv.
      pose proof (ids_ok _ _ (st_ok _ _ (run_world_ok input))) as Hids.
      rewrite Forall_forall in Hids. apply Hids in Hv. lia.
    - apply rank_mapping_key in Hv.
      pose proof (ids_ok _ _ (st_ok _ _ (run_world_ok input))) as Hids.
      rewrite Forall_forall in Hids. apply Hids in Hv.
      rewrite length_app in Hv. simpl in Hv. lia. }
  destruct (lookup_ranks_missing positions f num Hin Hnone) as (f' & Hf' & ?).
  split; [|by exists f'].
  unfold main. subst f.
  destruct (UkkonenSuffixTree [] input) as [[[]|e] w]; simpl in *; [|done].
  by rewrite Hf'.
Qed.

(** C8 at the text "banana" queried at positions 1 and 9: offset 8 is past
    the last suffix. *)
Lemma C8_witness :
  let w := (UkkonenSuffixTree [] (str "banana")).2 in
  let f := {| uk := st w; sorted_dict := rank_mapping (st w); res := [] |} in
  main (str "banana") [1; 9] = Raise KeyError ∧
  ∃ f', lookup_ranks [1; 9] f = (Raise KeyError, f') ∧
        uk f' = uk f ∧ sorted_dict f' = sorted_dict f.
Proof.
  refine (C8_bad_position_raises_KeyError (str "banana") [1; 9] 9 _ _ _).
  - by vm_compute.
  - repeat constructor.
  - right. left. by vm_compute.
Defined.

(** C4, as stated, fails on the one-symbol text made of the line feed
    (code 10): the constructor returns, and the leaf of that symbol is in
    slot 65 of the root's child table, the slot of "e". *)
Lemma C4_line_feed_is_accepted :
  ¬ rejects_unsupported [10] ∧
  ∃ rn, arena (st (UkkonenSuffixTree [] [10]).2) !! 0%nat = Some rn ∧
        children rn !! 65%nat = Some (Some 1%nat).
Proof.
  split.
  - intros H. destruct H as [e He].
    + exists 10. split; [repeat constructor|]. unfold supported. lia.
    + vm_compute in He. discriminate.
  - eexists. split; by vm_compute.
Qed.

Lemma py_norm_91 k :
  py_norm 91 k =
  if decide (0 ≤ k < 91) then Some (Z.to_nat k)
  else if decide (-91 ≤ k < 0) then Some (Z.to_nat (k + 91)) else None.
Proof.
  unfold py_norm. change (- Z.of_nat 91) with (-91).
  change (Z.of_nat 91) with 91.
  destruct (Z.leb_spec 0 k), (Z.ltb_spec k 91), (Z.leb_spec (-91) k),
    (Z.ltb_spec k 0); simpl; repeat case_decide; try done; lia.
Qed.

Lemma encodable_bounds c : encodable c ↔ -55 ≤ c ≤ 126.
Proof.
  unfold encodable, ord. rewrite py_norm_91.
  repeat case_decide; split; intros Hc; try lia; try (by eexists);
    by destruct Hc.
Qed.

(** C4, amended: a text with a symbol above 126 makes the constructor
    raise, [IndexError] from a child table or else [RecursionError], and it
    does so with the root already in the arena; a symbol below 36 is not
    refused: its index [ord c - 36] is negative and selects slot [c + 55]
    of the child table. *)
Theorem C4_symbols_above_126_raise input c :
  c ∈ input → 126 < c →
  (∃ e, (UkkonenSuffixTree [] input).1 = Raise e ∧
        (e = IndexError ∨ e = RecursionError)) ∧
  (∃ rn, arena (st (UkkonenSuffixTree [] input).2)
           !! root (st (UkkonenSuffixTree [] input).2) = Some rn) ∧
  (∀ c', 0 ≤ c' < 36 → py_norm 91 (ord c' - 36) = Some (Z.to_nat (c' + 55))).
Proof.
  intros Hin Hc. split; [|split].
  - destruct (UkkonenSuffixTree [] input).1 as [[]|e] eqn:Hrun;
      [|exists e; split; [done|by apply (run_raises input)]].
    destruct (run_returns input Hrun) as [_ Hv].
    apply list_elem_of_lookup in Hin as [p Hp].
    assert (encodable c) as Henc.
    { apply (Hv (Z.of_nat p)).
      - pose proof (lookup_lt_Some _ _ _ Hp). rewrite length_app. lia.
      - rewrite Nat2Z.id. by apply lookup_app_l_Some. }
    apply encodable_bounds in Henc. lia.
  - pose proof (tree_ok _ _ (st_ok _ _ (run_world_ok input))) as Hok.
    destruct (root_ok _ _ _ Hok) as (rn & ? & _). by exists rn.
  - intros c' Hc'. unfold ord. rewrite py_norm_91.
    repeat case_decide; try lia. f_equal. lia.
Qed.

(** C4, amended, at the text "a" followed by the symbol 127. *)
Lemma C4_witness :
  (∃ e, (UkkonenSuffixTree [] [97; 127]).1 = Raise e ∧
        (e = IndexError ∨ e = RecursionError)) ∧
  (∃ rn, arena (st (UkkonenSuffixTree [] [97; 127]).2)
           !! root (st (UkkonenSuffixTree [] [97; 127]).2) = Some rn) ∧
  (∀ c', 0 ≤ c' < 36 → py_norm 91 (ord c' - 36) = Some (Z.to_nat (c' + 55))).
Proof.
  apply (C4_symbols_above_126_raise [97; 127] 127).
  - repeat constructor.
  - lia.
Defined.

(** ** Building in a process that already holds nodes

    A second [UkkonenSuffixTree] is built in an arena that is not empty:
    every node it makes sits [length heap] addresses further on.  The two
    runs go through the same steps on stores that differ by that shift. *)

Section Relocation.

Variable heap : list TrieNode.

Lemma rel_ret {A} (R : A → A → Prop) a1 a2 :
  R a1 a2 → rel heap R (mret a1) (mret a2).
Proof. by intros HR w1 w2 Hs. Qed.

Lemma rel_raise {A} (R : A → A → Prop) e : rel heap R (raise e) (raise e).
Proof. by intros w1 w2 Hs. Qed.

Lemma rel_bind {A B} (R : A → A → Prop) (R' : B → B → Prop) m1 m2 k1 k2 :
  rel heap R m1 m2 → (∀ a1 a2, R a1 a2 → rel heap R' (k1 a1) (k2 a2)) →
  rel heap R' (m1 ≫= k1) (m2 ≫= k2).
Proof.
  intros Hm Hk w1 w2 Hs. specialize (Hm w1 w2 Hs).
  unfold mbind, M_bind.
  destruct (m1 w1) as [[a1|e1] w1'], (m2 w2) as [[a2|e2] w2']; try done.
  destruct Hm as [HR Hs']. by apply Hk.
Qed.

Lemma rel_lift {A} (r : result A) : rel heap eq (lift r) (lift r).
Proof. intros w1 w2 Hs. unfold lift. by destruct r. Qed.

Lemma rel_gets {A} (R : A → A → Prop) (f : store → A) :
  (∀ x1 x2, sim heap x1 x2 → R (f x1) (f x2)) → rel heap R (gets f) (gets f).
Proof. intros Hf w1 w2 Hs. split; [by apply Hf|done]. Qed.

Lemma rel_modify (f1 f2 : store → store) :
  (∀ x1 x2, sim heap x1 x2 → sim heap (f1 x1) (f2 x2)) →
  rel heap eq (modify f1) (modify f2).
Proof. intros Hf w1 w2 Hs. split; [done|]. by apply Hf. Qed.

Lemma rel_record p : rel heap eq (record p) (record p).
Proof. by intros w1 w2 Hs. Qed.

Lemma sim_lookup x1 x2 a :
  sim heap x1 x2 → arena x2 !! (relocate heap) a = (relocate_node heap) <$> arena x1 !! a.
Proof.
  intros Hs. rewrite (sim_arena _ _ _ Hs). unfold relocate.
  rewrite lookup_app_r by lia.
  replace (length heap + a - length heap)%nat with a by lia.
  by rewrite list_lookup_fmap.
Qed.

Lemma rel_deref r1 r2 :
  (shifted_ref heap) r1 r2 → rel heap (shifted_node heap) (deref r1) (deref r2).
Proof.
  intros -> w1 w2 Hs. unfold deref. destruct r1 as [a|]; simpl; [|done].
  rewrite (sim_lookup _ _ a Hs). by destruct (arena (st w1) !! a).
Qed.

Lemma sim_with_arena x1 x2 h :
  sim heap x1 x2 →
  sim heap (with_arena h x1) (with_arena (heap ++ ((relocate_node heap) <$> h)) x2).
Proof. intros []. by split. Qed.

Lemma relocate_insert h a n :
  (a < length h)%nat →
  <[(relocate heap) a := (relocate_node heap) n]> (heap ++ ((relocate_node heap) <$> h)) =
  heap ++ ((relocate_node heap) <$> <[a := n]> h).
Proof.
  intros Ha. unfold relocate. rewrite insert_app_r_alt by lia.
  replace (length heap + a - length heap)%nat with a by lia.
  by rewrite list_fmap_insert.
Qed.

Lemma rel_update_node a1 a2 f1 f2 :
  (shifted heap) a1 a2 →
  (∀ n, f2 ((relocate_node heap) n) = (relocate_node heap) (f1 n)) →
  rel heap eq (update_node a1 f1) (update_node a2 f2).
Proof.
  intros -> Hf. unfold update_node.
  eapply rel_bind; [by apply rel_deref|]. intros n1 n2 ->.
  intros w1 w2 Hs. split; [done|]. simpl.
  destruct (arena (st w1) !! a1) as [n|] eqn:Hn.
  - rewrite (sim_arena _ _ _ Hs), Hf, relocate_insert
      by by eapply lookup_lt_Some.
    by apply sim_with_arena.
  - rewrite !list_insert_ge.
    + destruct Hs. by split.
    + rewrite (sim_arena _ _ _ Hs), length_app, length_fmap.
      apply lookup_ge_None in Hn. unfold relocate. lia.
    + by apply lookup_ge_None.
Qed.

Lemma rel_TrieNode_new id s e t :
  rel heap (shifted heap) (TrieNode_new id s e t) (TrieNode_new id s e t).
Proof.
  intros w1 w2 Hs. simpl. split.
  - unfold shifted, relocate.
    by rewrite (sim_arena _ _ _ Hs), length_app, length_fmap.
  - rewrite (sim_arena _ _ _ Hs), <- (assoc_L (++)).
    change [TrieNode_init id s e t]
      with ((relocate_node heap) <$> [TrieNode_init id s e t]) at 2.
    rewrite <- fmap_app. by apply sim_with_arena.
Qed.

Lemma py_norm_length_children n pos :
  py_norm (length (children ((relocate_node heap) n))) pos =
  py_norm (length (children n)) pos.
Proof. simpl. by rewrite length_fmap. Qed.

Lemma rel_get_child_at r1 r2 pos :
  (shifted_ref heap) r1 r2 → rel heap (shifted_ref heap) (get_child_at r1 pos) (get_child_at r2 pos).
Proof.
  intros Hr. unfold get_child_at.
  eapply rel_bind; [by apply rel_deref|]. intros n1 n2 ->.
  intros w1 w2 Hs. unfold lift, py_getitem.
  rewrite py_norm_length_children.
  destruct (py_norm _ pos) as [k|]; [|done]. simpl.
  rewrite list_lookup_fmap. by destruct (children n1 !! k).
Qed.

Lemma rel_add_child r1 r2 pos c1 c2 :
  (shifted_ref heap) r1 r2 → (shifted_ref heap) c1 c2 →
  rel heap eq (add_child r1 pos c1) (add_child r2 pos c2).
Proof.
  intros Hr ->. unfold add_child.
  eapply rel_bind; [by apply rel_deref|]. intros n1 n2 ->.
  eapply (rel_bind (λ cs1 cs2, cs2 = fmap (relocate heap) <$> cs1)).
  - intros w1 w2 Hs. unfold lift, py_setitem.
    rewrite py_norm_length_children.
    destruct (py_norm _ pos) as [k|]; [|done]. split; [|done].
    simpl. by rewrite list_fmap_insert.
  - intros cs1 cs2 ->. rewrite Hr. destruct r1 as [a|]; simpl;
      [|apply rel_raise].
    by apply rel_update_node.
Qed.

Lemma rel_gets_eq {A} (f : store → A) :
  (∀ x1 x2, sim heap x1 x2 → f x2 = f x1) → rel heap eq (gets f) (gets f).
Proof. intros Hf. apply rel_gets. intros x1 x2 Hs. symmetry. by apply Hf. Qed.

Lemma rel_gets_marker :
  rel heap eq (gets (λ s, value (global_end_marker s)))
         (gets (λ s, value (global_end_marker s))).
Proof. apply rel_gets_eq. intros x1 x2 Hs. by rewrite (sim_marker _ _ _ Hs). Qed.

Lemma rel_gets_input_str : rel heap eq (gets input_str) (gets input_str).
Proof. apply rel_gets_eq, sim_text. Qed.

Lemma rel_gets_active_length : rel heap eq (gets active_length) (gets active_length).
Proof. apply rel_gets_eq, sim_length. Qed.

Lemma rel_gets_active_node :
  rel heap (shifted_ref heap) (gets active_node) (gets active_node).
Proof. apply rel_gets. intros x1 x2. apply sim_node. Qed.

Lemma rel_gets_root : rel heap (shifted heap) (gets root) (gets root).
Proof. apply rel_gets. intros x1 x2. apply sim_root. Qed.

Lemma rel_traverse_path depth r1 r2 len :
  (shifted_ref heap) r1 r2 →
  rel heap (shifted_ref heap) (traverse_path depth r1 len) (traverse_path depth r2 len).
Proof.
  revert r1 r2 len. induction depth as [|depth IH]; intros r1 r2 len Hr;
    [apply rel_raise|].
  simpl. eapply rel_bind; [by apply rel_deref|]. intros n1 n2 ->. simpl.
  destruct (is_terminal n1 || (len =? 0)); [by apply rel_ret|].
  eapply rel_bind; [apply rel_gets_active_node|]. intros an1 an2 Han.
  eapply rel_bind; [apply rel_gets_input_str|]. intros t ? <-.
  eapply rel_bind; [apply rel_gets_marker|]. intros e ? <-.
  eapply rel_bind; [apply rel_lift|]. intros c ? <-.
  eapply rel_bind; [by apply rel_get_child_at|]. intros c1 c2 Hc.
  rewrite Hc. destruct c1 as [c1|]; simpl; [|by apply rel_ret].
  eapply rel_bind; [by apply (rel_deref (Some c1))|]. intros en1 en2 ->.
  eapply rel_bind; [apply rel_lift|]. intros edge_len ? <-.
  destruct (len <? edge_len); [by apply rel_ret|]. by apply IH.
Qed.

Lemma rel_new_leaf_rule i j pos :
  rel heap eq (new_leaf_rule i j pos) (new_leaf_rule i j pos).
Proof.
  unfold new_leaf_rule.
  eapply rel_bind; [apply rel_gets_active_length|]. intros al ? <-.
  eapply rel_bind; [apply rel_gets_marker|]. intros e ? <-.
  eapply rel_bind; [apply rel_TrieNode_new|]. intros l1 l2 ->.
  eapply rel_bind; [apply rel_gets_active_node|]. intros an1 an2 Han.
  by apply rel_add_child.
Qed.

Lemma rel_split_rule i j pos ae1 ae2 last1 last2 :
  (shifted heap) ae1 ae2 → (shifted_ref heap) last1 last2 →
  rel heap (shifted_ref heap) (split_rule i j pos ae1 last1) (split_rule i j pos ae2 last2).
Proof.
  intros -> ->. unfold split_rule.
  eapply rel_bind; [apply rel_gets_input_str|]. intros t ? <-.
  eapply rel_bind; [apply rel_gets_active_length|]. intros al ? <-.
  eapply rel_bind; [apply rel_lift|]. intros x ? <-.
  eapply rel_bind; [by apply (rel_deref (Some ae1))|]. intros aen1 ? ->.
  eapply rel_bind; [apply rel_lift|]. intros k ? <-.
  eapply rel_bind; [apply rel_TrieNode_new|]. intros ni1 ni2 ->.
  eapply rel_bind; [apply rel_gets_active_node|]. intros an1 an2 Han.
  eapply rel_bind; [by apply rel_add_child|]. intros _ _ _.
  eapply rel_bind; [by apply (rel_deref (Some ae1))|]. intros aen2 ? ->.
  eapply rel_bind; [apply rel_lift|]. intros k2 ? <-.
  eapply rel_bind; [by apply rel_update_node|]. intros _ _ _.
  eapply rel_bind; [by apply (rel_deref (Some ae1))|]. intros aen3 ? ->.
  eapply rel_bind; [apply rel_lift|]. intros k3 ? <-.
  eapply rel_bind; [apply rel_lift|]. intros c ? <-.
  eapply rel_bind; [by apply (rel_add_child (Some ni1) _ _ (Some ae1))|].
  intros _ _ _.
  eapply rel_bind; [apply rel_gets_marker|]. intros e ? <-.
  eapply rel_bind; [apply rel_TrieNode_new|]. intros l1 l2 ->.
  eapply rel_bind; [apply rel_lift|]. intros x' ? <-.
  eapply rel_bind; [by apply (rel_add_child (Some ni1) _ _ (Some l1))|].
  intros _ _ _.
  eapply rel_bind; [apply rel_gets_root|]. intros r1 r2 ->.
  eapply rel_bind; [by apply rel_update_node|]. intros _ _ _.
  eapply (rel_bind eq).
  - destruct last1 as [l|]; simpl; [by apply rel_update_node|by apply rel_ret].
  - intros _ _ _. by apply rel_ret.
Qed.

Lemma rel_advance i j : rel heap eq (advance i j) (advance i j).
Proof.
  unfold advance.
  eapply rel_bind; [apply rel_gets_active_node|]. intros an1 an2 Han.
  eapply rel_bind; [by apply rel_deref|]. intros n1 n2 ->.
  eapply rel_bind.
  { apply rel_modify. intros x1 x2 []. by split. }
  intros _ _ _. eapply rel_bind.
  { apply rel_modify. intros x1 x2 []. split; simpl; try done. congruence. }
  intros _ _ _. apply rel_record.
Qed.

Lemma rel_extension i j last1 last2 :
  (shifted_ref heap) last1 last2 →
  rel heap (shifted_step heap) (extension i j last1) (extension i j last2).
Proof.
  intros ->. unfold extension.
  eapply rel_bind; [apply rel_gets_active_node|]. intros an1 an2 ->.
  eapply rel_bind; [apply rel_gets_root|]. intros r1 r2 ->.
  eapply (rel_bind eq).
  { destruct (decide (an1 = Some r1)) as [->|Hne].
    - simpl. destruct (decide _) as [_|]; [|done].
      apply rel_modify. intros x1 x2 []. by split.
    - destruct (decide _) as [Heq|_]; [|by apply rel_ret].
      destruct an1 as [a|]; [|done]. simpl in Heq. injection Heq as Heq.
      unfold relocate in Heq. destruct Hne. f_equal. lia. }
  intros _ _ _.
  eapply rel_bind; [apply rel_record|]. intros _ _ _.
  eapply rel_bind; [apply rel_gets_active_node|]. intros an1' an2' Han.
  eapply rel_bind; [apply rel_gets_active_length|]. intros al ? <-.
  eapply rel_bind; [by apply rel_traverse_path|]. intros _ _ _.
  eapply rel_bind; [apply rel_gets_input_str|]. intros t ? <-.
  eapply rel_bind; [apply rel_gets_active_length|]. intros al' ? <-.
  eapply rel_bind; [apply rel_lift|]. intros c ? <-.
  eapply rel_bind; [apply rel_gets_active_node|]. intros an1'' an2'' Han'.
  eapply rel_bind; [by apply rel_get_child_at|]. intros ae1 ae2 ->.
  eapply (rel_bind (shifted_step heap)).
  - destruct ae1 as [ae|]; simpl.
    + eapply rel_bind; [apply rel_lift|]. intros x ? <-.
      eapply rel_bind; [by apply (rel_deref (Some ae))|]. intros aen ? ->.
      eapply rel_bind; [apply rel_lift|]. intros k ? <-.
      eapply rel_bind; [apply rel_lift|]. intros y ? <-.
      destruct (decide (x = y)); [by apply rel_ret|].
      eapply rel_bind; [by apply rel_split_rule|]. intros l1 l2 ->.
      by apply rel_ret.
    + eapply rel_bind; [apply rel_new_leaf_rule|]. intros _ _ _.
      by apply rel_ret.
  - intros a1 a2 ->. destruct a1 as [l|]; simpl; [|by apply rel_ret].
    eapply rel_bind; [apply rel_advance|]. intros _ _ _. by apply rel_ret.
Qed.

Lemma rel_extensions fuel i j last1 last2 :
  (shifted_ref heap) last1 last2 →
  rel heap eq (extensions fuel i j last1) (extensions fuel i j last2).
Proof.
  revert j last1 last2. induction fuel as [|fuel IH]; intros j last1 last2 Hl;
    [by apply rel_ret|].
  simpl. destruct (j <? i); [|by apply rel_ret].
  eapply rel_bind; [by apply rel_extension|]. intros r1 r2 ->.
  destruct r1 as [l|]; simpl; [by apply IH|by apply rel_ret].
Qed.

Lemma rel_phase i j : rel heap eq (phase i j) (phase i j).
Proof.
  unfold phase. eapply rel_bind.
  { apply rel_modify. intros x1 x2 []. split; simpl; try done. congruence. }
  intros _ _ _. eapply rel_bind; [apply rel_record|]. intros _ _ _.
  by apply rel_extensions.
Qed.

Lemma rel_phases range j : rel heap eq (phases range j) (phases range j).
Proof.
  revert j. induction range as [|i range IH]; intros j; [by apply rel_ret|].
  simpl. eapply rel_bind; [apply rel_phase|]. intros j' ? <-. apply IH.
Qed.

Lemma rel_build_suffix_tree : rel heap eq build_suffix_tree build_suffix_tree.
Proof.
  unfold build_suffix_tree.
  eapply rel_bind; [apply rel_gets_input_str|]. intros t ? <-.
  eapply rel_bind; [apply rel_phases|]. intros _ _ _. by apply rel_ret.
Qed.

Lemma rel_for_each (body1 body2 : option addr → M unit) l :
  (∀ c1 c2, (shifted_ref heap) c1 c2 → rel heap eq (body1 c1) (body2 c2)) →
  rel heap eq (for_each body1 l) (for_each body2 (option_map (relocate heap) <$> l)).
Proof.
  intros Hbody. induction l as [|c l IH]; [by apply rel_ret|].
  simpl. eapply rel_bind; [by apply Hbody|]. intros _ _ _. apply IH.
Qed.

Lemma rel_retrieve_suffix_ids depth r1 r2 :
  (shifted_ref heap) r1 r2 →
  rel heap eq (retrieve_suffix_ids depth r1) (retrieve_suffix_ids depth r2).
Proof.
  revert r1 r2. induction depth as [|depth IH]; intros r1 r2 ->;
    [apply rel_raise|].
  simpl. destruct r1 as [a|]; simpl; [|by apply rel_ret].
  eapply rel_bind; [by apply (rel_deref (Some a))|]. intros n1 ? ->. simpl.
  destruct (is_terminal n1).
  - apply rel_modify. intros x1 x2 []. split; simpl; try done. congruence.
  - apply rel_for_each. intros c1 c2 ->.
    destruct c1 as [c|]; simpl; [by apply IH|by apply rel_ret].
Qed.

Lemma rel_UkkonenSuffixTree_init :
  rel heap eq UkkonenSuffixTree_init UkkonenSuffixTree_init.
Proof.
  unfold UkkonenSuffixTree_init.
  eapply rel_bind; [apply rel_build_suffix_tree|]. intros _ _ _.
  eapply rel_bind; [apply rel_gets_root|]. intros r1 r2 ->.
  by apply rel_retrieve_suffix_ids.
Qed.

Lemma sim_init input : sim heap (init_store [] input) (init_store heap input).
Proof.
  split; simpl; try done;
    unfold relocate_node, relocate; simpl; by rewrite ?Nat.add_0_r.
Qed.

Lemma relocated_run input :
  (UkkonenSuffixTree heap input).1 = (UkkonenSuffixTree [] input).1 ∧
  suffix_ids (st (UkkonenSuffixTree heap input).2) =
  suffix_ids (st (UkkonenSuffixTree [] input).2).
Proof.
  pose proof (rel_UkkonenSuffixTree_init (init_world [] input)
                (init_world heap input) (sim_init input)) as H.
  unfold UkkonenSuffixTree.
  destruct (UkkonenSuffixTree_init (init_world [] input)) as [[a1|e1] w1],
    (UkkonenSuffixTree_init (init_world heap input)) as [[a2|e2] w2];
    try done; destruct H as [-> Hs]; simpl; by rewrite (sim_ids _ _ _ Hs).
Qed.

End Relocation.

(** C9: a second tree built from the same text, in the process whose arena
    holds the nodes of the first, ends as the first did (returning, or
    raising the same exception) and yields the same position-to-rank
    mapping. *)
Theorem C9_second_build_same_ranks input :
  let first := UkkonenSuffixTree [] input in
  let second := UkkonenSuffixTree (arena (st first.2)) input in
  second.1 = first.1 ∧ rank_mapping (st second.2) = rank_mapping (st first.2).
Proof.
  intros first second.
  destruct (relocated_run (arena (st first.2)) input) as [Hr Hids].
  split; [done|]. unfold rank_mapping. fold first second in Hids.
  by rewrite Hids.
Qed.

(** * The tree behind the ranks *)

(** ** Trees *)

Lemma tree_ind' (P : tree → Prop) :
  P Empty → (∀ id, P (Leaf id)) → (∀ ts, Forall P ts → P (Node ts)) →
  ∀ t, P t.
Proof.
  intros He Hl Hn. fix IH 1. intros [|id|ts]; [apply He|apply Hl|].
  apply Hn. induction ts as [|t ts IHts]; constructor; [|done].
  apply IH.
Qed.

Lemma leaves_insert ts k x y :
  ts !! k = Some y →
  leaves y ++ leaves (Node (<[k := x]> ts)) ≡ₚ leaves x ++ leaves (Node ts).
Proof.
  simpl. revert k. induction ts as [|t ts IH]; intros [|k] Hk; try done.
  - injection Hk as ->. simpl. apply Permutation_app_swap_app.
  - simpl in *. rewrite !(Permutation_app_swap_app _ (leaves t)).
    f_equiv. by apply IH.
Qed.

Lemma leaves_elem ts id :
  id ∈ leaves (Node ts) → ∃ k t, ts !! k = Some t ∧ id ∈ leaves t.
Proof.
  induction ts as [|t ts IH]; intros Hid; [by apply elem_of_nil in Hid|].
  change (leaves (Node (t :: ts))) with (leaves t ++ leaves (Node ts)) in Hid.
  apply elem_of_app in Hid as [Hid|Hid].
  - by exists 0%nat, t.
  - destruct (IH Hid) as (k & t' & ? & ?). by exists (S k), t'.
Qed.

Lemma leaves_replicate_Empty n : leaves (Node (replicate n Empty)) = [].
Proof. simpl. induction n as [|n IH]; [done|]. simpl. by rewrite IH. Qed.

Lemma height_lookup ts k t :
  ts !! k = Some t → (height t < height (Node ts))%nat.
Proof.
  simpl. revert k. induction ts as [|t' ts IH]; intros [|k] Hk; try done.
  - injection Hk as ->. simpl. lia.
  - simpl in *. specialize (IH _ Hk). lia.
Qed.

Lemma height_insert ts k x :
  (height (Node (<[k := x]> ts)) ≤ height (Node ts) `max` S (height x))%nat.
Proof.
  simpl. revert k. induction ts as [|t ts IH]; intros [|k]; simpl; try lia.
  specialize (IH k). lia.
Qed.

Lemma height_replicate_Empty n : height (Node (replicate n Empty)) = 1%nat.
Proof. simpl. induction n as [|n IH]; [done|]. simpl in *. lia. Qed.

(** ** What [retrieve_suffix_ids] collects *)

Lemma wp_conj {A} (m : M A) Q1 Q2 E1 E2 w :
  wp m Q1 E1 w → wp m Q2 E2 w →
  wp m (λ a w', Q1 a w' ∧ Q2 a w') (λ e w', E1 e w' ∧ E2 e w') w.
Proof. unfold wp. by destruct (m w) as [[a|e] w']. Qed.

Lemma wp_retrieve_repr t : ∀ depth node w,
  repr (arena (st w)) node t →
  wp (retrieve_suffix_ids depth node)
     (λ _ w', suffix_ids (st w') = suffix_ids (st w) ++ leaves t ∧
              arena (st w') = arena (st w))
     (λ e _, e = RecursionError ∧ (depth ≤ height t)%nat) w.
Proof.
  induction t as [|id|ts IH] using tree_ind'; intros depth node w Hrepr;
    inversion Hrepr as [|a n Hn Ht|a n ts' Hn Ht Hcs]; subst;
    (destruct depth as [|depth]; [apply wp_raise; split; [done|simpl; lia]|]).
  - apply wp_ret. by rewrite app_nil_r.
  - simpl. apply wp_bind, (wp_deref_at a n); [done|]. rewrite Ht.
    by apply wp_modify.
  - simpl. apply wp_bind, (wp_deref_at a n); [done|]. rewrite Ht.
    remember (arena (st w)) as h eqn:Hh. clear Hrepr Hn. revert w Hh.
    induction Hcs as [|c t cs ts Hc Hcs IHcs]; intros w Hh.
    + apply wp_ret. by rewrite app_nil_r.
    + apply Forall_cons in IH as [IHt IHts]. simpl. apply wp_bind.
      destruct c as [c|].
      * eapply wp_mono; [apply IHt; by rewrite <- Hh| |].
        -- intros [] w' [Hids Har].
           eapply wp_mono; [apply IHcs; [done|congruence]| |].
           ++ intros [] w'' [Hids' Har']. split; [|congruence].
              by rewrite Hids', Hids, <- app_assoc.
           ++ intros e w'' [-> Hd]. split; [done|]. simpl in *. lia.
        -- intros e w' [-> Hd]. split; [done|]. simpl in *. lia.
      * inversion Hc; subst. apply wp_ret.
        eapply wp_mono; [apply IHcs; [done|done]| |].
        -- intros [] w'' [Hids' Har']. by split.
        -- intros e w'' [-> Hd]. split; [done|]. simpl in *. lia.
Qed.

(** ** Arenas that hold the same tree *)

Lemma repr_agree (S : addr → Prop) h h' :
  (∀ a n, S a → h !! a = Some n →
     ∃ n', h' !! a = Some n' ∧ children n' = children n ∧
       is_terminal n' = is_terminal n ∧ node_id n' = node_id n) →
  (∀ a n k c, S a → h !! a = Some n → children n !! k = Some (Some c) → S c) →
  ∀ t node, (∀ a, node = Some a → S a) → repr h node t → repr h' node t.
Proof.
  intros Hag Hcl t.
  induction t as [|id|ts IH] using tree_ind'; intros node HS Hrepr;
    inversion Hrepr as [|a n Hn Ht|a n ts' Hn Ht Hcs]; subst.
  - constructor.
  - destruct (Hag a n) as (n' & Hn' & _ & Ht' & <-); [by apply HS|done|].
    constructor; [done|congruence].
  - destruct (Hag a n) as (n' & Hn' & Hch & Ht' & _); [by apply HS|done|].
    econstructor; [done|congruence|]. rewrite Hch.
    apply Forall2_same_length_lookup. split; [by eapply Forall2_length|].
    intros i c t Hc Hti. eapply (Forall_lookup_1 _ _ _ _ IH Hti).
    + intros c' ->. eapply Hcl; [by apply HS|done|done].
    + eapply Forall2_lookup_lr; done.
Qed.

Lemma same_but_links_refl h : same_but_links h h.
Proof. done. Qed.

Lemma same_but_links_update h h' a n l :
  same_but_links h h' → h' !! a = Some n →
  same_but_links h (<[a := set_suffix_link l n]> h').
Proof.
  unfold same_but_links. intros -> Hn. rewrite list_fmap_insert.
  symmetry. apply list_insert_id. rewrite list_lookup_fmap, Hn. done.
Qed.

Lemma same_but_links_lookup h h' a n' :
  same_but_links h h' → h' !! a = Some n' →
  ∃ n, h !! a = Some n ∧ children n = children n' ∧
    is_terminal n = is_terminal n' ∧ node_id n = node_id n' ∧
    start_idx n = start_idx n' ∧ end_idx n = end_idx n'.
Proof.
  intros Heq Hn'.
  assert (unlinked <$> (h !! a) = unlinked <$> (h' !! a)) as H
    by (rewrite <- !list_lookup_fmap; by rewrite Heq).
  rewrite Hn' in H. destruct (h !! a) as [n|]; [|done].
  injection H as Hid Hst Hen Ht Hch. by exists n.
Qed.

Lemma same_but_links_sym h h' : same_but_links h h' → same_but_links h' h.
Proof. done. Qed.

Lemma same_but_links_length h h' :
  same_but_links h h' → length h' = length h.
Proof.
  intros H. by rewrite <- (length_fmap unlinked h), H, length_fmap.
Qed.

Lemma seqZ_snoc_perm j : 0 ≤ j → seqZ 0 (j + 1) ≡ₚ j :: seqZ 0 j.
Proof.
  intros Hj. rewrite seqZ_app by lia. rewrite Permutation_cons_append.
  f_equiv. rewrite (seqZ_cons (0 + j) 1) by lia. simpl.
  by rewrite Z.add_0_l.
Qed.

Lemma leaves_insert_Empty ts k x :
  ts !! k = Some Empty →
  leaves (Node (<[k := x]> ts)) ≡ₚ leaves x ++ leaves (Node ts).
Proof. intros H. apply (leaves_insert ts k x Empty H). Qed.

(** The subtree Rule 2.2 builds: the former child in slot [k1], the new
    leaf in slot [k2]; when the slots coincide the leaf replaces the
    child. *)
Lemma leaves_pair t j k1 k2 n :
  (k1 < n)%nat → (k2 < n)%nat →
  let tsn := <[k2 := Leaf j]> (<[k1 := t]> (replicate n Empty)) in
  leaves (Node tsn) ⊆+ j :: leaves t ∧
  (k1 ≠ k2 → leaves (Node tsn) ≡ₚ j :: leaves t).
Proof.
  intros Hk1 Hk2 tsn. unfold tsn. destruct (decide (k1 = k2)) as [->|Hne].
  - split; [|done]. rewrite list_insert_insert_eq.
    rewrite leaves_insert_Empty by by apply lookup_replicate_2.
    rewrite leaves_replicate_Empty.
    apply (submseteq_skip j), submseteq_nil_l.
  - assert (leaves (Node (<[k2 := Leaf j]> (<[k1 := t]> (replicate n Empty))))
              ≡ₚ j :: leaves t) as Hp.
    { rewrite leaves_insert_Empty
        by (rewrite list_lookup_insert_ne by done; by apply lookup_replicate_2).
      rewrite leaves_insert_Empty by by apply lookup_replicate_2.
      by rewrite leaves_replicate_Empty, app_nil_r. }
    split; [by rewrite Hp|done].
Qed.

Lemma height_pair t j k1 k2 n :
  (height (Node (<[k2 := Leaf j]> (<[k1 := t]> (replicate n Empty))))
   ≤ 2 `max` S (height t))%nat.
Proof.
  pose proof (height_insert (<[k1 := t]> (replicate n Empty)) k2 (Leaf j)) as H2.
  pose proof (height_insert (replicate n Empty) k1 t) as H1.
  rewrite height_replicate_Empty in H1.
  change (height (Leaf j)) with 1%nat in H2. lia.
Qed.

Lemma unreferenced_insert h c a n' :
  unreferenced h c → (∀ k, children n' !! k ≠ Some (Some c)) →
  unreferenced (<[a := n']> h) c.
Proof.
  intros Hun Hn a' m k [(-> & <- & _)|[_ Ha']]%list_lookup_insert_Some;
    [apply Hn|by eapply Hun].
Qed.

Lemma unreferenced_snoc h c x :
  unreferenced h c → (∀ k, children x !! k ≠ Some (Some c)) →
  unreferenced (h ++ [x]) c.
Proof.
  intros Hun Hx a n k [Ha|[_ ->]]%lookup_snoc_Some; [by eapply Hun|apply Hx].
Qed.

Lemma split_arena_lookup h r rn k ae aen start inode k1 k2 leaf :
  (r < length h)%nat → (ae < length h)%nat → ae ≠ r →
  split_arena h r rn k ae aen start inode k1 k2 leaf !! length h =
    Some (set_children
            (<[k2 := Some (S (length h))]> (<[k1 := Some ae]> (children inode)))
            inode) ∧
  split_arena h r rn k ae aen start inode k1 k2 leaf !! S (length h) =
    Some leaf ∧
  split_arena h r rn k ae aen start inode k1 k2 leaf !! r =
    Some (set_children (<[k := Some (length h)]> (children rn)) rn) ∧
  split_arena h r rn k ae aen start inode k1 k2 leaf !! ae =
    Some (set_start_idx start aen) ∧
  (∀ a, a ≠ r → a ≠ ae → (a < length h)%nat →
     split_arena h r rn k ae aen start inode k1 k2 leaf !! a = h !! a) ∧
  length (split_arena h r rn k ae aen start inode k1 k2 leaf) =
    S (S (length h)).
Proof.
  intros Hr Hae Hne. unfold split_arena.
  set (h1 := h ++ [inode]). set (h2 := <[r := _]> h1).
  set (h3 := <[ae := _]> h2).
  assert (length h3 = S (length h)) as Hl3.
  { unfold h3, h2, h1. rewrite !length_insert, length_app. simpl. lia. }
  split; [|split; [|split; [|split; [|split]]]].
  - apply list_lookup_insert_eq. rewrite length_app. lia.
  - rewrite list_lookup_insert_ne by lia. rewrite <- Hl3.
    by apply list_lookup_middle.
  - rewrite list_lookup_insert_ne by lia. rewrite lookup_app_l by lia.
    unfold h3. rewrite list_lookup_insert_ne by done.
    apply list_lookup_insert_eq. unfold h1. rewrite length_app. lia.
  - rewrite list_lookup_insert_ne by lia. rewrite lookup_app_l by lia.
    apply list_lookup_insert_eq. unfold h2, h1.
    rewrite length_insert, length_app. lia.
  - intros a ? ? ?. rewrite list_lookup_insert_ne by lia.
    rewrite lookup_app_l by lia. unfold h3, h2, h1.
    rewrite !list_lookup_insert_ne by done. by rewrite lookup_app_l by lia.
  - rewrite length_insert, length_app, Hl3. simpl. lia.
Qed.

(** ** The rules keep the shape of the tree *)

Section Shape.

Variable s : list Z.

Lemma children_below r h a n k c :
  arena_ok s r h → h !! a = Some n → children n !! k = Some (Some c) →
  (c < length h)%nat.
Proof. intros Hok Ha Hk. eapply first_slot_lt, slot_ok; done. Qed.

(** The subtrees below the root are untouched by writes to the root. *)
Lemma repr_frame r h h' rn ts :
  unreferenced h r → h !! r = Some rn →
  (∀ a n, a ≠ r → h !! a = Some n →
     ∃ n', h' !! a = Some n' ∧ children n' = children n ∧
       is_terminal n' = is_terminal n ∧ node_id n' = node_id n) →
  Forall2 (repr h) (children rn) ts → Forall2 (repr h') (children rn) ts.
Proof.
  intros Hun Hr Hag Hcs.
  apply Forall2_same_length_lookup. split; [by eapply Forall2_length|].
  intros i c t Hc Ht.
  apply (repr_agree (λ a, a ≠ r) h h').
  - intros a n Ha Hn. by apply Hag.
  - intros a n k c' _ Hn Hk ->. by eapply Hun.
  - intros a -> ->. by eapply Hun.
  - eapply Forall2_lookup_lr; done.
Qed.

Lemma shape_links j r h h' :
  same_but_links h h' → shape s j r h → shape s j r h'.
Proof.
  intros Hl [Hun Hsz (ts & Hrepr & Htree) Hed]. split.
  - intros a n' k Hn' Hk.
    destruct (same_but_links_lookup _ _ _ _ Hl Hn') as (n & Hn & Hch & _).
    rewrite <- Hch in Hk. by eapply Hun.
  - by rewrite (same_but_links_length _ _ Hl).
  - exists ts. split; [|done].
    apply (repr_agree (λ _, True) h h'); [|done|done|done].
    intros a n _ Hn.
    assert (is_Some (h' !! a)) as [n' Hn'].
    { apply lookup_lt_is_Some. rewrite (same_but_links_length _ _ Hl).
      by eapply lookup_lt_Some. }
    destruct (same_but_links_lookup _ _ _ _ Hl Hn')
      as (n0 & Hn0 & Hch & Ht & Hid & _).
    assert (n0 = n) as -> by congruence. by exists n'.
  - intros rn' k c cn' Hr' Hk Hc Hct.
    destruct (same_but_links_lookup _ _ _ _ Hl Hr') as (rn & Hr & Hch & _).
    destruct (same_but_links_lookup _ _ _ _ Hl Hc)
      as (cn & Hcn & _ & Ht & _ & Hst & Hen).
    rewrite <- Hch in Hk. rewrite <- Hst, <- Hen.
    eapply Hed; [done|done|done|congruence].
Qed.

Lemma shape_leaf j r h rn k leaf :
  shape s j r h → arena_ok s r h → 0 ≤ j →
  h !! r = Some rn → children rn !! k = Some None →
  is_terminal leaf = true → node_id leaf = j →
  children leaf = replicate 91 None →
  slot_of s j k →
  shape s (j + 1) r (leaf_arena h r rn k leaf).
Proof.
  intros [Hun Hsz (ts & Hrepr & Hsub & Hperm & Hht & Hbk) Hed]
    Hok Hj Hr Hk Hlt Hlid Hlch Hslot.
  assert (r < length h)%nat as Hrlt by by eapply lookup_lt_Some.
  unfold leaf_arena.
  set (rn' := set_children (<[k := Some (length h)]> (children rn)) rn).
  set (h' := <[r := rn']> (h ++ [leaf])).
  assert (h' !! r = Some rn') as Hr'.
  { apply list_lookup_insert_eq. rewrite length_app. simpl. lia. }
  assert (h' !! length h = Some leaf) as Hm'.
  { unfold h'. rewrite list_lookup_insert_ne by lia.
    by apply list_lookup_middle. }
  assert (∀ a n, a ≠ r → h !! a = Some n → h' !! a = Some n) as Hold.
  { intros a n Hne Hn. unfold h'. rewrite list_lookup_insert_ne by done.
    by apply lookup_app_l_Some. }
  revert Hlid. inversion Hrepr as [| |? rn0 ? Hr0 Hrt Hcs]; subst.
  assert (rn0 = rn) as -> by congruence.
  destruct (Forall2_lookup_l _ _ _ _ _ Hcs Hk) as (t0 & Ht0 & Hrep0).
  inversion Hrep0; subst. intros Hlid.
  split.
  - apply unreferenced_insert; [apply unreferenced_snoc; [done|]|].
    + intros k0. rewrite Hlch. apply lookup_replicate_None.
    + intros k0 [(_ & [= ?] & _)|[_ Hk0]]%list_lookup_insert_Some; [lia|].
      by eapply Hun.
  - unfold h'. rewrite length_insert, length_app. simpl. lia.
  - exists (<[k := Leaf j]> ts). split; [|split; [|split; [|split]]].
    + eapply (repr_node _ r rn'); [done|done|]. simpl.
      apply Forall2_insert.
      * eapply repr_frame; [done..| |done]. intros a n Hne Hn.
        exists n. split; [by apply Hold|done].
      * rewrite <- Hlid. by constructor.
    + rewrite (leaves_insert_Empty _ _ _ Ht0), seqZ_snoc_perm by done.
      by apply (submseteq_skip j).
    + intros Hd. rewrite (leaves_insert_Empty _ _ _ Ht0), seqZ_snoc_perm by done.
      apply (perm_skip j). by apply Hperm.
    + pose proof (height_insert ts k (Leaf j)) as H.
      change (height (Leaf j)) with 1%nat in H. lia.
    + intros k' t id [(-> & <- & _)|[_ Hk']]%list_lookup_insert_Some Hid.
      * apply list_elem_of_singleton in Hid as ->. done.
      * by eapply Hbk.
  - intros rn0 k0 c cn Hr0' Hk0 Hc Hct. rewrite Hr' in Hr0'.
    injection Hr0' as <-. simpl in Hk0.
    apply list_lookup_insert_Some in Hk0 as [(_ & [= <-] & _)|[_ Hk0]].
    + rewrite Hm' in Hc. injection Hc as <-. congruence.
    + assert (c ≠ r) by (intros ->; by eapply Hun).
      assert (c < length h)%nat by by eapply children_below.
      unfold h' in Hc. rewrite list_lookup_insert_ne in Hc by done.
      rewrite lookup_app_l in Hc by done. by eapply Hed.
Qed.

Lemma shape_split j r h rn k ae aen start inode z e k1 k2 leaf :
  shape s j r h → arena_ok s r h → 0 ≤ j →
  h !! r = Some rn → children rn !! k = Some (Some ae) → h !! ae = Some aen →
  children inode = replicate 91 None → is_terminal inode = false →
  start_idx inode = Some z → end_idx inode = Some e → 0 ≤ e - z →
  (slots_distinct s → 1 ≤ e - z) →
  is_terminal leaf = true → node_id leaf = j →
  children leaf = replicate 91 None →
  (k1 < 91)%nat → (k2 < 91)%nat → (slots_distinct s → k1 ≠ k2) →
  slot_of s j k →
  shape s (j + 1) r (split_arena h r rn k ae aen start inode k1 k2 leaf).
Proof.
  intros [Hun Hsz (ts & Hrepr & Hsub & Hperm & Hht & Hbk) Hed]
    Hok Hj Hr Hk Hae Hich Hit Hiz Hie Hez Hez1 Hlt Hlid Hlch Hk1 Hk2 Hkk Hslot.
  assert (r < length h)%nat as Hrlt by by eapply lookup_lt_Some.
  assert (ae < length h)%nat as Haelt by by eapply lookup_lt_Some.
  assert (ae ≠ r) as Hner by (intros ->; exact (Hun _ _ _ Hr Hk)).
  destruct (split_arena_lookup h r rn k ae aen start inode k1 k2 leaf
              Hrlt Haelt Hner) as (Hm' & Hl' & Hr' & Hae' & Hold & Hlen').
  set (h' := split_arena h r rn k ae aen start inode k1 k2 leaf) in *.
  rewrite Hich in Hm'.
  set (ni := set_children _ inode) in Hm'.
  set (rn' := set_children _ rn) in Hr'.
  revert Hlid. inversion Hrepr as [| |? rn0 ? Hr0 Hrt Hcs]; subst.
  assert (rn0 = rn) as -> by congruence. intros Hlid.
  destruct (Forall2_lookup_l _ _ _ _ _ Hcs Hk) as (tae & Htae & Hrae).
  set (tsn := <[k2 := Leaf j]> (<[k1 := tae]> (replicate 91 Empty))).
  assert (Forall2 (repr h') (children rn) ts) as Hcs'.
  { eapply repr_frame; [done..| |done]. intros a n Hne Hn.
    destruct (decide (a = ae)) as [->|Hneae].
    - exists (set_start_idx start aen).
      by assert (n = aen) as -> by congruence.
    - exists n. split; [|done].
      rewrite Hold; [done..|by eapply lookup_lt_Some]. }
  assert (repr h' (Some ae) tae) as Hrae' by (eapply Forall2_lookup_lr; done).
  destruct (leaves_pair tae j k1 k2 91 Hk1 Hk2) as [Hsubn Hpermn].
  fold tsn in Hsubn, Hpermn.
  assert (1 ≤ height tae)%nat as Hhae by (inversion Hrae; simpl; lia).
  pose proof (height_pair tae j k1 k2 91) as Hhn. fold tsn in Hhn.
  pose proof (height_lookup _ _ _ Htae) as Hhl.
  pose proof (leaves_insert ts k (Node tsn) tae Htae) as Hlv.
  split.
  - unfold h', split_arena.
    apply unreferenced_insert; [apply unreferenced_snoc;
      [apply unreferenced_insert; [apply unreferenced_insert;
        [apply unreferenced_snoc; [done|]|]|]|]|].
    + intros k0. rewrite Hich. apply lookup_replicate_None.
    + intros k0 [(_ & [= ?] & _)|[_ Hk0]]%list_lookup_insert_Some; [lia|].
      exact (Hun _ _ _ Hr Hk0).
    + intros k0 Hk0. exact (Hun _ _ _ Hae Hk0).
    + intros k0. rewrite Hlch. apply lookup_replicate_None.
    + rewrite Hich. cbn [children set_children].
      intros k0 [(_ & [= ?] & _)|[_ Hk0]]%list_lookup_insert_Some; [lia|].
      apply list_lookup_insert_Some in Hk0 as [(_ & [= ?] & _)|[_ Hk0]];
        [done|]. by apply lookup_replicate_None in Hk0.
  - rewrite Hlen'. lia.
  - exists (<[k := Node tsn]> ts). split; [|split; [|split; [|split]]].
    + eapply (repr_node _ r rn'); [done|done|].
      unfold rn'. cbn [children set_children].
      apply Forall2_insert; [done|].
      eapply (repr_node _ _ ni); [done|done|].
      unfold ni. cbn [children set_children].
      apply Forall2_insert; [apply Forall2_insert|].
      * apply Forall2_replicate. constructor.
      * done.
      * rewrite <- Hlid. by constructor.
    + apply (submseteq_app_inv_l _ _ (leaves tae)). rewrite Hlv.
      rewrite seqZ_snoc_perm by done.
      rewrite <- Permutation_middle.
      by apply (submseteq_app _ (j :: leaves tae) _ (seqZ 0 j)).
    + intros Hd. apply (Permutation_app_inv_l (leaves tae)). rewrite Hlv.
      rewrite seqZ_snoc_perm by done. rewrite (Hpermn (Hkk Hd)).
      rewrite (Hperm Hd). simpl. by rewrite <- Permutation_middle.
    + pose proof (height_insert ts k (Node tsn)) as H. lia.
    + intros k' t id [(-> & <- & _)|[_ Hk']]%list_lookup_insert_Some Hid.
      * apply (elem_of_submseteq _ _ _ Hid) in Hsubn.
        apply elem_of_cons in Hsubn as [->|Hid']; [done|by eapply Hbk].
      * by eapply Hbk.
  - intros rn0 k0 c cn Hr0' Hk0 Hc Hct. rewrite Hr' in Hr0'.
    injection Hr0' as <-. simpl in Hk0.
    apply list_lookup_insert_Some in Hk0 as [(<- & [= <-] & _)|[Hkk0 Hk0]].
    + rewrite Hm' in Hc. injection Hc as <-. exists z, e. by simpl.
    + assert (c ≠ r) by (intros ->; by eapply Hun).
      assert (c < length h)%nat by by eapply children_below.
      assert (c ≠ ae).
      { intros ->.
        by destruct (parent_ok _ _ _ Hok _ _ _ _ _ _ _ Hr Hr Hk Hk0). }
      rewrite Hold in Hc by done. by eapply Hed.
Qed.

End Shape.

(** ** What the rules write *)

Lemma py_norm_lt len k i : py_norm len k = Some i → (i < len)%nat.
Proof.
  unfold py_norm.
  destruct (Z.leb_spec 0 k), (Z.ltb_spec k (Z.of_nat len)); simpl;
    try (intros [= <-]; lia);
    destruct (Z.leb_spec (- Z.of_nat len) k), (Z.ltb_spec k 0); simpl;
    try done; intros [= <-]; lia.
Qed.

Lemma py_getitem_in_range {A} (l : list A) k :
  0 ≤ k < Z.of_nat (length l) →
  ∃ x, py_getitem l k = Ok x ∧ l !! Z.to_nat k = Some x.
Proof.
  intros Hk. unfold py_getitem, py_norm.
  destruct (Z.leb_spec 0 k); [|lia].
  destruct (Z.ltb_spec k (Z.of_nat (length l))); [|lia]. simpl.
  destruct (lookup_lt_is_Some_2 l (Z.to_nat k)) as [x Hx]; [lia|].
  exists x. by rewrite Hx.
Qed.

Lemma wp_get_child_at_slot a n pos (Q : option addr → world → Prop) E w :
  arena (st w) !! a = Some n →
  (∀ k c, py_norm (length (children n)) pos = Some k →
     children n !! k = Some c → Q c w) →
  (py_norm (length (children n)) pos = None → E IndexError w) →
  wp (get_child_at (Some a) pos) Q E w.
Proof.
  intros Hn HQ HE. unfold get_child_at.
  apply wp_bind, (wp_deref_at a n); [done|].
  unfold py_getitem.
  destruct (py_norm _ _) as [k|] eqn:Hk; [|by apply wp_lift; [|intros ? [= <-]; apply HE]].
  destruct (lookup_lt_is_Some_2 (children n) k) as [c Hc];
    [by eapply py_norm_lt|].
  rewrite Hc. apply wp_lift; [|done]. intros ? [= <-]. eauto.
Qed.

Lemma wp_add_child_slot a n pos c (Q : unit → world → Prop) E w :
  arena (st w) !! a = Some n →
  (∀ k, py_norm (length (children n)) pos = Some k →
     Q tt (push_arena
             (<[a := set_children (<[k := c]> (children n)) n]> (arena (st w)))
             w)) →
  (py_norm (length (children n)) pos = None → E IndexError w) →
  wp (add_child (Some a) pos c) Q E w.
Proof.
  intros Hn HQ HE. unfold add_child.
  apply wp_bind, (wp_deref_at a n); [done|].
  unfold py_setitem.
  destruct (py_norm _ _) as [k|] eqn:Hk.
  - apply wp_bind, wp_lift; [|done]. intros ? [= <-].
    apply wp_update_node; [|congruence].
    intros n' Hn'. assert (n' = n) as -> by congruence. by apply HQ.
  - apply wp_bind, wp_lift; [done|]. intros ? [= <-]. by apply HE.
Qed.

Lemma new_leaf_rule_effect i j pos k rn (E : exception → world → Prop) w :
  active_node (st w) = Some (root (st w)) →
  arena (st w) !! root (st w) = Some rn →
  py_norm (length (children rn)) pos = Some k →
  wp (new_leaf_rule i j pos)
     (λ _ w',
        arena (st w') =
          leaf_arena (arena (st w)) (root (st w)) rn k
            (TrieNode_init j (Some (i - active_length (st w)))
               (Some (value (global_end_marker (st w)))) true) ∧
        root (st w') = root (st w))
     E w.
Proof.
  intros Hact Hr Hk. unfold new_leaf_rule.
  apply wp_bind, wp_gets. apply wp_bind, wp_gets.
  apply wp_bind, wp_TrieNode_new. apply wp_bind, wp_gets. simpl.
  rewrite Hact.
  apply (wp_add_child_slot _ rn); [by apply lookup_app_l_Some| |congruence].
  intros k' Hk'. assert (k' = k) as -> by congruence. done.
Qed.

Lemma split_rule_effect s i j pos ae last k rn aen z x y w :
  input_str (st w) = s →
  active_node (st w) = Some (root (st w)) →
  arena (st w) !! root (st w) = Some rn →
  py_norm (length (children rn)) pos = Some k →
  arena (st w) !! ae = Some aen → ae ≠ root (st w) →
  start_idx aen = Some z →
  py_getitem s (i - 1) = Ok x →
  py_getitem s (z + (active_length (st w) - 1)) = Ok y →
  (∀ l, last = Some l → (l < length (arena (st w)))%nat) →
  wp (split_rule i j pos ae last)
     (λ _ w', ∃ k1 k2,
        py_norm 91 (ord y - 36) = Some k1 ∧
        py_norm 91 (ord x - 36) = Some k2 ∧
        same_but_links
          (split_arena (arena (st w)) (root (st w)) rn k ae aen
             (Some (z + (active_length (st w) - 1)))
             (TrieNode_init (ord x) (Some z)
                (Some (z + active_length (st w) - 1)) false)
             k1 k2
             (TrieNode_init j (Some (i - 1))
                (Some (value (global_end_marker (st w)))) true))
          (arena (st w')) ∧
        root (st w') = root (st w))
     (λ e _, e = IndexError ∧ (¬ encodable x ∨ ¬ encodable y)) w.
Proof.
  intros Htext Hact Hr Hk Hae Hner Hzs Hx Hy Hl.
  set (r := root (st w)) in *. set (h := arena (st w)) in *.
  set (al := active_length (st w)) in *.
  set (gem := value (global_end_marker (st w))).
  assert (r < length h)%nat as Hrlt by by eapply lookup_lt_Some.
  assert (ae < length h)%nat as Haelt by by eapply lookup_lt_Some.
  unfold split_rule.
  apply wp_bind, wp_gets. apply wp_bind, wp_gets. fold al. rewrite Htext, Hx.
  apply wp_bind, wp_lift; [|done]. intros ? [= <-].
  apply wp_bind, (wp_deref_at ae aen); [done|]. rewrite Hzs. simpl.
  apply wp_bind, wp_lift; [|done]. intros ? [= <-].
  apply wp_bind, wp_TrieNode_new. fold h.
  set (inode := TrieNode_init (ord x) (Some z) (Some (z + al - 1)) false).
  set (leaf := TrieNode_init j (Some (i - 1)) (Some gem) true).
  assert (length (children inode) = 91%nat) as Hwid by done.
  clearbody inode.
  set (h1 := h ++ [inode]).
  apply wp_bind, wp_gets. simpl. rewrite Hact. fold r.
  (* line 85 *)
  apply wp_bind, (wp_add_child_slot r rn); [by apply lookup_app_l_Some| |congruence].
  simpl. intros k' Hk'. assert (k' = k) as -> by congruence. clear Hk'.
  set (h2 := <[r := set_children (<[k := Some (length h)]> (children rn)) rn]> h1).
  assert (h2 !! ae = Some aen) as Hae2.
  { unfold h2, h1. rewrite list_lookup_insert_ne by done.
    by apply lookup_app_l_Some. }
  (* line 87 *)
  apply wp_bind, (wp_deref_at ae aen); [done|]. rewrite Hzs. simpl.
  apply wp_bind, wp_lift; [|done]. intros ? [= <-].
  apply wp_bind, (wp_update_node_at ae aen); [done|]. simpl. fold h2.
  set (aen3 := set_start_idx (Some (z + (al - 1))) aen).
  set (h3 := <[ae := aen3]> h2).
  assert (length h3 = S (length h)) as Hlen3.
  { unfold h3, h2, h1. rewrite !length_insert, length_app. simpl. lia. }
  assert (h3 !! ae = Some aen3) as Hae3.
  { apply list_lookup_insert_eq. by eapply lookup_lt_Some. }
  assert (h3 !! length h = Some inode) as Hni3.
  { unfold h3, h2, h1. rewrite !list_lookup_insert_ne by lia.
    by apply list_lookup_middle. }
  (* line 88 *)
  apply wp_bind, (wp_deref_at ae aen3); [done|]. simpl.
  apply wp_bind, wp_lift; [|done]. intros ? [= <-]. rewrite Hy.
  apply wp_bind, wp_lift; [|done]. intros ? [= <-].
  apply wp_bind, (wp_add_child_slot (length h) inode); [done| |];
    rewrite Hwid;
    [|intros Hnone; split; [done|right; intros [? ?]; congruence]].
  simpl. intros k1 Hk1. fold h2 h3.
  set (nin4 := set_children (<[k1 := Some ae]> (children inode)) inode).
  set (h4 := <[length h := nin4]> h3).
  assert (length h4 = S (length h)) as Hlen4
    by (unfold h4; by rewrite length_insert).
  (* line 91 *)
  apply wp_bind, wp_gets. apply wp_bind, wp_TrieNode_new. simpl.
  fold h2 h3 h4. fold gem. fold leaf.
  set (h5 := h4 ++ [leaf]).
  assert (h5 !! length h = Some nin4) as Hni5.
  { unfold h5. apply lookup_app_l_Some, list_lookup_insert_eq. lia. }
  (* line 92 *)
  apply wp_bind, wp_lift; [|done]. intros ? [= <-].
  apply wp_bind, (wp_add_child_slot (length h) nin4); [done| |];
    unfold nin4 at 1; cbn [children set_children];
    rewrite length_insert, Hwid;
    [|intros Hnone; split; [done|left; intros [? ?]; congruence]].
  simpl. intros k2 Hk2. fold h2 h3 h4 h5. rewrite Hlen4.
  set (nin6 := set_children
                 (<[k2 := Some (S (length h))]>
                    (<[k1 := Some ae]> (children inode))) inode).
  set (h6 := <[length h := nin6]> h5).
  assert (h6 = split_arena h r rn k ae aen (Some (z + (al - 1))) inode
                 k1 k2 leaf) as Hsplit.
  { unfold split_arena, h6, h5, h4. fold h1 h2 aen3 h3.
    fold nin6. rewrite <- insert_app_l by lia.
    by rewrite list_insert_insert_eq. }
  assert (h6 !! length h = Some nin6) as Hni6.
  { apply list_lookup_insert_eq. unfold h5. rewrite length_app. lia. }
  assert (length h6 = S (S (length h))) as Hlen6.
  { unfold h6, h5. rewrite length_insert, length_app. simpl. lia. }
  (* line 95 *)
  apply wp_bind, wp_gets. simpl.
  apply wp_bind, (wp_update_node_at (length h) nin6); [done|]. simpl.
  fold h r h1 h2 h3 h4 h5 h6.
  set (h7 := <[length h := set_suffix_link (Some r) nin6]> h6).
  assert (same_but_links h6 h7) as Hl7
    by (apply same_but_links_update; [apply same_but_links_refl|done]).
  (* lines 96-98 *)
  destruct last as [l|].
  - assert (∃ n7, h7 !! l = Some n7) as [n7 Hn7].
    { apply lookup_lt_is_Some. unfold h7. rewrite length_insert, Hlen6.
      specialize (Hl l eq_refl). lia. }
    apply wp_bind, (wp_update_node_at l n7); [done|]. simpl.
    apply wp_ret. exists k1, k2. split; [done|]. split; [done|].
    split; [|done]. rewrite <- Hsplit.
    by apply same_but_links_update.
  - apply wp_bind, wp_ret, wp_ret. exists k1, k2. split; [done|].
    split; [done|]. split; [|done]. by rewrite <- Hsplit.
Qed.

(** ** The builder grows the tree one suffix at a time *)

Section Growth.

Variable s : list Z.

Lemma blame_IndexError c w : c ∈ s → ¬ encodable c → blame s IndexError w.
Proof.
  intros Hc Hn. split; [|done]. intros Hall. destruct Hn.
  rewrite Forall_forall in Hall. by apply Hall.
Qed.

(** [traverse_path] from the root: a subscript fails only on a symbol
    without a slot, and the recursion ends within [length] calls when no
    edge below the root is empty. *)
Lemma wp_traverse_path_blame i j depth :
  ∀ a n len (Q : option addr → world → Prop)
    (E : exception → world → Prop) w,
  world_ok s w → shape s j (root (st w)) (arena (st w)) →
  starts_below j (root (st w)) (arena (st w)) →
  value (global_end_marker (st w)) = i → i ≤ Z.of_nat (length s) →
  arena (st w) !! a = Some n →
  (is_terminal n = false → 0 ≤ len ≤ i) →
  (∀ r, Q r w) →
  (∀ e, (Forall encodable s → e = RecursionError) →
        (e = RecursionError → slots_distinct s →
           (depth ≤ if is_terminal n then 0 else Z.to_nat len)%nat) →
        E e w) →
  wp (traverse_path depth (Some a) len) Q E w.
Proof.
  induction depth as [|depth IH];
    intros a n len Q E w Hw Hsh Hsb Hm Hi Hn Hlen HQ HE.
  { apply wp_raise, HE; [done|]. intros. lia. }
  pose proof (st_ok _ _ Hw) as [Htext Hact Htree Hids].
  destruct (root_ok _ _ _ Htree) as (rn & Hr & _).
  simpl. apply wp_bind, (wp_deref_at a n); [done|].
  destruct (is_terminal n) eqn:Ht; simpl; [by apply wp_ret|].
  destruct (Z.eqb_spec len 0) as [->|Hne]; [by apply wp_ret|].
  specialize (Hlen eq_refl).
  apply wp_bind, wp_gets. rewrite Hact.
  apply wp_bind, wp_gets. apply wp_bind, wp_gets. rewrite Htext, Hm.
  destruct (py_getitem_in_range s (i - len)) as (c & Hc & Hcl); [lia|].
  rewrite Hc. apply wp_bind, wp_lift; [|done]. intros ? [= <-].
  assert (length (children rn) = 91%nat) as Hwid by by eapply width_ok.
  apply wp_bind, (wp_get_child_at_slot _ rn); [done| |]; rewrite Hwid.
  2: { intros Hnone. apply HE; [|done]. intros Hall. exfalso.
       rewrite Forall_forall in Hall.
       destruct (Hall c) as [? ?]; [by eapply list_elem_of_lookup_2|].
       congruence. }
  intros k [child|] Hk Hchild; [|by apply wp_ret].
  destruct (Hsb _ _ _ Hr Hchild) as (cn & z & Hcn & Hz & Hzj).
  apply wp_bind, (wp_deref_at child cn); [done|].
  destruct (is_terminal cn) eqn:Hct.
  - unfold end_index. rewrite Hct, Hz. simpl.
    apply wp_bind, wp_lift; [|done]. intros ? [= <-].
    destruct (Z.ltb_spec len (-1 - z)); [lia|].
    apply (IH child cn); [done..|congruence|done|].
    intros e H1 H2. apply HE; [done|]. intros He Hd.
    specialize (H2 He Hd). rewrite Hct in H2. lia.
  - destruct (sh_edges _ _ _ _ Hsh _ _ _ _ Hr Hchild Hcn Hct)
      as (z' & en & Hz' & Hen & Hge & Hge1).
    unfold end_index. rewrite Hct, Hz', Hen. simpl.
    apply wp_bind, wp_lift; [|done]. intros ? [= <-].
    destruct (Z.ltb_spec len (en - z')); [by apply wp_ret|].
    apply (IH child cn); [done..|lia|done|].
    intros e H1 H2. apply HE; [done|]. intros He Hd.
    specialize (H2 He Hd). rewrite Hct in H2. specialize (Hge1 Hd). lia.
Qed.

Lemma wp_advance_frame i j j' last E w :
  loop_inv s i j' last w →
  wp (advance i j)
     (λ _ w', loop_inv s i j' last w' ∧
              arena (st w') = arena (st w) ∧ root (st w') = root (st w))
     E w.
Proof.
  intros Hli. pose proof (wp_advance s i j j' last w Hli) as H.
  unfold wp in *. destruct (advance i j w) as [[[]|e] w'] eqn:Hrun.
  - split; [done|]. revert Hrun.
    pose proof (st_ok _ _ (li_world _ _ _ _ _ Hli)) as [_ Hact Htree _].
    destruct (root_ok _ _ _ Htree) as (rn & Hr & _).
    unfold advance, gets, mbind, M_bind, deref, modify, record. simpl.
    rewrite Hact, Hr. by intros [= <-].
  - exfalso. revert Hrun.
    pose proof (st_ok _ _ (li_world _ _ _ _ _ Hli)) as [_ Hact Htree _].
    destruct (root_ok _ _ _ Htree) as (rn & Hr & _).
    unfold advance, gets, mbind, M_bind, deref, modify, record. simpl.
    rewrite Hact, Hr. done.
Qed.

Lemma slots_distinct_eq c c' k :
  slots_distinct s → c ∈ s → c' ∈ s →
  py_norm 91 (ord c - 36) = Some k → py_norm 91 (ord c' - 36) = Some k →
  c = c'.
Proof. intros Hd. apply Hd. Qed.

(** One extension: Rule 3 leaves the tree as it is, the other rules add
    the suffix that starts at [j]. *)
Lemma wp_extension_shape i j last w :
  loop_inv s i j last w → shape s j (root (st w)) (arena (st w)) →
  0 ≤ j < i → i ≤ Z.of_nat (length s) →
  wp (extension i j last)
     (λ r w',
        match r with
        | Some last' =>
            loop_inv s i (j + 1) last' w' ∧
            shape s (j + 1) (root (st w')) (arena (st w')) ∧
            (slots_distinct s → j = i - 1 → ¬ repeated s i)
        | None =>
            loop_inv s i j last w' ∧
            shape s j (root (st w')) (arena (st w')) ∧ repeated s i
        end)
     (blame s) w.
Proof.
  intros Hli Hsh Hj Hi.
  pose proof (li_world _ _ _ _ _ Hli) as Hw.
  pose proof (st_ok _ _ Hw) as [Htext Hact Htree Hids].
  unfold extension.
  apply wp_bind, wp_gets. apply wp_bind, wp_gets. rewrite Hact.
  destruct (decide _) as [_|]; [|done].
  apply wp_bind, wp_modify. apply wp_bind, wp_record. cbn [st history].
  set (x0 := with_active_length (i - j) (st w)).
  set (w1 := {| st := x0; history := (ExtensionStart i j, x0) :: history w |}).
  assert (loop_inv s i j last w1) as Hli1.
  { apply (loop_inv_record s i j last _ {| st := x0; history := history w |}).
    - by apply loop_inv_attrs.
    - split; [apply Hli|done].
    - done. }
  assert (active_length (st w1) = i - j) as Hal by done.
  assert (shape s j (root (st w1)) (arena (st w1))) as Hsh1 by done.
  clearbody w1. clear dependent w. rename w1 into w.
  pose proof (li_world _ _ _ _ _ Hli1) as Hw.
  pose proof (li_starts _ _ _ _ _ Hli1) as Hsb.
  pose proof (li_marker _ _ _ _ _ Hli1) as Hm.
  pose proof (st_ok _ _ Hw) as [Htext Hact Htree Hids].
  destruct (root_ok _ _ _ Htree) as (rn & Hr & Hrt & _).
  apply wp_bind, wp_gets. apply wp_bind, wp_gets. rewrite Hact, Hal.
  apply wp_bind,
    (wp_traverse_path_blame i j _ (root (st w)) rn (i - j));
    [done|done|done|done|done|done|lia| |].
  2: { intros e H1 H2. split; [done|]. intros He Hd.
       specialize (H2 He Hd). rewrite Hrt in H2. lia. }
  intros _.
  apply wp_bind, wp_gets. apply wp_bind, wp_gets. rewrite Htext, Hal.
  replace (i - (i - j)) with j by lia.
  destruct (py_getitem_in_range s j) as (c & Hc & Hcl); [lia|].
  rewrite Hc. apply wp_bind, wp_lift; [|done]. intros ? [= <-].
  assert (c ∈ s) as Hcs by by eapply list_elem_of_lookup_2.
  assert (length (children rn) = 91%nat) as Hwid by by eapply width_ok.
  apply wp_bind, wp_gets. rewrite Hact.
  apply wp_bind, (wp_get_child_at_slot _ rn); [done| |].
  2: { rewrite Hwid. intros Hnone. apply (blame_IndexError c); [done|].
       intros [? ?]. congruence. }
  intros k child Hk Hchild.
  assert (py_norm 91 (ord c - 36) = Some k) as Hk91 by by rewrite <- Hwid.
  assert (slot_of s j k) as Hslot by by exists c.
  destruct (py_getitem_in_range s (i - 1)) as (x & Hx & Hxl); [lia|].
  assert (x ∈ s) as Hxs by by eapply list_elem_of_lookup_2.
  assert (child = None → slots_distinct s → j = i - 1 → ¬ repeated s i)
    as Hfresh.
  { intros -> Hd Hji (p & Hp & Heq).
    destruct (sh_tree _ _ _ _ Hsh1) as (ts & Hrepr & _ & Hperm & _ & Hbk).
    assert (p ∈ leaves (Node ts)) as Hin.
    { rewrite (Hperm Hd). apply elem_of_seqZ. lia. }
    destruct (leaves_elem _ _ Hin) as (k' & t & Ht & Hpt).
    destruct (Hbk _ _ _ Ht Hpt) as (c' & Hc' & Hk').
    assert (c' = c) as ->.
    { rewrite Heq in Hc'. replace (i - 1) with j in Hc' by lia. congruence. }
    assert (k' = k) as -> by congruence.
    inversion Hrepr as [| |? rn0 ? Hr0 _ Hkids]; subst.
    assert (rn0 = rn) as -> by congruence.
    destruct (Forall2_lookup_l _ _ _ _ _ Hkids Hchild) as (t0 & Ht0 & Hrep0).
    assert (t0 = t) as -> by congruence.
    inversion Hrep0; subst. by apply elem_of_nil in Hpt. }
  destruct child as [ae|].
  - (* the slot is taken *)
    rewrite Hx. apply wp_bind, wp_bind, wp_lift; [|done]. intros ? [= <-].
    destruct (starts_below_edge _ _ _ _ _ _ Hsb Hr Hchild) as (z & Hz & Hzj).
    pose proof Hz as (aen & Haen & Hzs).
    apply wp_bind, (wp_deref_at ae aen); [done|]. rewrite Hzs. simpl.
    apply wp_bind, wp_lift; [|done]. intros ? [= <-].
    destruct (py_getitem_in_range s (z + (i - j) - 1)) as (y & Hy & Hyl);
      [lia|].
    assert (y ∈ s) as Hys by by eapply list_elem_of_lookup_2.
    rewrite Hy. apply wp_bind, wp_lift; [|done]. intros ? [= <-].
    destruct (decide (x = y)) as [<-|Hne].
    + (* Rule 3 *)
      apply wp_ret, wp_ret. split; [done|]. split; [done|].
      exists (z + (i - j) - 1). split; [lia|congruence].
    + (* Rule 2.2 *)
      assert (ae ≠ root (st w)) as Haer.
      { intros ->. exact (sh_root _ _ _ _ Hsh1 _ _ _ Hr Hchild). }
      assert (slots_distinct s → i - j ≠ 1) as Hlong.
      { intros Hd Hone. apply Hne.
        destruct (slot_ok _ _ _ Htree _ _ _ _ Hr Hchild)
          as (aen' & z' & ch & Haen' & Hz' & Hch & Hkch).
        assert (aen' = aen) as -> by congruence.
        assert (z' = z) as -> by congruence.
        replace (z + (i - j) - 1) with z in Hy by lia.
        assert (ch = y) as -> by congruence.
        replace (i - 1) with j in Hx by lia.
        assert (x = c) as -> by congruence.
        exact (slots_distinct_eq c y k Hd Hcs Hys Hk91 Hkch). }
      apply wp_bind.
      eapply wp_mono;
        [apply wp_conj;
           [by eapply (wp_split_rule s i j _ c k rn ae)
           |eapply (split_rule_effect s i j _ ae last k rn aen z x y);
              [done|done|done|done|done|done|done|done| |]]| |].
      * rewrite Hal. by replace (z + (i - j - 1)) with (z + (i - j) - 1) by lia.
      * intros l Hl. by destruct (li_last _ _ _ _ _ Hli1 l Hl).
      * intros last' w' [(Hli' & Hal' & _) (k1 & k2 & Hk1 & Hk2 & Hlk & Hroot)].
        apply wp_ret, wp_bind.
        eapply wp_mono; [by eapply wp_advance_frame| |done].
        intros [] w'' (Hli'' & Har & Hro). apply wp_ret.
        split; [done|].
        split; [|intros Hd Hji; destruct (Hlong Hd); lia].
        rewrite Har, Hro, Hroot.
        eapply shape_links; [done|].
        eapply (shape_split s j _ _ rn k ae aen _ _ z (z + (i - j) - 1));
          [done|done|lia|done|done|done|done|done|done| |lia| |done|done|done
          |by eapply py_norm_lt|by eapply py_norm_lt| |done].
        -- simpl. by rewrite Hal.
        -- intros Hd. specialize (Hlong Hd). lia.
        -- intros Hd ->. apply Hne.
           exact (slots_distinct_eq x y k2 Hd Hxs Hys Hk2 Hk1).
      * intros e w' [_ [-> [Hn|Hn]]];
          [exact (blame_IndexError x _ Hxs Hn)
          |exact (blame_IndexError y _ Hys Hn)].
  - (* Rule 2.1 *)
    apply wp_bind, wp_bind.
    eapply wp_mono;
      [apply wp_conj;
         [by eapply (wp_new_leaf_rule s i j _ c k rn)
         |by eapply (new_leaf_rule_effect i j _ k rn (λ _ _, False))]| |].
    + intros [] w' [(Hli' & Hal') (Har & Hroot)].
      apply wp_ret, wp_bind.
      eapply wp_mono; [by eapply wp_advance_frame| |done].
      intros [] w'' (Hli'' & Har' & Hro). apply wp_ret.
      split; [done|]. split; [|by apply Hfresh].
      rewrite Har', Hro, Hroot, Har.
      apply shape_leaf; [done|done|lia|done|done|done|done|done|done].
    + intros e w' [_ []].
Qed.

Lemma wp_extensions_shape fuel i j last w :
  loop_inv s i j last w → shape s j (root (st w)) (arena (st w)) →
  0 ≤ j ≤ i → i ≤ Z.of_nat (length s) → (Z.to_nat (i - j) ≤ fuel)%nat →
  wp (extensions fuel i j last)
     (λ j' w', loop_inv s i j' None w' ∧
               shape s j' (root (st w')) (arena (st w')) ∧
               j ≤ j' ≤ i ∧
               ((j' = i ∧ (j < i → slots_distinct s → ¬ repeated s i)) ∨
                (j' < i ∧ repeated s i)))
     (blame s) w.
Proof.
  revert j last w.
  induction fuel as [|fuel IH]; intros j last w Hli Hsh Hj Hi Hf.
  - apply wp_ret. split; [by eapply loop_inv_forget|]. split; [done|].
    split; [lia|]. left. split; [lia|]. intros. lia.
  - simpl. destruct (Z.ltb_spec j i) as [Hlt|Hge].
    + apply wp_bind.
      eapply wp_mono; [eapply wp_extension_shape; [done|done|lia|done]| |done].
      intros [last'|] w'.
      * intros (Hli' & Hsh' & Hfresh).
        eapply wp_mono; [eapply IH; [done|done|lia|done|lia]| |done].
        intros j' w'' (? & ? & ? & Hend). split; [done|]. split; [done|].
        split; [lia|]. destruct Hend as [[-> Hend]|?]; [left|by right].
        split; [done|]. intros _ Hd.
        destruct (decide (j = i - 1)); [by apply Hfresh|apply Hend; [lia|done]].
      * intros (Hli' & Hsh' & Hrep). apply wp_ret.
        split; [by eapply loop_inv_forget|]. split; [done|].
        split; [lia|by right].
    + apply wp_ret. split; [by eapply loop_inv_forget|]. split; [done|].
      split; [lia|]. left. split; [lia|]. intros. lia.
Qed.

Lemma wp_phase_shape i j w :
  loop_inv s (i - 1) j None w → shape s j (root (st w)) (arena (st w)) →
  0 ≤ j ≤ i → (1 ≤ i → j < i) → i ≤ Z.of_nat (length s) →
  wp (phase i j)
     (λ j' w', loop_inv s i j' None w' ∧
               shape s j' (root (st w')) (arena (st w')) ∧
               j ≤ j' ≤ i ∧ caught_up s i j')
     (blame s) w.
Proof.
  intros [Hw Hsb Hm _] Hsh Hj Hj1 Hi.
  pose proof Hw as [Hst Hhist Hph Hmk].
  unfold phase. apply wp_bind, wp_modify. apply wp_bind, wp_record.
  cbn [st history].
  set (x := with_global_end_marker _ (st w)).
  assert (value (global_end_marker x) = i) as Hx by (simpl; lia).
  assert (store_ok s x) as Hstx by by destruct Hst.
  eapply wp_mono; [eapply (wp_extensions_shape _ i j None)| |done].
  - split; [|done|done|done]. split; cbn [st history]; [done| | |lia].
    + by constructor.
    + rewrite phase_starts_cons, Hph, Hx, Hm.
      replace (i - 1 + 1) with i by lia.
      rewrite (seqZ_app 0 i 1) by lia.
      rewrite fmap_app, reverse_app. simpl. by rewrite Z.add_0_l.
  - done.
  - done.
  - done.
  - done.
  - intros j' w' (? & ? & ? & Hc). split; [done|]. split; [done|].
    split; [done|]. destruct (decide (i ≤ 0)); [by left|]. right.
    destruct Hc as [[-> Hc]|?]; [left|by right].
    split; [done|]. apply Hc. lia.
Qed.

Lemma wp_phases_shape n a j w :
  loop_inv s (a - 1) j None w → shape s j (root (st w)) (arena (st w)) →
  0 ≤ j ≤ a → (1 ≤ a → j < a) →
  a + Z.of_nat n ≤ Z.of_nat (length s) + 1 →
  caught_up s (a - 1) j →
  wp (phases (seqZ a (Z.of_nat n)) j)
     (λ j' w', loop_inv s (a + Z.of_nat n - 1) j' None w' ∧
               shape s j' (root (st w')) (arena (st w')) ∧
               0 ≤ j' ≤ j `max` (a + Z.of_nat n - 1) ∧
               caught_up s (a + Z.of_nat n - 1) j')
     (blame s) w.
Proof.
  revert a j w. induction n as [|n IH]; intros a j w Hli Hsh Hj Hj1 Hn Hc.
  - simpl. apply wp_ret.
    replace (a + Z.of_nat 0 - 1) with (a - 1) by lia.
    split; [done|]. split; [done|]. split; [lia|done].
  - rewrite seqZ_cons by lia. simpl.
    replace (Z.pred (Z.of_nat (S n))) with (Z.of_nat n) by lia.
    apply wp_bind.
    eapply wp_mono; [eapply wp_phase_shape; [done|done|done|done|lia]| |done].
    intros j' w' (Hli' & Hsh' & Hj' & Hc').
    replace (a + Z.of_nat (S n) - 1) with (Z.succ a + Z.of_nat n - 1) by lia.
    eapply wp_mono; [apply IH; [|done|lia|lia|lia|]| |done].
    + by replace (Z.succ a - 1) with a by lia.
    + by replace (Z.succ a - 1) with a by lia.
    + intros j'' w'' (? & ? & ? & ?). split; [done|]. split; [done|].
      split; [lia|done].
Qed.

Lemma wp_build_shape w :
  loop_inv s (-1) 0 None w → shape s 0 (root (st w)) (arena (st w)) →
  wp build_suffix_tree
     (λ _ w', ∃ j, world_ok s w' ∧
        shape s j (root (st w')) (arena (st w')) ∧
        0 ≤ j ≤ Z.of_nat (length s) ∧
        caught_up s (Z.of_nat (length s)) j)
     (blame s) w.
Proof.
  intros Hli Hsh. pose proof (li_world _ _ _ _ _ Hli) as Hw.
  unfold build_suffix_tree. apply wp_bind, wp_gets.
  rewrite (text_ok _ _ (st_ok _ _ Hw)).
  apply wp_bind.
  replace (Z.of_nat (length s) + 1) with (Z.of_nat (S (length s))) by lia.
  eapply wp_mono;
    [eapply (wp_phases_shape _ 0 0); [done|done|lia|lia|lia|]| |done].
  - left. lia.
  - intros j' w' (Hli' & Hsh' & Hj' & Hc'). apply wp_ret.
    replace (0 + Z.of_nat (S (length s)) - 1) with (Z.of_nat (length s))
      in * by lia.
    exists j'. split; [apply Hli'|]. split; [done|]. split; [lia|done].
Qed.

End Growth.

(** ** The builder leaves [suffix_ids] alone *)

Lemma keeps_pure {A} (m : M A) : pure_op m → keeps_ids m.
Proof. intros H w. by rewrite H. Qed.

Lemma keeps_bind {A B} (m : M A) (k : A → M B) :
  keeps_ids m → (∀ a, keeps_ids (k a)) → keeps_ids (m ≫= k).
Proof.
  intros Hm Hk w. unfold mbind, M_bind. specialize (Hm w).
  destruct (m w) as [[a|e] w']; simpl in *; [by rewrite Hk|done].
Qed.

Lemma keeps_modify f :
  (∀ x, suffix_ids (f x) = suffix_ids x) → keeps_ids (modify f).
Proof. intros Hf w. apply Hf. Qed.

Lemma keeps_record p : keeps_ids (record p).
Proof. done. Qed.

Lemma keeps_update_node a f : keeps_ids (update_node a f).
Proof.
  apply keeps_bind; [apply keeps_pure, pure_deref|]. intros n.
  apply keeps_bind; [by apply keeps_modify|]. intros _. apply keeps_record.
Qed.

Lemma keeps_TrieNode_new id start e t : keeps_ids (TrieNode_new id start e t).
Proof. done. Qed.

Lemma keeps_add_child self pos c : keeps_ids (add_child self pos c).
Proof.
  apply keeps_bind; [apply keeps_pure, pure_deref|]. intros n.
  apply keeps_bind; [apply keeps_pure, pure_lift|]. intros cs.
  destruct self; [apply keeps_update_node|apply keeps_pure, pure_raise].
Qed.

Ltac keeps_step :=
  lazymatch goal with
  | |- keeps_ids (update_node _ _) => apply keeps_update_node
  | |- keeps_ids (add_child _ _ _) => apply keeps_add_child
  | |- keeps_ids (TrieNode_new _ _ _ _) => apply keeps_TrieNode_new
  | |- keeps_ids (record _) => apply keeps_record
  | |- keeps_ids (modify _) => by apply keeps_modify
  | |- keeps_ids (traverse_path _ _ _) => apply keeps_pure, pure_traverse_path
  | |- keeps_ids (get_child_at _ _) => apply keeps_pure, pure_get_child_at
  | |- keeps_ids (deref _) => apply keeps_pure, pure_deref
  | |- keeps_ids (lift _) => apply keeps_pure, pure_lift
  | |- keeps_ids (gets _) => apply keeps_pure, pure_gets
  | |- keeps_ids (mret _) => apply keeps_pure, pure_ret
  | |- keeps_ids (raise _) => apply keeps_pure, pure_raise
  | |- keeps_ids (_ ≫= _) => apply keeps_bind; [|intros ?; cbv beta]
  | |- keeps_ids (match ?x with _ => _ end) => destruct x
  end.

Lemma keeps_new_leaf_rule i j pos : keeps_ids (new_leaf_rule i j pos).
Proof. unfold new_leaf_rule. repeat keeps_step. Qed.

Lemma keeps_split_rule i j pos ae last : keeps_ids (split_rule i j pos ae last).
Proof. unfold split_rule. repeat keeps_step. Qed.

Lemma keeps_advance i j : keeps_ids (advance i j).
Proof. unfold advance. repeat keeps_step. Qed.

Lemma keeps_extension i j last : keeps_ids (extension i j last).
Proof.
  unfold extension. repeat keeps_step.
  - apply keeps_split_rule.
  - apply keeps_new_leaf_rule.
  - apply keeps_advance.
Qed.

Lemma keeps_extensions fuel i j last : keeps_ids (extensions fuel i j last).
Proof.
  revert j last. induction fuel as [|fuel IH]; intros j last; [done|].
  simpl. destruct (j <? i); [|done].
  apply keeps_bind; [apply keeps_extension|]. intros [l|]; [apply IH|done].
Qed.

Lemma keeps_phases range j : keeps_ids (phases range j).
Proof.
  revert j. induction range as [|i range IH]; intros j; [done|].
  simpl. apply keeps_bind; [|intros ?; apply IH].
  unfold phase. repeat keeps_step. apply keeps_extensions.
Qed.

Lemma keeps_build_suffix_tree : keeps_ids build_suffix_tree.
Proof.
  unfold build_suffix_tree. repeat keeps_step. apply keeps_phases.
Qed.

Lemma wp_keeps_ids {A} (m : M A) w :
  keeps_ids m →
  wp m (λ _ w', suffix_ids (st w') = suffix_ids (st w))
       (λ _ w', suffix_ids (st w') = suffix_ids (st w)) w.
Proof.
  intros H. specialize (H w). unfold wp. by destruct (m w) as [[a|e] w'].
Qed.

(** ** The constructor, from the empty tree to the collected ids *)

Lemma init_shape input :
  shape (input ++ str "$") 0 (root (init_store [] input))
    (arena (init_store [] input)).
Proof.
  split.
  - intros [|a] n k; [|done]. intros [= <-] Hk.
    destruct (lookup_replicate_None 91%nat k _ Hk).
  - simpl. lia.
  - exists (replicate 91 Empty). split; [|split; [|split; [|split]]].
    + eapply (repr_node _ 0%nat); [done|done|].
      apply (Forall2_replicate (repr _) 91 None Empty). constructor.
    + rewrite leaves_replicate_Empty. apply submseteq_nil_l.
    + intros _. by rewrite leaves_replicate_Empty.
    + rewrite height_replicate_Empty. lia.
    + intros k t id [-> _]%lookup_replicate. by intros ?%elem_of_nil.
  - intros rn k c cn. intros [= <-] Hk.
    destruct (lookup_replicate_None 91%nat k _ Hk).
Qed.

Lemma retrieve_depth_traverse_depth : retrieve_depth = S traverse_depth.
Proof. reflexivity. Qed.

(** What the constructor leaves in [suffix_ids]: the leaves of the tree
    after [j] extensions, slot by slot. *)
Lemma run_shape input :
  let s := input ++ str "$" in
  wp UkkonenSuffixTree_init
     (λ _ w', ∃ j ts,
        0 ≤ j ≤ Z.of_nat (length s) ∧
        caught_up s (Z.of_nat (length s)) j ∧
        suffix_ids (st w') = leaves (Node ts) ∧
        leaves (Node ts) ⊆+ seqZ 0 j ∧
        (slots_distinct s → leaves (Node ts) ≡ₚ seqZ 0 j) ∧
        (∀ k t id, ts !! k = Some t → id ∈ leaves t → slot_of s id k) ∧
        Z.of_nat (length (arena (st w'))) ≤ 1 + 2 * j)
     (blame s) (init_world [] input).
Proof.
  intros s. unfold UkkonenSuffixTree_init. apply wp_bind.
  eapply wp_mono;
    [apply wp_conj;
       [apply (wp_build_shape s); [apply init_world_ok|apply init_shape]
       |apply wp_keeps_ids, keeps_build_suffix_tree]| |].
  - intros [] w' [(j & Hw' & Hsh & Hj & Hc) Hids].
    destruct Hsh as [Hun Hsz (ts & Hrepr & Hsub & Hperm & Hht & Hbk) Hed].
    apply wp_bind, wp_gets.
    eapply wp_mono; [by eapply wp_retrieve_repr| |].
    + intros [] w'' [Hids'' Har'']. exists j, ts.
      rewrite Hids'', Hids, Har''. done.
    + intros e w'' [-> Hd]. split; [done|]. intros _ _.
      rewrite retrieve_depth_traverse_depth in Hd. lia.
  - by intros e w' [? _].
Qed.

(** ** Texts over the symbols the child table is made for *)

Lemma supported_slot c :
  supported c → py_norm 91 (ord c - 36) = Some (Z.to_nat (c - 36)).
Proof.
  intros [? ?]. rewrite py_norm_91. unfold ord.
  destruct (decide _); [done|lia].
Qed.


Lemma slots_distinct_supported s : Forall supported s → slots_distinct s.
Proof.
  intros Hs c c' k Hc Hc' Hk Hk'. rewrite Forall_forall in Hs.
  destruct (Hs c Hc), (Hs c' Hc').
  rewrite (supported_slot c) in Hk by auto.
  rewrite (supported_slot c') in Hk' by auto.
  injection Hk as <-. injection Hk' as Hk'. lia.
Qed.

Lemma text_supported input :
  Forall supported input → Forall supported (input ++ str "$").
Proof.
  intros H. apply Forall_app. split; [done|].
  constructor; [|constructor]. by vm_compute.
Qed.

Lemma text_length input :
  Z.of_nat (length (input ++ str "$")) = Z.of_nat (length input) + 1.
Proof. rewrite length_app. change (length (str "$")) with 1%nat. lia. Qed.

Lemma terminator_not_repeated input :
  36 ∉ input →
  ¬ repeated (input ++ str "$") (Z.of_nat (length (input ++ str "$"))).
Proof.
  intros Hno (p & Hp & Heq). rewrite text_length in Hp, Heq.
  replace (Z.to_nat (Z.of_nat (length input) + 1 - 1)) with (length input)
    in Heq by lia.
  assert ((input ++ str "$") !! length input = Some 36) as Hm
    by by apply list_lookup_middle.
  rewrite Hm in Heq. rewrite lookup_app_l in Heq by lia.
  apply Hno. by eapply list_elem_of_lookup_2.
Qed.

Lemma caught_up_terminator input j :
  36 ∉ input →
  caught_up (input ++ str "$") (Z.of_nat (length (input ++ str "$"))) j →
  j = Z.of_nat (length (input ++ str "$")).
Proof.
  intros Hno [H|[[H _]|[_ H]]]; [rewrite text_length in H; lia|done|].
  by destruct (terminator_not_repeated input Hno).
Qed.

Lemma terminator_repeated input :
  36 ∈ input →
  repeated (input ++ str "$") (Z.of_nat (length (input ++ str "$"))).
Proof.
  intros [p Hp]%list_elem_of_lookup_1. pose proof (lookup_lt_Some _ _ _ Hp).
  exists (Z.of_nat p). rewrite text_length. split; [lia|].
  replace (Z.to_nat (Z.of_nat (length input) + 1 - 1)) with (length input)
    by lia.
  assert ((input ++ str "$") !! length input = Some 36) as Hm
    by by apply list_lookup_middle.
  rewrite Hm, Nat2Z.id. by apply lookup_app_l_Some.
Qed.

Lemma caught_up_short input j :
  Forall supported input → 36 ∈ input →
  caught_up (input ++ str "$") (Z.of_nat (length (input ++ str "$"))) j →
  j < Z.of_nat (length (input ++ str "$")).
Proof.
  intros Hsup Hin [H|[[_ H]|[H _]]]; [rewrite text_length in H; lia| |done].
  destruct H; [|by apply terminator_repeated].
  by apply slots_distinct_supported, text_supported.
Qed.

Lemma not_all_encodable s :
  ¬ Forall encodable s → ∃ c, c ∈ s ∧ ¬ encodable c.
Proof.
  induction s as [|c s IH]; intros H; [by destruct H|].
  destruct (decide (-55 ≤ c ≤ 126)) as [Hc|Hc].
  - destruct IH as (c' & ? & ?).
    + intros Hs. apply H. constructor; [by apply encodable_bounds|done].
    + exists c'. split; [by right|done].
  - exists c. split; [by left|]. by rewrite encodable_bounds.
Qed.

(** ** What a run of the constructor ends in *)

Lemma run_collects input :
  (UkkonenSuffixTree [] input).1 = Ok tt →
  ∃ j ts,
    0 ≤ j ≤ Z.of_nat (length (input ++ str "$")) ∧
    caught_up (input ++ str "$") (Z.of_nat (length (input ++ str "$"))) j ∧
    suffix_ids (st (UkkonenSuffixTree [] input).2) = leaves (Node ts) ∧
    leaves (Node ts) ⊆+ seqZ 0 j ∧
    (slots_distinct (input ++ str "$") → leaves (Node ts) ≡ₚ seqZ 0 j) ∧
    (∀ k t id, ts !! k = Some t → id ∈ leaves t →
       slot_of (input ++ str "$") id k) ∧
    Z.of_nat (length (arena (st (UkkonenSuffixTree [] input).2))) ≤ 1 + 2 * j.
Proof.
  intros Hrun. pose proof (wp_run _ _ _ _ (run_shape input)) as H.
  change (UkkonenSuffixTree_init (init_world [] input))
    with (UkkonenSuffixTree [] input) in H.
  by rewrite Hrun in H.
Qed.

Lemma run_blames input e :
  (UkkonenSuffixTree [] input).1 = Raise e →
  blame (input ++ str "$") e (UkkonenSuffixTree [] input).2.
Proof.
  intros Hrun. pose proof (wp_run _ _ _ _ (run_shape input)) as H.
  change (UkkonenSuffixTree_init (init_world [] input))
    with (UkkonenSuffixTree [] input) in H.
  by rewrite Hrun in H.
Qed.

Lemma submseteq_NoDup {A} (l k : list A) : l ⊆+ k → NoDup k → NoDup l.
Proof.
  intros (l' & Hp & Hs)%submseteq_sublist_r Hk. rewrite Hp.
  by eapply sublist_NoDup.
Qed.

Lemma run_ids_distinct input :
  (UkkonenSuffixTree [] input).1 = Ok tt →
  NoDup (suffix_ids (st (UkkonenSuffixTree [] input).2)) ∧
  ∀ id, id ∈ suffix_ids (st (UkkonenSuffixTree [] input).2) →
    0 ≤ id ≤ Z.of_nat (length input).
Proof.
  intros (j & ts & Hj & _ & -> & Hsub & _)%run_collects.
  rewrite text_length in Hj. split.
  - eapply submseteq_NoDup; [done|apply NoDup_seqZ].
  - intros id Hid. apply (elem_of_submseteq _ _ _ Hid) in Hsub.
    apply elem_of_seqZ in Hsub. lia.
Qed.

Lemma run_ids_permutation input :
  Forall supported input → 36 ∉ input →
  (UkkonenSuffixTree [] input).1 = Ok tt →
  suffix_ids (st (UkkonenSuffixTree [] input).2)
    ≡ₚ seqZ 0 (Z.of_nat (length input) + 1).
Proof.
  intros Hsup Hno (j & ts & Hj & Hc & -> & _ & Hperm & _)%run_collects.
  apply (caught_up_terminator _ _ Hno) in Hc. subst j.
  rewrite <- text_length.
  by apply Hperm, slots_distinct_supported, text_supported.
Qed.


(** ** The position-to-rank mapping *)

Lemma fill_dict_lookup_Some ids i (d : gmap Z Z) p r :
  NoDup ids →
  fill_dict ids i d !! p = Some r ↔
  (∃ idx, ids !! idx = Some p ∧ r = i + Z.of_nat idx + 1) ∨
  ((p ∉ ids) ∧ d !! p = Some r).
Proof.
  revert i d. induction ids as [|x ids IH]; intros i d Hnd.
  - simpl. split.
    + intros H. right. split; [apply not_elem_of_nil|done].
    + by intros [(idx & H & _)|[_ H]].
  - inversion Hnd as [|? ? Hx Hnd']; subst. simpl. rewrite (IH _ _ Hnd').
    split.
    + intros [(idx & Hidx & ->)|[Hp H]].
      * left. exists (S idx). split; [done|lia].
      * apply lookup_insert_Some in H as [[-> <-]|[Hne H]].
        -- left. exists 0%nat. split; [done|lia].
        -- right. split; [|done]. by apply not_elem_of_cons.
    + intros [([|idx] & Hidx & ->)|[Hp H]].
      * injection Hidx as ->. right. split; [done|].
        rewrite lookup_insert_eq. f_equal. lia.
      * left. exists idx. split; [done|lia].
      * apply not_elem_of_cons in Hp as [? ?]. right. split; [done|].
        by rewrite lookup_insert_ne.
Qed.

Lemma rank_mapping_lookup x p r :
  NoDup (suffix_ids x) →
  rank_mapping x !! p = Some r ↔
  1 ≤ r ∧ suffix_ids x !! Z.to_nat (r - 1) = Some p.
Proof.
  intros Hnd. unfold rank_mapping.
  rewrite sort_dict_id, (fill_dict_lookup_Some _ _ _ _ _ Hnd). split.
  - intros [(idx & Hidx & ->)|[_ H]]; [|by rewrite lookup_empty in H].
    split; [lia|]. by replace (Z.to_nat (0 + Z.of_nat idx + 1 - 1)) with idx by lia.
  - intros [Hr Hp]. left. exists (Z.to_nat (r - 1)). split; [done|lia].
Qed.


Lemma leaves_order ts a b x y :
  (a < b)%nat →
  leaves (Node ts) !! a = Some x → leaves (Node ts) !! b = Some y →
  ∃ k1 k2 t1 t2, (k1 ≤ k2)%nat ∧
    ts !! k1 = Some t1 ∧ x ∈ leaves t1 ∧ ts !! k2 = Some t2 ∧ y ∈ leaves t2.
Proof.
  assert (∀ ts b y, leaves (Node ts) !! b = Some y →
            ∃ k t, ts !! k = Some t ∧ y ∈ leaves t) as Hin.
  { clear. induction ts as [|t ts IH]; intros b y Hb; [done|].
    change (leaves (Node (t :: ts))) with (leaves t ++ leaves (Node ts)) in Hb.
    apply lookup_app_Some in Hb as [Hb|[_ Hb]].
    - exists 0%nat, t. split; [done|]. by eapply list_elem_of_lookup_2.
    - destruct (IH _ _ Hb) as (k & t' & ? & ?). by exists (S k), t'. }
  revert a b. induction ts as [|t ts IH]; intros a b Hab Ha Hb; [done|].
  change (leaves (Node (t :: ts))) with (leaves t ++ leaves (Node ts)) in Ha, Hb.
  apply lookup_app_Some in Ha as [Ha|[Hla Ha]].
  - apply lookup_app_Some in Hb as [Hb|[_ Hb]].
    + exists 0%nat, 0%nat, t, t. split; [done|].
      split; [done|]. split; [by eapply list_elem_of_lookup_2|].
      split; [done|]. by eapply list_elem_of_lookup_2.
    + destruct (Hin _ _ _ Hb) as (k & t' & ? & ?).
      exists 0%nat, (S k), t, t'. split; [lia|].
      split; [done|]. split; [by eapply list_elem_of_lookup_2|]. done.
  - apply lookup_app_Some in Hb as [Hb|[Hlb Hb]].
    + apply lookup_lt_Some in Hb. lia.
    + destruct (IH (a - length (leaves t))%nat (b - length (leaves t))%nat)
        as (k1 & k2 & t1 & t2 & ? & ? & ? & ? & ?); [lia|done|done|].
      exists (S k1), (S k2), t1, t2. split; [lia|done].
Qed.

Lemma get_child_at_run a n pos w :
  arena (st w) !! a = Some n →
  (get_child_at (Some a) pos w).1 = py_getitem (children n) pos.
Proof.
  intros Hn. unfold get_child_at, mbind, M_bind, deref. rewrite Hn.
  unfold lift. done.
Qed.

Lemma add_child_run a n pos c w w' :
  arena (st w) !! a = Some n →
  add_child (Some a) pos c w = (Ok tt, w') →
  ∃ k, py_norm (length (children n)) pos = Some k ∧
    arena (st w') = <[a := set_children (<[k := c]> (children n)) n]> (arena (st w)).
Proof.
  intros Hn Hadd.
  pose proof (wp_add_child_slot a n pos c
    (λ _ w', ∃ k, py_norm (length (children n)) pos = Some k ∧
       arena (st w') =
         <[a := set_children (<[k := c]> (children n)) n]> (arena (st w)))
    (λ _ _, True) w Hn) as H.
  unfold wp in H. rewrite Hadd in H. apply H; [|done].
  intros k Hk. by exists k.
Qed.

Lemma py_getitem_replicate {A} (x : A) pos :
  py_getitem (replicate 91 x) pos =
  if decide (-91 ≤ pos < 91) then Ok x else Raise IndexError.
Proof.
  unfold py_getitem. rewrite length_replicate, py_norm_91.
  repeat case_decide; try lia; try done;
    by rewrite lookup_replicate_2 by lia.
Qed.

Lemma run_ids_first_symbol_order input a b p1 p2 :
  Forall supported input →
  (UkkonenSuffixTree [] input).1 = Ok tt →
  (a < b)%nat →
  suffix_ids (st (UkkonenSuffixTree [] input).2) !! a = Some p1 →
  suffix_ids (st (UkkonenSuffixTree [] input).2) !! b = Some p2 →
  ∃ c1 c2,
    (input ++ str "$") !! Z.to_nat p1 = Some c1 ∧
    (input ++ str "$") !! Z.to_nat p2 = Some c2 ∧ c1 ≤ c2.
Proof.
  intros Hsup (j & ts & _ & _ & -> & _ & _ & Hbk & _)%run_collects Hab Ha Hb.
  destruct (leaves_order _ _ _ _ _ Hab Ha Hb)
    as (k1 & k2 & t1 & t2 & Hk & Ht1 & Hin1 & Ht2 & Hin2).
  destruct (Hbk _ _ _ Ht1 Hin1) as (c1 & Hc1 & Hs1).
  destruct (Hbk _ _ _ Ht2 Hin2) as (c2 & Hc2 & Hs2).
  exists c1, c2. split; [done|]. split; [done|].
  pose proof (text_supported _ Hsup) as Hs. rewrite Forall_forall in Hs.
  assert (supported c1) as Hsup1 by by eapply Hs, list_elem_of_lookup_2.
  assert (supported c2) as Hsup2 by by eapply Hs, list_elem_of_lookup_2.
  rewrite (supported_slot _ Hsup1) in Hs1.
  rewrite (supported_slot _ Hsup2) in Hs2.
  destruct Hsup1, Hsup2. injection Hs1 as <-. injection Hs2 as <-. lia.
Qed.

Lemma lex_lt_irrefl l : lex_lt l l = false.
Proof.
  induction l as [|x l IH]; [done|]. simpl. rewrite IH.
  rewrite Z.ltb_irrefl. by rewrite andb_false_r.
Qed.

Lemma lex_lt_drop (s : list Z) p1 p2 c1 c2 :
  s !! p1 = Some c1 → s !! p2 = Some c2 → c1 ≠ c2 →
  lex_lt (drop p1 s) (drop p2 s) = bool_decide (c1 < c2).
Proof.
  intros H1 H2 Hne.
  rewrite (drop_S _ _ _ H1), (drop_S _ _ _ H2). simpl.
  destruct (Z.ltb_spec c1 c2), (Z.eqb_spec c1 c2); simpl; try done;
    try lia; symmetry; [apply bool_decide_eq_true_2|apply bool_decide_eq_false_2];
    lia.
Qed.

(** * Further properties of the program *)

(** ** The constructor *)

(** X1: whatever the text, an exception that leaves the constructor is an
    [IndexError] or a [RecursionError]: no [TypeError] from arithmetic on
    [None], no [AttributeError] from an attribute of [None], no
    [KeyError]. *)
Theorem constructor_raises_IndexError_or_RecursionError input e :
  (UkkonenSuffixTree [] input).1 = Raise e →
  e = IndexError ∨ e = RecursionError.
Proof. intros H. by apply run_raises in H. Qed.

(** X1 at the text "a" followed by the symbol 127. *)
Lemma constructor_raises_IndexError_or_RecursionError_witness :
  IndexError = IndexError ∨ IndexError = RecursionError.
Proof.
  apply (constructor_raises_IndexError_or_RecursionError [97; 127]).
  by vm_compute.
Defined.



(** X3: the constructor raises [IndexError] only on a text with a symbol
    that has no slot in the child table, that is a code outside -55 to
    126; for the code points of a Python [str], a symbol above 126. *)
Theorem IndexError_needs_symbol_without_slot input :
  (UkkonenSuffixTree [] input).1 = Raise IndexError →
  ∃ c, c ∈ input ∧ ¬ (-55 ≤ c ≤ 126).
Proof.
  intros Hrun. destruct (run_blames _ _ Hrun) as [H1 _].
  destruct (not_all_encodable (input ++ str "$")) as (c & Hc & Hn).
  { intros Hall. by specialize (H1 Hall). }
  rewrite encodable_bounds in Hn.
  apply elem_of_app in Hc as [Hc|Hc]; [by exists c|].
  change (str "$") with [36] in Hc.
  apply list_elem_of_singleton in Hc as ->. lia.
Qed.

(** X3 at the text "a" followed by the symbol 127. *)
Lemma IndexError_needs_symbol_without_slot_witness :
  ∃ c, c ∈ [97; 127] ∧ ¬ (-55 ≤ c ≤ 126).
Proof.
  apply (IndexError_needs_symbol_without_slot [97; 127]). by vm_compute.
Defined.

(** ** The suffix ids *)

(** X4: whatever the text, when the constructor returns, [suffix_ids]
    holds positions of the terminated text, none of them twice. *)
Theorem suffix_ids_are_distinct_positions input :
  (UkkonenSuffixTree [] input).1 = Ok tt →
  NoDup (suffix_ids (st (UkkonenSuffixTree [] input).2)) ∧
  ∀ id, id ∈ suffix_ids (st (UkkonenSuffixTree [] input).2) →
    0 ≤ id ≤ Z.of_nat (length input).
Proof. apply run_ids_distinct. Qed.

(** X4 at the text "mississippi". *)
Lemma suffix_ids_are_distinct_positions_witness :
  NoDup (suffix_ids (st (UkkonenSuffixTree [] (str "mississippi")).2)) ∧
  ∀ id, id ∈ suffix_ids (st (UkkonenSuffixTree [] (str "mississippi")).2) →
    0 ≤ id ≤ Z.of_nat (length (str "mississippi")).
Proof.
  apply (suffix_ids_are_distinct_positions (str "mississippi")).
  by vm_compute.
Defined.

(** X5: on a text over the codes 36 to 126 that does not contain the
    terminator "$" (code 36), when the constructor returns, [suffix_ids]
    lists every position of the terminated text exactly once. *)
Theorem suffix_ids_list_every_suffix_once input :
  Forall supported input → 36 ∉ input →
  (UkkonenSuffixTree [] input).1 = Ok tt →
  suffix_ids (st (UkkonenSuffixTree [] input).2)
    ≡ₚ seqZ 0 (Z.of_nat (length input) + 1).
Proof. apply run_ids_permutation. Qed.

(** X5 at the text "mississippi". *)
Lemma suffix_ids_list_every_suffix_once_witness :
  suffix_ids (st (UkkonenSuffixTree [] (str "mississippi")).2)
    ≡ₚ seqZ 0 (Z.of_nat (length (str "mississippi")) + 1).
Proof.
  apply (suffix_ids_list_every_suffix_once (str "mississippi")).
  - repeat constructor; by vm_compute.
  - apply (bool_decide_eq_false_1 (36 ∈ str "mississippi")). by vm_compute.
  - by vm_compute.
Defined.

(** X6: on a text over the codes 36 to 126, when the constructor returns,
    [suffix_ids] is ordered by the first symbol of the suffixes: a suffix
    listed before another does not start with a greater symbol. *)
Theorem suffix_ids_ordered_by_first_symbol input a b p1 p2 :
  Forall supported input →
  (UkkonenSuffixTree [] input).1 = Ok tt →
  (a < b)%nat →
  suffix_ids (st (UkkonenSuffixTree [] input).2) !! a = Some p1 →
  suffix_ids (st (UkkonenSuffixTree [] input).2) !! b = Some p2 →
  ∃ c1 c2,
    (input ++ str "$") !! Z.to_nat p1 = Some c1 ∧
    (input ++ str "$") !! Z.to_nat p2 = Some c2 ∧ c1 ≤ c2.
Proof. apply run_ids_first_symbol_order. Qed.

(** X6 at the text "mississippi", for the first two entries of
    [suffix_ids]. *)
Lemma suffix_ids_ordered_by_first_symbol_witness :
  ∃ c1 c2,
    (str "mississippi" ++ str "$") !! Z.to_nat 11 = Some c1 ∧
    (str "mississippi" ++ str "$") !! Z.to_nat 10 = Some c2 ∧ c1 ≤ c2.
Proof.
  apply (suffix_ids_ordered_by_first_symbol (str "mississippi") 0 1 11 10).
  - repeat constructor; by vm_compute.
  - by vm_compute.
  - lia.
  - by vm_compute.
  - by vm_compute.
Defined.

(** X7: on a text over the codes 37 to 126 in which no symbol occurs
    twice, when the constructor returns, [suffix_ids] is the suffix array
    of the terminated text: every position once, in the lexicographic
    order of the suffixes. *)
Theorem suffix_array_of_text_without_repeats input :
  Forall supported input → NoDup input → 36 ∉ input →
  (UkkonenSuffixTree [] input).1 = Ok tt →
  is_suffix_array (input ++ str "$")
    (suffix_ids (st (UkkonenSuffixTree [] input).2)).
Proof.
  intros Hsup Hnd Hno Hrun.
  pose proof (run_ids_permutation _ Hsup Hno Hrun) as Hperm.
  destruct (run_ids_distinct _ Hrun) as [Hndi _].
  assert (NoDup (input ++ str "$")) as Hnds.
  { apply NoDup_app. split; [done|]. split; [|apply NoDup_singleton].
    by intros c Hc ->%list_elem_of_singleton. }
  split; [by rewrite text_length|].
  intros a b p1 p2 Ha Hb.
  set (s := input ++ str "$") in *.
  set (ids := suffix_ids (st (UkkonenSuffixTree [] input).2)) in *.
  assert (∀ a b p1 p2, (a < b)%nat →
            ids !! a = Some p1 → ids !! b = Some p2 →
            lex_lt (drop (Z.to_nat p1) s) (drop (Z.to_nat p2) s) = true ∧
            lex_lt (drop (Z.to_nat p2) s) (drop (Z.to_nat p1) s) = false)
    as Hlt.
  { intros a' b' q1 q2 Hab Ha' Hb'.
    destruct (run_ids_first_symbol_order input a' b' q1 q2 Hsup Hrun Hab Ha' Hb')
      as (c1 & c2 & Hc1 & Hc2 & Hle). fold s in Hc1, Hc2.
    assert (c1 ≠ c2) as Hne.
    { intros ->. pose proof (NoDup_lookup _ _ _ _ Hnds Hc1 Hc2) as Heq.
      assert (0 ≤ q1 ∧ 0 ≤ q2) as [? ?].
      { split; [apply list_elem_of_lookup_2 in Ha'|apply list_elem_of_lookup_2 in Hb'].
        - rewrite Hperm in Ha'. apply elem_of_seqZ in Ha'. lia.
        - rewrite Hperm in Hb'. apply elem_of_seqZ in Hb'. lia. }
      assert (q1 = q2) as -> by lia.
      pose proof (NoDup_lookup _ _ _ _ Hndi Ha' Hb'). lia. }
    rewrite (lex_lt_drop _ _ _ _ _ Hc1 Hc2), (lex_lt_drop _ _ _ _ _ Hc2 Hc1)
      by done.
    split; [apply bool_decide_eq_true_2; lia|apply bool_decide_eq_false_2; lia]. }
  split.
  - intros Hab. by apply (Hlt a b p1 p2).
  - intros Hlex. destruct (Nat.lt_trichotomy a b) as [?|[->|Hba]]; [done| |].
    + assert (p1 = p2) as -> by congruence. by rewrite lex_lt_irrefl in Hlex.
    + destruct (Hlt b a p2 p1 Hba Hb Ha) as [_ Hf]. congruence.
Qed.

(** X7 at the text "sort". *)
Lemma suffix_array_of_text_without_repeats_witness :
  is_suffix_array (str "sort" ++ str "$")
    (suffix_ids (st (UkkonenSuffixTree [] (str "sort")).2)).
Proof.
  apply (suffix_array_of_text_without_repeats (str "sort")).
  - repeat constructor; by vm_compute.
  - apply (bool_decide_unpack _). by vm_compute.
  - apply (bool_decide_eq_false_1 (36 ∈ str "sort")). by vm_compute.
  - by vm_compute.
Defined.

(** X8: on a text over the codes 36 to 126 that contains the terminator
    "$" itself, when the constructor returns, the last suffix, the "$"
    the constructor appended, is missing from [suffix_ids], and [main]
    raises [KeyError] when asked for its rank. *)
Theorem terminator_in_text_loses_last_suffix input :
  Forall supported input → 36 ∈ input →
  (UkkonenSuffixTree [] input).1 = Ok tt →
  (Z.of_nat (length input) ∉ suffix_ids (st (UkkonenSuffixTree [] input).2)) ∧
  main input [Z.of_nat (length input) + 1] = Raise KeyError.
Proof.
  intros Hsup Hin Hrun.
  assert (Z.of_nat (length input)
            ∉ suffix_ids (st (UkkonenSuffixTree [] input).2)) as Hmiss.
  { destruct (run_collects _ Hrun) as (j & ts & Hj & Hc & Hids & Hsub & _).
    apply (caught_up_short _ _ Hsup Hin) in Hc. rewrite text_length in Hc.
    rewrite Hids. intros Hid. apply (elem_of_submseteq _ _ _ Hid) in Hsub.
    apply elem_of_seqZ in Hsub. lia. }
  split; [done|]. unfold main. revert Hrun Hmiss.
  destruct (UkkonenSuffixTree [] input) as [[[]|e] w]; [|done].
  cbn [fst snd lookup_ranks sorted_dict]. intros _ Hmiss.
  replace (Z.of_nat (length input) + 1 - 1) with (Z.of_nat (length input))
    by lia.
  destruct (rank_mapping (st w) !! Z.of_nat (length input)) as [r|] eqn:Hr;
    [|done].
  by apply rank_mapping_key in Hr.
Qed.

(** X8 at the text "a$b". *)
Lemma terminator_in_text_loses_last_suffix_witness :
  (Z.of_nat (length (str "a$b"))
     ∉ suffix_ids (st (UkkonenSuffixTree [] (str "a$b")).2)) ∧
  main (str "a$b") [Z.of_nat (length (str "a$b")) + 1] = Raise KeyError.
Proof.
  apply (terminator_in_text_loses_last_suffix (str "a$b")).
  - repeat constructor; by vm_compute.
  - apply (bool_decide_unpack _). by vm_compute.
  - by vm_compute.
Defined.

(** X9: when the constructor returns, the arena holds at most two nodes
    for every suffix of the terminated text, and the root. *)
Theorem arena_has_at_most_two_nodes_per_suffix input :
  (UkkonenSuffixTree [] input).1 = Ok tt →
  Z.of_nat (length (arena (st (UkkonenSuffixTree [] input).2)))
    ≤ 2 * (Z.of_nat (length input) + 1) + 1.
Proof.
  intros (j & ts & Hj & _ & _ & _ & _ & _ & Hsz)%run_collects.
  rewrite text_length in Hj. lia.
Qed.

(** X9 at the text "banana". *)
Lemma arena_has_at_most_two_nodes_per_suffix_witness :
  Z.of_nat (length (arena (st (UkkonenSuffixTree [] (str "banana")).2)))
    ≤ 2 * (Z.of_nat (length (str "banana")) + 1) + 1.
Proof.
  apply (arena_has_at_most_two_nodes_per_suffix (str "banana")).
  by vm_compute.
Defined.

(** X10: whatever the text and however the constructor ends, every node of
    the arena has its 91 child slots, and no node is referred to from two
    slots: the nodes form a forest. *)
Theorem every_node_keeps_91_slots_and_one_parent input :
  Forall (λ n, length (children n) = 91%nat)
    (arena (st (UkkonenSuffixTree [] input).2)) ∧
  ∀ a a' n n' k k' c,
    arena (st (UkkonenSuffixTree [] input).2) !! a = Some n →
    arena (st (UkkonenSuffixTree [] input).2) !! a' = Some n' →
    children n !! k = Some (Some c) → children n' !! k' = Some (Some c) →
    a = a' ∧ k = k'.
Proof.
  pose proof (tree_ok _ _ (st_ok _ _ (run_world_ok input))) as Hok. split.
  - apply Forall_lookup. intros a n Hn. by eapply width_ok.
  - intros a a' n n' k k' c. by eapply parent_ok.
Qed.

(** ** The ranks *)

(** X11: when the constructor returns, the position-to-rank mapping of
    [main] is the inverse of [suffix_ids]: position [p] has rank [r]
    exactly when [p] is entry [r - 1] of [suffix_ids]. *)
Theorem rank_mapping_inverts_suffix_ids input p r :
  (UkkonenSuffixTree [] input).1 = Ok tt →
  rank_mapping (st (UkkonenSuffixTree [] input).2) !! p = Some r ↔
  1 ≤ r ∧
  suffix_ids (st (UkkonenSuffixTree [] input).2) !! Z.to_nat (r - 1) = Some p.
Proof.
  intros Hrun. apply rank_mapping_lookup. by apply run_ids_distinct.
Qed.

(** X11 at the text "mississippi", position 11 and rank 1. *)
Lemma rank_mapping_inverts_suffix_ids_witness :
  rank_mapping (st (UkkonenSuffixTree [] (str "mississippi")).2) !! 11 = Some 1 ↔
  1 ≤ 1 ∧
  suffix_ids (st (UkkonenSuffixTree [] (str "mississippi")).2)
    !! Z.to_nat (1 - 1) = Some 11.
Proof.
  apply (rank_mapping_inverts_suffix_ids (str "mississippi") 11 1).
  by vm_compute.
Defined.

(** X12: on a text over the codes 37 to 126, when the constructor returns,
    the position-to-rank mapping of [main] is a bijection between the
    positions 0 to n and the ranks 1 to n + 1, n the length of the text. *)
Theorem rank_mapping_is_a_bijection input :
  Forall supported input → 36 ∉ input →
  (UkkonenSuffixTree [] input).1 = Ok tt →
  (∀ p, 0 ≤ p ≤ Z.of_nat (length input) →
     ∃ r, 1 ≤ r ≤ Z.of_nat (length input) + 1 ∧
       rank_mapping (st (UkkonenSuffixTree [] input).2) !! p = Some r) ∧
  (∀ r, 1 ≤ r ≤ Z.of_nat (length input) + 1 →
     ∃ p, 0 ≤ p ≤ Z.of_nat (length input) ∧
       rank_mapping (st (UkkonenSuffixTree [] input).2) !! p = Some r) ∧
  (∀ p p' r,
     rank_mapping (st (UkkonenSuffixTree [] input).2) !! p = Some r →
     rank_mapping (st (UkkonenSuffixTree [] input).2) !! p' = Some r →
     p = p').
Proof.
  intros Hsup Hno Hrun.
  pose proof (run_ids_permutation _ Hsup Hno Hrun) as Hperm.
  destruct (run_ids_distinct _ Hrun) as [Hnd Hrange].
  set (x := st (UkkonenSuffixTree [] input).2) in *.
  assert (Z.of_nat (length (suffix_ids x)) = Z.of_nat (length input) + 1)
    as Hlen by (rewrite Hperm, length_seqZ; lia).
  split; [|split].
  - intros p Hp.
    assert (p ∈ suffix_ids x) as Hin
      by (rewrite Hperm; apply elem_of_seqZ; lia).
    apply list_elem_of_lookup_1 in Hin as [idx Hidx].
    pose proof (lookup_lt_Some _ _ _ Hidx).
    exists (Z.of_nat idx + 1). split; [lia|].
    apply rank_mapping_lookup; [done|]. split; [lia|].
    by replace (Z.to_nat (Z.of_nat idx + 1 - 1)) with idx by lia.
  - intros r Hr.
    destruct (lookup_lt_is_Some_2 (suffix_ids x) (Z.to_nat (r - 1)))
      as [p Hp]; [lia|].
    exists p. split; [by eapply Hrange, list_elem_of_lookup_2|].
    apply rank_mapping_lookup; [done|]. split; [lia|done].
  - intros p p' r [_ H1]%rank_mapping_lookup [_ H2]%rank_mapping_lookup;
      [congruence|done|done].
Qed.

(** X12 at the text "banana". *)
Lemma rank_mapping_is_a_bijection_witness :
  (∀ p, 0 ≤ p ≤ Z.of_nat (length (str "banana")) →
     ∃ r, 1 ≤ r ≤ Z.of_nat (length (str "banana")) + 1 ∧
       rank_mapping (st (UkkonenSuffixTree [] (str "banana")).2) !! p = Some r) ∧
  (∀ r, 1 ≤ r ≤ Z.of_nat (length (str "banana")) + 1 →
     ∃ p, 0 ≤ p ≤ Z.of_nat (length (str "banana")) ∧
       rank_mapping (st (UkkonenSuffixTree [] (str "banana")).2) !! p = Some r) ∧
  (∀ p p' r,
     rank_mapping (st (UkkonenSuffixTree [] (str "banana")).2) !! p = Some r →
     rank_mapping (st (UkkonenSuffixTree [] (str "banana")).2) !! p' = Some r →
     p = p').
Proof.
  apply (rank_mapping_is_a_bijection (str "banana")).
  - repeat constructor; by vm_compute.
  - apply (bool_decide_eq_false_1 (36 ∈ str "banana")). by vm_compute.
  - by vm_compute.
Defined.



(** X14: line 176, which rebuilds the mapping from its items sorted by
    key, changes no entry of it. *)
Theorem sorting_the_mapping_changes_no_entry (d : gmap Z Z) k :
  sort_dict d !! k = d !! k.
Proof. by rewrite sort_dict_id. Qed.

(** ** The methods on their own *)

(** X15: [retrieve_suffix_ids] on a reference below which the arena holds
    the tree [t], with stack room for the height of [t]: it returns, the
    suffix ids of the leaves of [t] are appended to [suffix_ids] slot by
    slot from the left, and the arena is as before. *)
Theorem retrieve_suffix_ids_appends_the_leaves t depth node w :
  repr (arena (st w)) node t → (height t < depth)%nat →
  (retrieve_suffix_ids depth node w).1 = Ok tt ∧
  suffix_ids (st (retrieve_suffix_ids depth node w).2)
    = suffix_ids (st w) ++ leaves t ∧
  arena (st (retrieve_suffix_ids depth node w).2) = arena (st w).
Proof.
  intros Hr Hd.
  pose proof (wp_run _ _ _ _ (wp_retrieve_repr t depth node w Hr)) as H.
  destruct (retrieve_suffix_ids depth node w).1 as [[]|e]; [done|].
  destruct H. lia.
Qed.

(** X15 at the tree of the text "a", walked once more: the leaf of "$" in
    slot 0 and the leaf of "a" in slot 61. *)
Lemma retrieve_suffix_ids_appends_the_leaves_witness :
  let w := (UkkonenSuffixTree [] (str "a")).2 in
  let t := Node (<[0%nat := Leaf 1]> (<[61%nat := Leaf 0]> (replicate 91 Empty))) in
  (retrieve_suffix_ids 3 (Some 0%nat) w).1 = Ok tt ∧
  suffix_ids (st (retrieve_suffix_ids 3 (Some 0%nat) w).2)
    = suffix_ids (st w) ++ leaves t ∧
  arena (st (retrieve_suffix_ids 3 (Some 0%nat) w).2) = arena (st w).
Proof.
  refine (retrieve_suffix_ids_appends_the_leaves
            (Node (<[0%nat := Leaf 1]> (<[61%nat := Leaf 0]> (replicate 91 Empty))))
            3 (Some 0%nat) (UkkonenSuffixTree [] (str "a")).2 _ _).
  - apply (repr_node _ 0%nat
             (set_children
                (<[0%nat := Some 2%nat]>
                   (<[61%nat := Some 1%nat]> (replicate 91 None)))
                (set_suffix_link (Some 0%nat)
                   (TrieNode_init (-1) None None false))));
      [by vm_compute|reflexivity|].
    cbn [children set_children].
    apply Forall2_insert; [apply Forall2_insert|].
    + apply Forall2_replicate. constructor.
    + apply (repr_leaf _ 1%nat (TrieNode_init 0 (Some 0) (Some 1) true));
        by vm_compute.
    + apply (repr_leaf _ 2%nat (TrieNode_init 1 (Some 1) (Some 2) true));
        by vm_compute.
  - vm_compute. lia.
Defined.

(** X16: [traverse_path] changes nothing: whatever it is called on and
    however it ends, the store and the arena are as before. *)
Theorem traverse_path_changes_nothing depth node len w :
  (traverse_path depth node len w).2 = w.
Proof. apply pure_traverse_path. Qed.

(** X17: [build_suffix_tree] never touches [suffix_ids], whatever store
    it is run on and however it ends. *)
Theorem build_suffix_tree_leaves_suffix_ids w :
  suffix_ids (st (build_suffix_tree w).2) = suffix_ids (st w).
Proof. apply keeps_build_suffix_tree. Qed.

(** X18: [add_child] then [get_child_at]: after [add_child] returned, a
    subscript that names the same slot (the index itself, or the index
    counted from the other end) reads the new child, and every other
    slot reads as before. *)
Theorem add_child_then_get_child_at a n pos pos' c w w' :
  arena (st w) !! a = Some n →
  add_child (Some a) pos c w = (Ok tt, w') →
  (py_norm (length (children n)) pos' = py_norm (length (children n)) pos →
     (get_child_at (Some a) pos' w').1 = Ok c) ∧
  (py_norm (length (children n)) pos' ≠ py_norm (length (children n)) pos →
     (get_child_at (Some a) pos' w').1 = (get_child_at (Some a) pos' w).1).
Proof.
  intros Hn Hadd. destruct (add_child_run _ _ _ _ _ _ Hn Hadd) as (k & Hk & Har).
  pose proof (py_norm_lt _ _ _ Hk) as Hlt.
  assert (arena (st w') !! a =
            Some (set_children (<[k := c]> (children n)) n)) as Hn'.
  { rewrite Har. apply list_lookup_insert_eq. by eapply lookup_lt_Some. }
  rewrite (get_child_at_run _ _ _ _ Hn'), (get_child_at_run _ _ _ _ Hn).
  unfold py_getitem. cbn [children set_children]. rewrite length_insert.
  split.
  - intros ->. rewrite Hk. by rewrite list_lookup_insert_eq.
  - intros Hne. destruct (py_norm (length (children n)) pos') as [k'|]; [|done].
    rewrite list_lookup_insert_ne; [done|congruence].
Qed.

(** X18 at the root of the empty tree: a child put at index -1 is read at
    index 90. *)
Lemma add_child_then_get_child_at_witness :
  (get_child_at (Some 0%nat) 90
     (add_child (Some 0%nat) (-1) (Some 5%nat) (init_world [] [])).2).1
  = Ok (Some 5%nat).
Proof.
  refine (proj1 (add_child_then_get_child_at 0%nat
                   (set_suffix_link (Some 0%nat)
                      (TrieNode_init (-1) None None false))
                   (-1) 90 (Some 5%nat) (init_world [] []) _ _ _) _).
  - reflexivity.
  - reflexivity.
  - reflexivity.
Defined.

(** X19: a node made by [TrieNode(...)] is the next one of the arena and
    has 91 empty child slots, which the subscripts -91 to 90 read; any
    other subscript raises [IndexError]. *)
Theorem fresh_node_has_91_empty_slots id start e t pos w :
  (TrieNode_new id start e t w).1 = Ok (length (arena (st w))) ∧
  (get_child_at (Some (length (arena (st w)))) pos
     (TrieNode_new id start e t w).2).1 =
    if decide (-91 ≤ pos < 91) then Ok None else Raise IndexError.
Proof.
  split; [done|].
  rewrite (get_child_at_run _ (TrieNode_init id start e t));
    [|by apply list_lookup_middle].
  apply py_getitem_replicate.
Qed.

Lemma wp_any {A} (m : M A) w : wp m (λ _ _, True) (λ _ _, True) w.
Proof. unfold wp. by destruct (m w) as [[a|e] w']. Qed.

Lemma wp_pure {A} (m : M A) (Q : A → world → Prop)
    (E : exception → world → Prop) w :
  pure_op m → (∀ a, Q a w) → (∀ e, E e w) → wp m Q E w.
Proof.
  intros Hp HQ HE. unfold wp. specialize (Hp w).
  destruct (m w) as [[a|e] w']; simpl in Hp; subst; auto.
Qed.

(** X20: Rule 3, the [break] of the inner loop: an extension that ends in
    it has written to no node, whatever store it ran on. *)
Theorem rule_3_changes_no_node i j last w w' :
  extension i j last w = (Ok None, w') → arena (st w') = arena (st w).
Proof.
  intros Hrun.
  pose proof (wp_run (extension i j last)
                (λ r w', r = None → arena (st w') = arena (st w))
                (λ _ _, True) w) as H.
  rewrite Hrun in H. apply H; [|done]. clear H Hrun w'.
  unfold extension.
  apply wp_bind, wp_gets. apply wp_bind, wp_gets. apply wp_bind.
  eapply (wp_mono _ (λ _ w1, arena (st w1) = arena (st w)) _ (λ _ _, True));
    [destruct (decide _); [by apply wp_modify|by apply wp_ret]| |done].
  intros [] w1 Hw1.
  apply wp_bind, wp_record. cbn [st history].
  apply wp_bind, wp_gets. apply wp_bind, wp_gets.
  apply wp_bind, wp_pure; [apply pure_traverse_path| |done]. intros _.
  apply wp_bind, wp_gets. apply wp_bind, wp_gets.
  apply wp_bind, wp_lift; [|done]. intros c _.
  apply wp_bind, wp_gets.
  apply wp_bind, wp_pure; [apply pure_get_child_at| |done]. intros [ae|].
  - apply wp_bind. apply wp_bind, wp_lift; [|done]. intros x _.
    apply wp_bind, wp_pure; [apply pure_deref| |done]. intros aen.
    apply wp_bind, wp_lift; [|done]. intros k _.
    apply wp_bind, wp_lift; [|done]. intros y _.
    destruct (decide (x = y)).
    + apply wp_ret, wp_ret. by intros _.
    + apply wp_bind. eapply wp_mono; [apply wp_any| |done].
      intros l w2 _. apply wp_ret, wp_bind.
      eapply wp_mono; [apply wp_any| |done].
      intros [] w3 _. by apply wp_ret.
  - apply wp_bind, wp_bind. eapply wp_mono; [apply wp_any| |done].
    intros [] w2 _. apply wp_ret, wp_bind.
    eapply wp_mono; [apply wp_any| |done].
    intros [] w3 _. by apply wp_ret.
Qed.

(** X20 at the text "aa": the extension of phase 2 that would insert the
    suffix "a" finds it in the tree and stops. *)
Lemma rule_3_changes_no_node_witness :
  let w := (phase 1 0 (init_world [] (str "aa"))).2 in
  let w1 := (modify (λ s, with_global_end_marker
                            (increment (global_end_marker s)) s) w).2 in
  arena (st (extension 2 1 None w1).2) = arena (st w1).
Proof.
  refine (rule_3_changes_no_node 2 1 None _ _ _). by vm_compute.
Defined.
